(** * Team Orienteering Problem: heuristics and local search

    A shallow embedding of [top/problem.py], [top/heuristic.py],
    [top/localsearch.py] and [top/simulation.py].

    Conventions of the embedding:
    - Python [float]s are idealised as exact rationals ([Q]); equality of
      lengths is therefore [Qeq] ([==]).
    - Python [int]s used as identifiers and counts are [nat]; rewards are [Z].
    - [dict]s that are iterated ([Problem.customers], [Problem.dists],
      [Solution.routes]) are insertion-ordered association lists; the reverse
      index [Solution.c_to_r], which is only read, written and popped by key,
      is a [gmap].
    - Exceptions are values of [exn] carried by the [result] monad.
    - The pseudo-random generator is an explicit oracle: a stream
      [us : nat → Q] for [random.random()], and a natural number [k] for each
      call of [random.choice] / [random.randrange], read modulo the size of
      the range. *)

From Stdlib Require Import QArith Lqa.
From stdpp Require Import base option list gmap strings.

(** ** Exceptions and the error monad *)

Inductive exn : Type :=
  | KeyError
  | IndexError
  | ValueError
  | ZeroDivisionError
  | StopIteration
  | AttributeError
  | OutOfFuel.

Inductive result (A : Type) : Type :=
  | Ok (a : A)
  | Err (e : exn).

Arguments Ok {A} a.
Arguments Err {A} e.

Global Instance result_ret : MRet result := @Ok.
Global Instance result_bind : MBind result :=
  λ A B f m, match m with Ok a => f a | Err e => Err e end.

Definition of_option {A} (e : exn) (o : option A) : result A :=
  match o with Some a => Ok a | None => Err e end.

Fixpoint foldM {A S} (f : S → A → result S) (s : S) (l : list A) : result S :=
  match l with
  | [] => Ok s
  | a :: l' => s' ← f s a; foldM f s' l'
  end.

(** ** Insertion-ordered dictionaries *)

Section odict.
Context {K V : Type} `{EqDecision K}.

Fixpoint od_get (k : K) (d : list (K * V)) : option V :=
  match d with
  | [] => None
  | (k', v) :: d' => if decide (k = k') then Some v else od_get k d'
  end.

(** [d[k]] *)
Definition od_lookup (k : K) (d : list (K * V)) : result V :=
  of_option KeyError (od_get k d).

(** [d[k] = v]: an existing key keeps its position. *)
Fixpoint od_set (k : K) (v : V) (d : list (K * V)) : list (K * V) :=
  match d with
  | [] => [(k, v)]
  | (k', v') :: d' =>
      if decide (k = k') then (k', v) :: d' else (k', v') :: od_set k v d'
  end.

Fixpoint od_del (k : K) (d : list (K * V)) : list (K * V) :=
  match d with
  | [] => []
  | (k', v') :: d' =>
      if decide (k = k') then d' else (k', v') :: od_del k d'
  end.

(** [d.pop(k)] *)
Definition od_pop (k : K) (d : list (K * V)) : result (V * list (K * V)) :=
  match od_get k d with
  | Some v => Ok (v, od_del k d)
  | None => Err KeyError
  end.

Definition od_keys (d : list (K * V)) : list K := d.*1.
Definition od_values (d : list (K * V)) : list V := d.*2.

(** [{k: v for (k, v) in l}] *)
Definition od_of_list (l : list (K * V)) : list (K * V) :=
  foldl (λ d kv, od_set kv.1 kv.2 d) [] l.

(** The typing invariant of a dictionary: keys are unique. *)
Definition od_wf (d : list (K * V)) : Prop := NoDup d.*1.
End odict.

(** ** Python list primitives *)

Section pylist.
Context {A : Type}.

(** [l[i]] for [i >= 0] *)
Definition py_index (l : list A) (i : nat) : result A :=
  of_option IndexError (l !! i).

(** [l[-2]] *)
Definition py_index_m2 (l : list A) : result A :=
  if decide (2 ≤ length l) then py_index l (length l - 2) else Err IndexError.

(** [l.pop(i)] for [i >= 0] *)
Definition py_pop (l : list A) (i : nat) : result (A * list A) :=
  match l !! i with
  | Some x => Ok (x, delete i l)
  | None => Err IndexError
  end.

(** [l[1:-1]] *)
Definition interior (l : list A) : list A := removelast (tail l).

(** [l[:-1]] *)
Definition but_last (l : list A) : list A := removelast l.

(** [l[i:j] = reversed(l[i:j])] *)
Definition reverse_slice (i j : nat) (l : list A) : list A :=
  take i l ++ reverse (take (j - i) (drop i l)) ++ drop j l.

(** [zip(l[:-1], l[1:])] *)
Definition legs (l : list A) : list (A * A) := zip (but_last l) (tail l).
End pylist.

(** [random.choice(l)]; the oracle [k] stands for the outcome of
    [_randbelow(len(l))]. *)
Definition py_choice {A} (k : nat) (l : list A) : result A :=
  match l with
  | [] => Err IndexError
  | _ => py_index l (k mod length l)
  end.

(** [random.randrange(lo, hi)] *)
Definition py_randrange (k lo hi : nat) : result nat :=
  if decide (lo < hi) then Ok (lo + k mod (hi - lo)) else Err ValueError.

(** ** Stable descending sort

    [sorted(l, key=..., reverse=True)]: elements with equal keys keep their
    original relative order.  [gt y x] decides [key y > key x]. *)

Section sort.
Context {A : Type} (gt : A → A → bool).

Fixpoint insert_desc (x : A) (l : list A) : list A :=
  match l with
  | [] => [x]
  | y :: l' => if gt y x then y :: insert_desc x l' else x :: y :: l'
  end.

Definition sorted_desc (l : list A) : list A := foldr insert_desc [] l.
End sort.

Definition Qltb (x y : Q) : bool := negb (Qle_bool y x).

(** ** Data model ([top/problem.py]) *)

Module Customer.
Record t : Type := mk {
  id : nat;
  x : Q;
  y : Q;
  reward : Z;
}.
End Customer.

Module Problem.
Record t : Type := mk {
  instance : string;
  n_trucks : nat;
  tmax : Q;
  customers : list (nat * Customer.t);
  dists : list ((nat * nat) * Q);
}.
End Problem.

Module Route.
Record t : Type := mk {
  id : nat;
  problem : Problem.t;
  customers : list nat;
  length : Q;
  reward : Z;
}.
End Route.

Module Solution.
Record t : Type := mk {
  problem : Problem.t;
  routes : list (nat * Route.t);
  c_to_r : gmap nat nat;
}.
End Solution.

(** [source, target = 0, len(p.customers) - 1] *)
Definition source : nat := 0.
Definition target (p : Problem.t) : nat := length (Problem.customers p) - 1.

(** [p.dists[i, j]] *)
Definition dist (p : Problem.t) (i j : nat) : result Q :=
  od_lookup (i, j) (Problem.dists p).

(** [p.customers[i]] *)
Definition customer (p : Problem.t) (i : nat) : result Customer.t :=
  od_lookup i (Problem.customers p).

(** [sum(dists[i, j] for i, j in zip(l[:-1], l[1:]))] *)
Definition legs_length (p : Problem.t) (l : list nat) : result Q :=
  foldM (λ acc ij, d ← dist p ij.1 ij.2; Ok (acc + d)%Q) 0%Q (legs l).

(** ** Savings heuristic ([top/heuristic.py]) *)

Module Saving.
Record t : Type := mk {
  inode : nat;
  jnode : nat;
  value : Q;
  distance_saving : Q;
  reward_saving : Z;
}.
End Saving.

Module ConstructiveStep.
Record t : Type := mk {
  id : nat;
  customer : Customer.t;
  value : Q;
}.
End ConstructiveStep.

(** One iteration of the loop of [init_solution]; the state is
    [(routes, route_id, c_to_r)]. *)
Definition init_step (p : Problem.t)
    (st : list (nat * Route.t) * nat * gmap nat nat) (item : nat * Customer.t)
    : result (list (nat * Route.t) * nat * gmap nat nat) :=
  let '(routes, route_id, c_to_r) := st in
  let '(id, c) := item in
  if decide (id = source ∨ id = target p) then Ok st
  else
    d1 ← dist p source id;
    d2 ← dist p id (target p);
    let t := (d1 + d2)%Q in
    if Qle_bool t (Problem.tmax p) then
      let route := Route.mk route_id p [source; id; target p] t (Customer.reward c) in
      Ok (od_set route_id route routes, S route_id, <[id := route_id]> c_to_r)
    else Ok st.

Definition init_solution (p : Problem.t) : result Solution.t :=
  '(routes, _, c_to_r) ← foldM (init_step p) ([], 0, ∅) (Problem.customers p);
  Ok (Solution.mk p routes c_to_r).

Definition saving_of (p : Problem.t) (alpha : Q) (item : (nat * nat) * Q)
    : result (option Saving.t) :=
  let '((inode, jnode), d) := item in
  if decide (inode = source ∨ inode = target p ∨ jnode = source ∨ jnode = target p)
  then Ok None
  else
    d1 ← dist p inode (target p);
    d2 ← dist p source jnode;
    let distance_saving := (d1 + d2 - d)%Q in
    ci ← customer p inode;
    cj ← customer p jnode;
    let reward_saving := (Customer.reward ci + Customer.reward cj)%Z in
    let value := (alpha * distance_saving + (1 - alpha) * inject_Z reward_saving)%Q in
    Ok (Some (Saving.mk inode jnode value distance_saving reward_saving)).

Definition generate_savings (p : Problem.t) (alpha : Q) : result (list Saving.t) :=
  foldM (λ savings item,
           o ← saving_of p alpha item;
           Ok (match o with Some s => savings ++ [s] | None => savings end))
        [] (Problem.dists p).

(** *** [math.log] on exact rationals

    [count_powers fuel b x b] counts the exponents [k >= 1] with [b^k <= x];
    for [b > 1] and [x >= 1] this is [floor (log x / log b)]. *)
Fixpoint count_powers (fuel : nat) (b x acc : Q) : Z :=
  match fuel with
  | O => 0
  | S fuel' =>
      if Qle_bool acc x then (1 + count_powers fuel' b x (acc * b)%Q)%Z else 0%Z
  end.

(** [b >= 1 + 1/den b], hence [b^k > x] as soon as [k >= den b * num x]. *)
Definition floor_log (b x : Q) : Z :=
  count_powers (Z.to_nat (Z.pos (Qden b) * Qnum x)) b x b.

(** [int(math.log(x, base))]: [math.log] computes [log(x) / log(base)] and
    raises [ValueError] on a non-positive argument and [ZeroDivisionError]
    when [log(base)] is zero; [int] truncates towards zero. *)
Definition int_log (x base : Q) : result Z :=
  if Qle_bool x 0 then Err ValueError
  else if Qle_bool base 0 then Err ValueError
  else if Qeq_bool base 1 then Err ZeroDivisionError
  else
    let x' := if Qle_bool 1 x then x else (/ x)%Q in
    let b' := if Qle_bool 1 base then base else (/ base)%Q in
    let m := floor_log b' x' in
    Ok (if Bool.eqb (Qle_bool 1 x) (Qle_bool 1 base) then m else (- m)%Z).

(** *** Biased-randomised selector *)

Section bra.
Context {A : Type} (value : A → Q).

Definition sorted_by_value (lst : list A) : list A :=
  sorted_desc (λ y x, Qltb (value x) (value y)) lst.

(** [idx = int(math.log(random.random(), 1.0 - beta)) % len(options)] *)
Definition bra_index (beta u : Q) (n : nat) : result nat :=
  k ← int_log u (1 - beta)%Q;
  if decide (n = 0) then Err ZeroDivisionError
  else Ok (Z.to_nat (k mod Z.of_nat n)).

(** One resumption of the generator: draw, pop, yield. *)
Definition bra_next (beta u : Q) (options : list A) : result (A * list A) :=
  idx ← bra_index beta u (length options);
  py_pop options idx.

(** The elements yielded by [n] resumptions, drawing [us k], [us (k+1)], ... *)
Fixpoint bra_yield (n : nat) (beta : Q) (us : nat → Q) (k : nat)
    (options : list A) : result (list A) :=
  match n with
  | O => Ok []
  | S n' =>
      '(element, options') ← bra_next beta (us k) options;
      rest ← bra_yield n' beta us (S k) options';
      Ok (element :: rest)
  end.

(** Full consumption of [bra_selector(lst, beta)]. *)
Definition bra_selector (lst : list A) (beta : Q) (us : nat → Q) : result (list A) :=
  bra_yield (length lst) beta us 0 (sorted_by_value lst).

(** [next(bra_selector(lst, beta))] *)
Definition bra_first (lst : list A) (beta u : Q) : result A :=
  match lst with
  | [] => Err StopIteration
  | _ => '(element, _) ← bra_next beta u (sorted_by_value lst); Ok element
  end.
End bra.

(** *** Merging two routes *)

Definition merge_routes (p : Problem.t) (solution : Solution.t)
    (iroute jroute : Route.t) : result (Solution.t * Route.t) :=
  ic_id ← py_index_m2 (Route.customers iroute);
  jc_id ← py_index (Route.customers jroute) 1;
  let c_to_r :=
    foldl (λ m i, <[i := Route.id iroute]> m) (Solution.c_to_r solution)
          (interior (Route.customers jroute)) in
  let solution' :=
    Solution.mk (Solution.problem solution) (Solution.routes solution) c_to_r in
  d_it ← dist p ic_id (target p);
  d_ij ← dist p ic_id jc_id;
  d_sj ← dist p source jc_id;
  Ok (solution',
      Route.mk (Route.id iroute) (Route.problem iroute)
        (but_last (Route.customers iroute) ++ tail (Route.customers jroute))
        (Route.length iroute - d_it + d_ij + Route.length jroute - d_sj)%Q
        (Route.reward iroute + Route.reward jroute)%Z).

Definition set_routes (s : Solution.t) (routes : list (nat * Route.t)) : Solution.t :=
  Solution.mk (Solution.problem s) routes (Solution.c_to_r s).

(** The [if ... and ...: if ... <= tmax:] block of the loop body. *)
Definition try_merge (p : Problem.t) (solution : Solution.t)
    (ic_id jc_id iroute_id jroute_id : nat) (iroute jroute : Route.t)
    : result Solution.t :=
  i_last ← py_index_m2 (Route.customers iroute);
  if decide (ic_id = i_last) then
    j_first ← py_index (Route.customers jroute) 1;
    if decide (jc_id = j_first) then
      d_it ← dist p ic_id (target p);
      d_sj ← dist p source jc_id;
      d_ij ← dist p ic_id jc_id;
      if Qle_bool (Route.length iroute - d_it + Route.length jroute - d_sj + d_ij)
                  (Problem.tmax p)
      then
        '(solution1, merged_route) ← merge_routes p solution iroute jroute;
        '(_, routes1) ← od_pop iroute_id (Solution.routes solution1);
        '(_, routes2) ← od_pop jroute_id routes1;
        Ok (set_routes solution1 (od_set (Route.id merged_route) merged_route routes2))
      else Ok solution
    else Ok solution
  else Ok solution.

(** One iteration of the merge loop; the boolean tells whether the loop
    was left by [break]. *)
Definition savings_step (p : Problem.t) (saving : Saving.t) (solution : Solution.t)
    : result (Solution.t * bool) :=
  let ic_id := Saving.inode saving in
  let jc_id := Saving.jnode saving in
  _ ← customer p ic_id;
  _ ← customer p jc_id;
  match Solution.c_to_r solution !! ic_id, Solution.c_to_r solution !! jc_id with
  | Some iroute_id, Some jroute_id =>
      if decide (iroute_id = jroute_id) then Ok (solution, false)
      else
        iroute ← od_lookup iroute_id (Solution.routes solution);
        jroute ← od_lookup jroute_id (Solution.routes solution);
        solution' ← try_merge p solution ic_id jc_id iroute_id jroute_id iroute jroute;
        Ok (solution',
            bool_decide (length (Solution.routes solution') ≤ Problem.n_trucks p))
  | _, _ => Ok (solution, false)
  end.

Fixpoint savings_loop (n : nat) (p : Problem.t) (beta : Q) (us : nat → Q) (k : nat)
    (options : list Saving.t) (solution : Solution.t) : result Solution.t :=
  match n with
  | O => Ok solution
  | S n' =>
      '(saving, options') ← bra_next beta (us k) options;
      '(solution', stop) ← savings_step p saving solution;
      if stop : bool then Ok solution'
      else savings_loop n' p beta us (S k) options' solution'
  end.

(** [heapq.nlargest(n, l, key=attrgetter("reward"))], which is
    [sorted(l, key=..., reverse=True)[:n]]. *)
Definition nlargest_reward (n : nat) (l : list Route.t) : list Route.t :=
  take n (sorted_desc (λ y x, (Route.reward x <? Route.reward y)%Z) l).

(** The three statements after the loop. *)
Definition keep_top_routes (p : Problem.t) (solution : Solution.t) : Solution.t :=
  let top_routes :=
    nlargest_reward (Problem.n_trucks p) (od_values (Solution.routes solution)) in
  let routes := od_of_list (map (λ r, (Route.id r, r)) top_routes) in
  let c_to_r :=
    foldl (λ m cr, <[cr.1 := cr.2]> m) ∅
      (r ← top_routes;
       c ← filter (λ c, c ≠ source ∧ c ≠ target p) (Route.customers r);
       [(c, Route.id r)]) in
  Solution.mk (Solution.problem solution) routes c_to_r.

(** The body of [savings_heuristic], as a transformer of the contents of the
    object bound to [solution]. *)
Definition savings_run (p : Problem.t) (alpha beta : Q) (us : nat → Q)
    (solution : Solution.t) : result Solution.t :=
  savings_list ← generate_savings p alpha;
  solution' ← savings_loop (length savings_list) p beta us 0
                 (sorted_by_value Saving.value savings_list) solution;
  Ok (keep_top_routes p solution').

(** *** The heap of [Solution] objects

    [savings_heuristic] assigns to the fields of the object it is given and
    returns that object; each [Solution] owns its two dictionaries (every
    function that builds one passes fresh dictionaries), and [Route] objects
    are never assigned to after construction. *)
Abbreviation heap := (list Solution.t) (only parsing).

Definition savings_heuristic (p : Problem.t) (alpha beta : Q) (us : nat → Q)
    (solution : option nat) (h : heap) : result (nat * heap) :=
  '(ref, h1) ← match solution with
               | None => s ← init_solution p; Ok (length h, h ++ [s])
               | Some ref => Ok (ref, h)
               end;
  s ← of_option AttributeError (h1 !! ref);
  s' ← savings_run p alpha beta us s;
  Ok (ref, <[ref := s']> h1).

(** ** Constructive heuristic ([top/heuristic.py]) *)

(** The list comprehension of the [while] condition. *)
Definition candidates (p : Problem.t) (alpha : Q) (visited_customers : gset nat)
    (cnode : nat) (cdist : Q) : result (list ConstructiveStep.t) :=
  foldM (λ acc item,
           let '(id, c) := item in
           if decide (id ∈ visited_customers) then Ok acc
           else
             d1 ← dist p cnode id;
             d2 ← dist p id (target p);
             if Qle_bool (cdist + d1 + d2) (Problem.tmax p) then
               d0 ← dist p cnode (target p);
               Ok (acc ++ [ConstructiveStep.mk id c
                             (inject_Z (Customer.reward c) * (1 - alpha)
                              + alpha * (d0 - d1 - d2))%Q])
             else Ok acc)
        [] (Problem.customers p).

Module Builder.
(** The variables of the [while] loop of [constructive_heuristic]. *)
Record t : Type := mk {
  route : list nat;
  cnode : nat;
  cdist : Q;
  creward : Z;
  visited_customers : gset nat;
  c_to_r : gmap nat nat;
  draws : nat;
}.
End Builder.

(** The body of the [while] loop once [cs] is selected; [d] is
    [dists[cnode, nnode]]. *)
Definition append_customer (route_id : nat) (b : Builder.t)
    (cs : ConstructiveStep.t) (d : Q) : Builder.t :=
  let nnode := ConstructiveStep.id cs in
  Builder.mk (Builder.route b ++ [nnode]) nnode
    (Builder.cdist b + d)%Q
    (Builder.creward b + Customer.reward (ConstructiveStep.customer cs))%Z
    ({[nnode]} ∪ Builder.visited_customers b)
    (<[nnode := route_id]> (Builder.c_to_r b))
    (S (Builder.draws b)).

(** The [while] loop: every iteration marks one more customer as visited, so
    [len(p.customers)] iterations are enough (lemma [extend_route_fuel]). *)
Fixpoint extend_route (fuel : nat) (p : Problem.t) (alpha beta : Q) (us : nat → Q)
    (route_id : nat) (b : Builder.t) : result Builder.t :=
  customers ← candidates p alpha (Builder.visited_customers b)
                 (Builder.cnode b) (Builder.cdist b);
  match customers with
  | [] => Ok b
  | _ =>
      match fuel with
      | O => Err OutOfFuel
      | S fuel' =>
          cs ← bra_first ConstructiveStep.value customers beta (us (Builder.draws b));
          d ← dist p (Builder.cnode b) (ConstructiveStep.id cs);
          extend_route fuel' p alpha beta us route_id (append_customer route_id b cs d)
      end
  end.

(** One iteration of [for i in range(n_trucks)]; the state is
    [(routes, route_id, c_to_r, visited_customers, draws)]. *)
Definition build_truck (p : Problem.t) (alpha beta : Q) (us : nat → Q)
    (st : list (nat * Route.t) * nat * gmap nat nat * gset nat * nat)
    : result (list (nat * Route.t) * nat * gmap nat nat * gset nat * nat) :=
  let '(routes, route_id, c_to_r, visited_customers, draws) := st in
  b ← extend_route (length (Problem.customers p)) p alpha beta us route_id
        (Builder.mk [source] source 0%Q 0%Z visited_customers c_to_r draws);
  d ← dist p (Builder.cnode b) (target p);
  let r := Route.mk route_id p (Builder.route b ++ [target p])
             (Builder.cdist b + d)%Q (Builder.creward b) in
  Ok (od_set route_id r routes, S route_id, Builder.c_to_r b,
      Builder.visited_customers b, Builder.draws b).

Definition constructive_heuristic (p : Problem.t) (alpha beta : Q) (us : nat → Q)
    : result Solution.t :=
  '(routes, _, c_to_r, _, _) ←
    foldM (λ st _, build_truck p alpha beta us st)
          ([], 0, ∅, {[source; target p]}, 0) (seq 0 (Problem.n_trucks p));
  Ok (Solution.mk p routes c_to_r).

(** ** Local search ([top/localsearch.py]) *)

(** The body of the inner [for j] loop of [opt2]; the state is
    [(customers, length, improved)]. *)
Definition opt2_step (p : Problem.t) (i j : nat) (st : list nat * Q * bool)
    : result (list nat * Q * bool) :=
  let '(customers, len, improved) := st in
  a ← py_index customers (i - 1);
  b ← py_index customers i;
  d_ab ← dist p a b;
  c ← py_index customers (j - 1);
  d ← py_index customers j;
  d_cd ← dist p c d;
  let current_dist := (d_ab + d_cd)%Q in
  d_ac ← dist p a c;
  d_bd ← dist p b d;
  let new_dist := (d_ac + d_bd)%Q in
  if Qltb new_dist current_dist then
    Ok (reverse_slice i j customers, (len - current_dist + new_dist)%Q, true)
  else Ok st.

(** [for j in range(i + 2, len(customers))] *)
Definition opt2_row (p : Problem.t) (n i : nat) (st : list nat * Q * bool)
    : result (list nat * Q * bool) :=
  foldM (λ st j, opt2_step p i j st) st (seq (i + 2) (n - (i + 2))).

(** [for i in range(1, len(customers) - 2)] *)
Definition opt2_sweep (p : Problem.t) (n : nat) (st : list nat * Q * bool)
    : result (list nat * Q * bool) :=
  foldM (λ st i, opt2_row p n i st) st (seq 1 (n - 3)).

(** [while improved]: [fuel] bounds the number of sweeps. *)
Fixpoint opt2_loop (fuel : nat) (p : Problem.t) (customers : list nat) (len : Q)
    : result (list nat * Q) :=
  match fuel with
  | O => Err OutOfFuel
  | S fuel' =>
      '(customers', len', improved) ←
        opt2_sweep p (length customers) (customers, len, false);
      if improved : bool then opt2_loop fuel' p customers' len'
      else Ok (customers', len')
  end.

(** Every improving sweep reaches an arrangement not seen before, so the
    number of arrangements bounds the number of sweeps (lemma
    [opt2_terminates]). *)
Definition opt2 (p : Problem.t) (route : Route.t) : result Route.t :=
  '(customers, len) ←
    opt2_loop (fact (length (Route.customers route))) p
      (Route.customers route) (Route.length route);
  Ok (Route.mk (Route.id route) p customers len (Route.reward route)).

(** [max(routes.keys()) + 1] *)
Definition next_route_id (routes : list (nat * Route.t)) : result nat :=
  match od_keys routes with
  | [] => Err ValueError
  | ks => Ok (max_list ks + 1)
  end.

(** One iteration of the second loop of [shaking]; the state is
    [(routes, c_to_r, new_route_id)]. *)
Definition shake_step (p : Problem.t)
    (st : list (nat * Route.t) * gmap nat nat * nat) (item : nat * Customer.t)
    : result (list (nat * Route.t) * gmap nat nat * nat) :=
  let '(routes, c_to_r, new_route_id) := st in
  let '(i, c) := item in
  if decide (is_Some (c_to_r !! i) ∨ i = source ∨ i = target p) then Ok st
  else
    d1 ← dist p source i;
    d2 ← dist p i (target p);
    let t := (d1 + d2)%Q in
    if Qle_bool t (Problem.tmax p) then
      let new_route :=
        Route.mk new_route_id p [source; i; target p] t (Customer.reward c) in
      Ok (od_set new_route_id new_route routes, <[i := new_route_id]> c_to_r,
          S new_route_id)
    else Ok st.

(** [c_to_r.pop(i)] *)
Definition c_to_r_pop (m : gmap nat nat) (i : nat) : result (gmap nat nat) :=
  match m !! i with
  | Some _ => Ok (delete i m)
  | None => Err KeyError
  end.

(** The solution handed to [savings_heuristic]. *)
Definition shaking_start (p : Problem.t) (solution : Solution.t) (k_route : nat)
    : result Solution.t :=
  let routes := Solution.routes solution in
  let c_to_r := Solution.c_to_r solution in
  route_id ← py_choice k_route (od_keys routes);
  '(route, routes) ← od_pop route_id routes;
  c_to_r ← foldM c_to_r_pop c_to_r (interior (Route.customers route));
  new_route_id ← next_route_id routes;
  '(routes, c_to_r, _) ←
    foldM (shake_step p) (routes, c_to_r, new_route_id) (Problem.customers p);
  Ok (Solution.mk p routes c_to_r).

(** [starting_solution] is a fresh object known to nobody else, so the call
    of [savings_heuristic] runs in a heap of its own. *)
Definition shaking (p : Problem.t) (solution : Solution.t) (alpha beta : Q)
    (k_route : nat) (us : nat → Q) : result Solution.t :=
  starting_solution ← shaking_start p solution k_route;
  '(ref, h) ← savings_heuristic p alpha beta us (Some 0) [starting_solution];
  of_option AttributeError (h !! ref).

(** One iteration of the loop of [insert]; the state is [(routes, c_to_r)]. *)
Definition insert_step (p : Problem.t) (route_id : nat)
    (st : list (nat * Route.t) * gmap nat nat) (item : nat * Customer.t)
    : result (list (nat * Route.t) * gmap nat nat) :=
  let '(routes, c_to_r) := st in
  let '(id, c) := item in
  if decide (is_Some (c_to_r !! id) ∨ id = source ∨ id = target p) then Ok st
  else
    route ← of_option AttributeError (od_get route_id routes);
    let new_customers :=
      take 1 (Route.customers route) ++ [id] ++ tail (Route.customers route) in
    len ← legs_length p new_customers;
    new_route ← opt2 p (Route.mk route_id p new_customers len
                          (Route.reward route + Customer.reward c)%Z);
    if Qle_bool (Route.length new_route) (Problem.tmax p) then
      Ok (od_set route_id new_route routes, <[id := route_id]> c_to_r)
    else Ok st.

Definition insert (p : Problem.t) (solution : Solution.t) (k_route : nat)
    : result Solution.t :=
  route_id ← py_choice k_route (od_keys (Solution.routes solution));
  '(routes, c_to_r) ←
    foldM (insert_step p route_id)
          (Solution.routes solution, Solution.c_to_r solution)
          (Problem.customers p);
  Ok (Solution.mk p routes c_to_r).

(** The route that [remove] tries in place of [route]: a random interior
    customer is taken out and the rest goes through 2-opt.  Returns the
    customer taken out and the new route. *)
Definition remove_candidate (p : Problem.t) (route_id : nat) (route : Route.t)
    (k_idx : nat) : result (nat * Route.t) :=
  let customers := Route.customers route in
  idx ← py_randrange k_idx 1 (length customers - 1);
  '(removed_customer_id, new_customers) ← py_pop customers idx;
  removed ← customer p removed_customer_id;
  a ← py_index customers (idx - 1);
  b ← py_index customers idx;
  d_ab ← dist p a b;
  c ← py_index customers (idx + 1);
  d_bc ← dist p b c;
  d_ac ← dist p a c;
  new_route ← opt2 p (Route.mk route_id p new_customers
                        (Route.length route - d_ab - d_bc + d_ac)%Q
                        (Route.reward route - Customer.reward removed)%Z);
  Ok (removed_customer_id, new_route).

Definition remove (p : Problem.t) (solution : Solution.t) (k_route k_idx : nat)
    : result Solution.t :=
  let routes := Solution.routes solution in
  let c_to_r := Solution.c_to_r solution in
  route_id ← py_choice k_route (od_keys routes);
  route ← of_option AttributeError (od_get route_id routes);
  if decide (length (Route.customers route) ≤ 3) then Ok (Solution.mk p routes c_to_r)
  else
    '(removed_customer_id, new_route) ← remove_candidate p route_id route k_idx;
    if Qle_bool (Route.length new_route) (Problem.tmax p) then
      c_to_r' ← c_to_r_pop c_to_r removed_customer_id;
      Ok (Solution.mk p (od_set route_id new_route routes) c_to_r')
    else Ok (Solution.mk p routes c_to_r).

(** ** Monte-Carlo evaluator ([top/simulation.py])

    [sim t l] is the transit time that [rng.lognormal] draws for leg [l] of
    trial [t]. *)

Definition Qsum (l : list Q) : Q := foldr Qplus 0%Q l.

Definition feasible_route_count (tmax : Q) (simulated_transit_times : list (list Q))
    : nat :=
  length (filter (λ row, Qle_bool (Qsum row) tmax = true) simulated_transit_times).

Definition get_route_stochastic_reward (p : Problem.t) (route : Route.t)
    (n_iter : nat) (sim : nat → nat → Q) : result Q :=
  let customers := Route.customers route in
  let n_legs := length customers - 1 in
  target_means ← mapM (λ ij, dist p ij.1 ij.2) (legs customers);
  let simulated_transit_times :=
    map (λ t, map (sim t) (seq 0 n_legs)) (seq 0 n_iter) in
  let count := feasible_route_count (Problem.tmax p) simulated_transit_times in
  Ok (inject_Z (Route.reward route)
      * (inject_Z (Z.of_nat count) / inject_Z (Z.of_nat n_iter)))%Q.

(** ** Specification vocabulary *)

(** The table entry of a leg, read as 0 where the table has none. *)
Definition dq (p : Problem.t) (ij : nat * nat) : Q :=
  default 0%Q (od_get ij (Problem.dists p)).

(** The length of a customer sequence: the sum of its consecutive legs. *)
Definition path_length (p : Problem.t) (l : list nat) : Q :=
  Qsum (map (dq p) (legs l)).

(** Every consecutive leg of the sequence has a table entry. *)
Definition legs_defined (p : Problem.t) (l : list nat) : Prop :=
  ∀ ij, ij ∈ legs l → is_Some (od_get ij (Problem.dists p)).

(** The table gives a leg and its reverse the same distance. *)
Definition symmetric (p : Problem.t) : Prop :=
  ∀ i j d, dist p i j = Ok d → ∃ d', dist p j i = Ok d' ∧ (d' == d)%Q.

(** The table has an entry for every pair of distinct customers of [l]. *)
Definition covers (p : Problem.t) (l : list nat) : Prop :=
  ∀ a b, a ∈ l → b ∈ l → a ≠ b → ∃ d, dist p a b = Ok d.

(** What one improving move, a row, or a sweep of [opt2] may do to the state
    [(customers, length, improved)]: the sequence is rearranged between its two
    ends; unless nothing changed, [improved] is set and the recorded length has
    strictly decreased; on a symmetric table the recorded length moves with the
    path length, and legs stay inside the table. *)
Definition opt2_rel (p : Problem.t) (st st' : list nat * Q * bool) : Prop :=
  let '(cs, len, imp) := st in
  let '(cs', len', imp') := st' in
  length cs' = length cs ∧ cs' ≡ₚ cs ∧ head cs' = head cs ∧ last cs' = last cs ∧
  (st' = st ∨ (imp' = true ∧ (len' < len)%Q)) ∧
  (symmetric p →
     (len' - path_length p cs' == len - path_length p cs)%Q ∧
     (legs_defined p cs → legs_defined p cs')).

(** [b] to the power [n]. *)
Fixpoint Qpow (b : Q) (n : nat) : Q :=
  match n with
  | O => 1
  | S n' => b * Qpow b n'
  end.

(** A route goes from the source to the sink through distinct customers, none
    of them a depot. *)
Definition route_wf (p : Problem.t) (r : Route.t) : Prop :=
  ∃ mid, Route.customers r = source :: (mid ++ [target p]) ∧
         NoDup mid ∧ (source ∉ mid) ∧ (target p ∉ mid).

(** The reverse index is exactly the membership relation of the routes: a
    customer is mapped to [k] if and only if it is an interior customer of the
    route stored under [k]. *)
Definition reverse_index_exact (s : Solution.t) : Prop :=
  ∀ c k, Solution.c_to_r s !! c = Some k ↔
         ∃ r, od_get k (Solution.routes s) = Some r ∧ c ∈ interior (Route.customers r).

(** No customer other than the depots is on two routes. *)
Definition one_route_per_customer (p : Problem.t) (s : Solution.t) : Prop :=
  ∀ k1 k2 r1 r2 c,
    od_get k1 (Solution.routes s) = Some r1 → od_get k2 (Solution.routes s) = Some r2 →
    c ∈ Route.customers r1 → c ∈ Route.customers r2 →
    c ≠ source → c ≠ target p → k1 = k2.

(** The invariant of solutions. *)
Definition solution_inv (p : Problem.t) (s : Solution.t) : Prop :=
  od_wf (Solution.routes s) ∧
  (∀ k r, od_get k (Solution.routes s) = Some r → Route.id r = k ∧ route_wf p r) ∧
  reverse_index_exact s.

(** Every route is within the time budget. *)
Definition feasible (p : Problem.t) (s : Solution.t) : Prop :=
  ∀ k r, (k, r) ∈ Solution.routes s → (Route.length r <= Problem.tmax p)%Q.


(** ** Loop invariants *)

(** The trials, by index, whose summed transit time is within the budget. *)
Definition feasible_trials (p : Problem.t) (route : Route.t) (n_iter : nat)
    (sim : nat → nat → Q) : list nat :=
  filter (λ t, Qle_bool (Qsum (map (sim t) (seq 0 (length (Route.customers route) - 1))))
                 (Problem.tmax p) = true)
         (seq 0 n_iter).

(** The state [(routes, route_id, c_to_r)] of a loop that opens singleton
    routes under fresh ids. *)
Definition singletons_inv (p : Problem.t)
    (st : list (nat * Route.t) * nat * gmap nat nat) : Prop :=
  let '(routes, route_id, c_to_r) := st in
  od_wf routes ∧
  (∀ k, k ∈ od_keys routes → k < route_id) ∧
  (∀ k r, od_get k routes = Some r →
     Route.id r = k ∧ (Route.length r <= Problem.tmax p)%Q ∧
     ∃ c, Route.customers r = [source; c; target p] ∧ c ≠ source ∧ c ≠ target p ∧
          c_to_r !! c = Some k) ∧
  (∀ c k, c_to_r !! c = Some k →
     ∃ r, od_get k routes = Some r ∧ Route.customers r = [source; c; target p]).

(** The customers not yet visited. *)
Definition unvisited (p : Problem.t) (visited : gset nat) : nat :=
  length (filter (λ kc, kc.1 ∉ visited) (Problem.customers p)).

(** The routes under construction stay within the budget as soon as they
    have a customer. *)
Definition builder_feasible (p : Problem.t) (b : Builder.t) : Prop :=
  Builder.route b = [source] ∨
  ∃ d, dist p (Builder.cnode b) (target p) = Ok d ∧
       (Builder.cdist b + d <= Problem.tmax p)%Q.

Definition has_customer (p : Problem.t) (r : Route.t) : Prop :=
  ∃ c, c ∈ Route.customers r ∧ c ≠ source ∧ c ≠ target p.

(** The state [(routes, route_id, c_to_r, visited_customers, draws)] between
    two trucks of [constructive_heuristic]. *)
Definition trucks_inv (p : Problem.t)
    (st : list (nat * Route.t) * nat * gmap nat nat * gset nat * nat) : Prop :=
  let '(routes, rid, c_to_r, visited, _) := st in
  od_wf routes ∧
  (∀ k, k ∈ od_keys routes → k < rid) ∧
  (∀ k r, od_get k routes = Some r →
     Route.id r = k ∧ route_wf p r ∧
     ∀ c, c ∈ interior (Route.customers r) → c ∈ visited) ∧
  (∀ c k, c_to_r !! c = Some k ↔
          ∃ r, od_get k routes = Some r ∧ c ∈ interior (Route.customers r)) ∧
  source ∈ visited ∧ target p ∈ visited.

(** The variables of the [while] loop that builds the route [rid], beside the
    routes already closed. *)
Definition builder_inv (p : Problem.t) (routes : list (nat * Route.t)) (rid : nat)
    (b : Builder.t) : Prop :=
  ∃ mid,
    Builder.route b = source :: mid ∧ NoDup mid ∧
    (∀ c, c ∈ mid → c ∈ Builder.visited_customers b) ∧
    (source ∉ mid) ∧ (target p ∉ mid) ∧
    source ∈ Builder.visited_customers b ∧ target p ∈ Builder.visited_customers b ∧
    (∀ k r c, od_get k routes = Some r → c ∈ interior (Route.customers r) →
              c ∈ Builder.visited_customers b) ∧
    (∀ c k, Builder.c_to_r b !! c = Some k ↔
            k = rid ∧ c ∈ mid ∨
            ∃ r, od_get k routes = Some r ∧ c ∈ interior (Route.customers r)).

(** ** Decidable checks of a table *)



(** ** Example instances *)

(** The loop of [read_instance] that fills the table: each pair is entered in
    both directions. *)
Definition both_ways (l : list (nat * nat * Q)) : list ((nat * nat) * Q) :=
  e ← l; [((e.1.1, e.1.2), e.2); ((e.1.2, e.1.1), e.2)].

(** Four points on a line, at 0, 2, 3 and 4; rewards 5 and 7. *)
Definition ex_customers : list (nat * Customer.t) :=
  [(0, Customer.mk 0 0 0 0); (1, Customer.mk 1 2 0 5);
   (2, Customer.mk 2 3 0 7); (3, Customer.mk 3 4 0 0)].

Definition ex_dists : list ((nat * nat) * Q) :=
  both_ways [(0, 1, 2%Q); (0, 2, 3%Q); (0, 3, 4%Q);
             (1, 2, 1%Q); (1, 3, 2%Q); (2, 3, 1%Q)].

Definition ex_problem (n_trucks : nat) : Problem.t :=
  Problem.mk "line4" n_trucks 10 ex_customers ex_dists.

(** The initial solution of [ex_problem 2]: one route per customer. *)
Definition ex_init : Solution.t :=
  Solution.mk (ex_problem 2)
    [(0, Route.mk 0 (ex_problem 2) [0; 1; 3] 4 5);
     (1, Route.mk 1 (ex_problem 2) [0; 2; 3] 4 7)]
    (<[2 := 1]> (<[1 := 0]> ∅)).

(** One route through both customers. *)
Definition ex_single : Solution.t :=
  Solution.mk (ex_problem 1)
    [(0, Route.mk 0 (ex_problem 1) [0; 1; 2; 3] 4 12)]
    (<[2 := 0]> (<[1 := 0]> ∅)).





(** A solution of [ex_problem 1] that leaves customer 2 out. *)
Definition ex_partial : Solution.t :=
  Solution.mk (ex_problem 1)
    [(0, Route.mk 0 (ex_problem 1) [0; 1; 3] 4 5)]
    (<[1 := 0]> ∅).

(** What [savings_heuristic] makes of [ex_init]: the two routes merged. *)
Definition ex_merged : Solution.t :=
  Solution.mk (ex_problem 2)
    [(1, Route.mk 1 (ex_problem 2) [0; 2; 1; 3] 6 12)]
    (<[1 := 1]> (<[2 := 1]> ∅)).

(** Trial [t] takes [2 t] on every leg. *)
Definition ex_sim (t l : nat) : Q := inject_Z (2 * Z.of_nat t).

(** ** Reading an instance ([top/problem.py]) *)

(** [itertools.combinations(l, 2)] *)
Fixpoint combinations2 {A} (l : list A) : list (A * A) :=
  match l with
  | [] => []
  | x :: l' => map (pair x) l' ++ combinations2 l'
  end.

Section read_instance.
(** [euclidean] rounds a floating-point square root to two decimals; the
  table is filled with whatever it returns, so it is a parameter here. *)
Context (euclidean : Q → Q → Q → Q → Q).

(** The first loop of [read_instance], on the rows [(x, y, reward)] parsed
  from [lines[3:]]: [customers[i] = Customer(id=i, ...)]. *)
Definition read_customers (rows : list (Q * Q * Z)) : list (nat * Customer.t) :=
od_of_list (imap (λ i row, (i, Customer.mk i row.1.1 row.1.2 row.2)) rows).

(** The body of the second loop: both directions get the same distance. *)
Definition read_dists_step (dists : list ((nat * nat) * Q))
  (pair : (nat * Customer.t) * (nat * Customer.t)) : list ((nat * nat) * Q) :=
let '((id_1, c_1), (id_2, c_2)) := pair in
let distance :=
  euclidean (Customer.x c_1) (Customer.y c_1) (Customer.x c_2) (Customer.y c_2) in
od_set (id_2, id_1) distance (od_set (id_1, id_2) distance dists).

(** The two entries that one pair of customers contributes to the table. *)
Definition table_entries (pair : (nat * Customer.t) * (nat * Customer.t))
  : list ((nat * nat) * Q) :=
let d := euclidean (Customer.x pair.1.2) (Customer.y pair.1.2)
           (Customer.x pair.2.2) (Customer.y pair.2.2) in
[((pair.1.1, pair.2.1), d); ((pair.2.1, pair.1.1), d)].

Definition read_dists (customers : list (nat * Customer.t)) : list ((nat * nat) * Q) :=
foldl read_dists_step [] (combinations2 customers).

(** [read_instance], from the header fields and the rows of the file. *)
Definition read_instance (filename : string) (n_trucks : nat) (tmax : Q)
  (rows : list (Q * Q * Z)) : Problem.t :=
let customers := read_customers rows in
Problem.mk filename n_trucks tmax customers (read_dists customers).
End read_instance.

(** A stand-in for [euclidean] on points of a line. *)
Definition ex_metric (x1 y1 x2 y2 : Q) : Q :=
  if Qle_bool x1 x2 then (x2 - x1)%Q else (x1 - x2)%Q.

(** The rows of the instance [ex_problem]. *)
Definition ex_rows : list (Q * Q * Z) :=
  [(0%Q, 0%Q, 0%Z); (2%Q, 0%Q, 5%Z); (3%Q, 0%Q, 7%Z); (4%Q, 0%Q, 0%Z)].

Definition ex_instance (n_trucks : nat) : Problem.t :=
  read_instance ex_metric "line4" n_trucks 10 ex_rows.

(** ** Vocabulary for the further properties *)

(** The values do not increase along the list. *)
Fixpoint descending {A} (value : A → Q) (l : list A) : Prop :=
  match l with
  | [] => True
  | x :: l' => (∀ y, y ∈ l' → (value y <= value x)%Q) ∧ descending value l'
  end.

(** The recorded length of a route is the sum of the table entries of its
    consecutive legs, all of which exist. *)
Definition length_exact (p : Problem.t) (r : Route.t) : Prop :=
  ∃ t, legs_length p (Route.customers r) = Ok t ∧ (Route.length r == t)%Q.


(** [Solution.reward]: [sum(i.reward for i in self.routes.values())] *)
Definition solution_reward (s : Solution.t) : Z :=
  foldl (λ acc r, (acc + Route.reward r)%Z) 0%Z (od_values (Solution.routes s)).

(** The total reward of a list of routes. *)
Definition rewards (l : list Route.t) : Z :=
  foldr (λ r acc, (Route.reward r + acc)%Z) 0%Z l.

(** The customers for which [init_solution] opens a route: those that are not
    depots and whose round trip from the source to the sink fits [tmax]. *)
Definition reachable (p : Problem.t) (c : nat) : Prop :=
  c ≠ source ∧ c ≠ target p ∧
  ∃ d1 d2, dist p source c = Ok d1 ∧ dist p c (target p) = Ok d2 ∧
           (d1 + d2 <= Problem.tmax p)%Q.


(** ** Stochastic reward of a solution ([top/problem.py])

    [Solution.stochastic_reward]:
    [sum(get_route_stochastic_reward(self.problem, i, n_iter) for i in
    self.routes.values())]; [sim i] holds the draws for the [i]-th route. *)
Definition stochastic_reward (s : Solution.t) (n_iter : nat)
    (sim : nat → nat → nat → Q) : result Q :=
  foldM (λ acc ir,
           v ← get_route_stochastic_reward (Solution.problem s) ir.2 n_iter (sim ir.1);
           Ok (acc + v)%Q)
        0%Q (imap pair (od_values (Solution.routes s))).

(** ** Metaheuristics ([top/metaheuristic.py])

    The [heuristic] argument is [savings_heuristic] or
    [constructive_heuristic], called as [heuristic(p, alpha=..., beta=...)];
    every call draws its own random numbers, so [heuristic n alpha beta] is
    the outcome of the [n]-th call. *)

(** [np.arange(0.0, 1.05, 0.05)]: the 21 values 0, 0.05, ..., 1. *)
Definition alphas : list Q :=
  map (λ k, (inject_Z (Z.of_nat k) * (5 # 100))%Q) (seq 0 21).

(** The body of the loop of [generate_greedy_solution]; the state is
    [(solution, reward, best_alpha)]. *)
Definition greedy_step (heuristic : nat → Q → Q → result Solution.t)
    (st : option Solution.t * Z * option Q) (ia : nat * Q)
    : result (option Solution.t * Z * option Q) :=
  let '(solution, reward, best_alpha) := st in
  new_sol ← heuristic ia.1 ia.2 (99999 # 100000)%Q;
  let new_reward := solution_reward new_sol in
  if bool_decide (solution = None) || (reward <? new_reward)%Z
  then Ok (Some new_sol, new_reward, Some ia.2)
  else Ok st.

Definition generate_greedy_solution (heuristic : nat → Q → Q → result Solution.t)
    : result (option Solution.t * option Q) :=
  '(solution, _, best_alpha) ←
    foldM (greedy_step heuristic) (None, 0%Z, None) (imap pair alphas);
  Ok (solution, best_alpha).

(** The state of the loop after the first [k] values of [alpha]. *)
Definition greedy_inv (heuristic : nat → Q → Q → result Solution.t) (A : list Q)
    (k : nat) (st : option Solution.t * Z * option Q) : Prop :=
  match st.1.1 with
  | None => k = 0 ∧ st = (None, 0%Z, None)
  | Some s =>
      st.1.2 = solution_reward s ∧
      ∃ i alpha, i < k ∧ st.2 = Some alpha ∧ A !! i = Some alpha ∧
        heuristic i alpha (99999 # 100000)%Q = Ok s ∧
        ∀ j aj sj, j < k → A !! j = Some aj →
          heuristic j aj (99999 # 100000)%Q = Ok sj →
          (solution_reward sj ≤ solution_reward s)%Z ∧
          (j < i → (solution_reward sj < solution_reward s)%Z)
  end.

(** The two heuristics as they are passed to the metaheuristics: a call
    without seed, each with its own stream of draws. *)
Definition savings_call (p : Problem.t) (us : nat → nat → Q)
    (n : nat) (alpha beta : Q) : result Solution.t :=
  '(ref, h) ← savings_heuristic p alpha beta (us n) None [];
  of_option AttributeError (h !! ref).

Definition constructive_call (p : Problem.t) (us : nat → nat → Q)
    (n : nat) (alpha beta : Q) : result Solution.t :=
  constructive_heuristic p alpha beta (us n).

(** [collections.deque(maxlen=n).append(x)]: the oldest elements leave on the
    left once the deque is full; with [maxlen = 0] nothing is ever kept. *)
Definition deque_append {A} (maxlen : nat) (d : list A) (x : A) : list A :=
  drop (length (d ++ [x]) - maxlen) (d ++ [x]).

(** [max(a, b)] on numbers: [b] only if it is greater. *)
Definition py_max (a b : Q) : Q := if Qltb a b then b else a.

(** [heapq.nlargest(1, l, key=operator.itemgetter(1))[0]] *)
Definition nlargest1 {A} (l : list (A * Q)) : result (A * Q) :=
  of_option IndexError (head (sorted_desc (λ y x, Qltb x.2 y.2) l)).

(** The last statements of both metaheuristics: the long simulation of the
    elite solutions and the choice among them.  [sims (first + k)] holds the
    draws of the simulation of the [k]-th elite. *)
Definition best_elite (sims : nat → nat → nat → nat → Q) (n_iter first : nat)
    (elites : list Solution.t) : result Solution.t :=
  elite_sol_to_stochastic_reward ←
    mapM (λ ie, sr ← stochastic_reward ie.2 n_iter (sims (first + ie.1));
                Ok (ie.2, sr))
         (imap pair elites);
  '(best_stochastic_solution, _) ← nlargest1 elite_sol_to_stochastic_reward;
  Ok best_stochastic_solution.

Module MultiStart.
(** The parameters of [multi_start_metaheuristic]. *)
Record params : Type := mk_params {
max_iter : nat;
enlarge_search_iter : nat;
beta_start : Q;
beta_step : Q;
min_beta : Q;
n_elites : nat;
short_simulation_n_iter : nat;
long_simulation_n_iter : nat;
}.

(** The variables of its loop. *)
Record t : Type := mk {
best_solution : Solution.t;
best_reward : Z;
best_stochastic_solution : Solution.t;
best_stochastic_reward : Q;
no_improvement_count : nat;
beta : Q;
improvements_count : nat;
elites : list Solution.t;
}.
End MultiStart.

Section multi_start.
(** [heuristic n] is the [n]-th call of the heuristic, [sims n] the draws of
  the [n]-th call of [stochastic_reward]. *)
Context (heuristic : nat → Q → Q → result Solution.t).
Context (sims : nat → nat → nat → nat → Q).
Context (ps : MultiStart.params).

(** The statements before the loop; also returns [alpha]. *)
Definition multi_start_init : result (MultiStart.t * Q) :=
'(solution, alpha) ← generate_greedy_solution heuristic;
best_solution ← of_option AttributeError solution;
alpha ← of_option AttributeError alpha;
sr ← stochastic_reward best_solution (MultiStart.short_simulation_n_iter ps) (sims 0);
Ok (MultiStart.mk best_solution (solution_reward best_solution) best_solution sr
      0 (MultiStart.beta_start ps) 0
      (deque_append (MultiStart.n_elites ps) [] best_solution),
    alpha).

(** The body of [for i in range(max_iter)]. *)
Definition multi_start_step (alpha : Q) (st : MultiStart.t) (i : nat)
  : result MultiStart.t :=
solution ← heuristic (21 + i) alpha (MultiStart.beta st);
let reward := solution_reward solution in
stochastic_reward ←
  stochastic_reward solution (MultiStart.short_simulation_n_iter ps) (sims (1 + i));
let '(bss, bsr, elites) :=
  if Qltb (MultiStart.best_stochastic_reward st) stochastic_reward
  then (solution, stochastic_reward,
        deque_append (MultiStart.n_elites ps) (MultiStart.elites st) solution)
  else (MultiStart.best_stochastic_solution st, MultiStart.best_stochastic_reward st,
        MultiStart.elites st) in
if (MultiStart.best_reward st <? reward)%Z then
  Ok (MultiStart.mk solution reward bss bsr (MultiStart.no_improvement_count st)
        (MultiStart.beta_start ps) (S (MultiStart.improvements_count st)) elites)
else
  let no_improvement_count := S (MultiStart.no_improvement_count st) in
  if MultiStart.enlarge_search_iter ps <? no_improvement_count then
    Ok (MultiStart.mk (MultiStart.best_solution st) (MultiStart.best_reward st) bss bsr
          0 (py_max (MultiStart.beta st - MultiStart.beta_step ps)
               (MultiStart.min_beta ps))
          (MultiStart.improvements_count st) elites)
  else
    Ok (MultiStart.mk (MultiStart.best_solution st) (MultiStart.best_reward st) bss bsr
          no_improvement_count (MultiStart.beta st)
          (MultiStart.improvements_count st) elites).

(** The first [n] iterations of the loop. *)
Definition multi_start_loop (alpha : Q) (st : MultiStart.t) (n : nat)
  : result MultiStart.t :=
foldM (multi_start_step alpha) st (seq 0 n).

(** The statements after the loop. *)
Definition multi_start_finish (st : MultiStart.t) : result (Solution.t * Solution.t) :=
best_stochastic_solution ←
  best_elite sims (MultiStart.long_simulation_n_iter ps)
    (1 + MultiStart.max_iter ps) (MultiStart.elites st);
Ok (MultiStart.best_solution st, best_stochastic_solution).

Definition multi_start_metaheuristic : result (Solution.t * Solution.t) :=
'(st, alpha) ← multi_start_init;
st ← multi_start_loop alpha st (MultiStart.max_iter ps);
multi_start_finish st.

(** [s] is the greedy solution or the solution built by one of the first [n]
  iterations of the loop started in [st0]. *)
Definition generated (st0 : MultiStart.t) (alpha : Q) (n : nat) (s : Solution.t)
  : Prop :=
s = MultiStart.best_solution st0 ∨
∃ i st, i < n ∧ multi_start_loop alpha st0 i = Ok st ∧
        heuristic (21 + i) alpha (MultiStart.beta st) = Ok s.
End multi_start.

(** Draws and simulated transit times for a short run on [ex_problem]. *)
Definition ex_draws (n k : nat) : Q := if Nat.even (n + k) then 1 # 3 else 9 # 10.

Definition ex_sims (c r t l : nat) : Q := inject_Z (Z.of_nat ((c + t) mod 4)).

(** Parameters for a short run on [ex_problem]. *)
Definition ex_params (n_elites : nat) : MultiStart.params :=
  MultiStart.mk_params 3 1 (9 # 10) (1 # 2) (1 # 10) n_elites 2 4.

Module LocalSearch.
(** The parameters of [local_search_metaheuritic]. *)
Record params : Type := mk_params {
max_iter : nat;
n_elites : nat;
short_simulation_n_iter : nat;
long_simulation_n_iter : nat;
}.

(** The random draws of one iteration: [random.randrange(0, 3)], the draws of
  the operator it selects, and [random.random()]. *)
Record draws : Type := mk_draws {
local_operator : nat;
k_route : nat;
k_idx : nat;
us : nat → Q;
random : Q;
}.

(** The variables of its loop that are read again ([best_stochastic] and
  [best_stochastic_solution] are only assigned). *)
Record t : Type := mk {
best_solution : Solution.t;
best_reward : Z;
best_stochastic_reward : Q;
base_solution : Solution.t;
base_reward : Z;
temperature : Q;
elites : list Solution.t;
}.
End LocalSearch.

Section local_search.
(** [exp] is [math.exp]; [greedy_draws n] are the draws of the [n]-th call of
  the savings heuristic in the greedy start, [rnd i] the draws of iteration
  [i], [sims 0] and [sims (1 + i)] those of the short simulations. *)
Context (p : Problem.t).
Context (exp : Q → Q).
Context (greedy_draws : nat → nat → Q).
Context (rnd : nat → LocalSearch.draws).
Context (sims : nat → nat → nat → nat → Q).
Context (ps : LocalSearch.params).

(** The statements before the loop; also returns [alpha]. *)
Definition local_search_init : result (LocalSearch.t * Q) :=
'(solution, alpha) ← generate_greedy_solution (savings_call p greedy_draws);
best_solution ← of_option AttributeError solution;
alpha ← of_option AttributeError alpha;
let best_reward := solution_reward best_solution in
sr ← stochastic_reward best_solution (LocalSearch.short_simulation_n_iter ps) (sims 0);
Ok (LocalSearch.mk best_solution best_reward sr best_solution best_reward 1000
      (deque_append (LocalSearch.n_elites ps) [] best_solution),
    alpha).

(** The operator drawn by an iteration, applied to the base solution. *)
Definition local_search_move (alpha : Q) (base_solution : Solution.t)
  (d : LocalSearch.draws) : result Solution.t :=
local_operator ← py_randrange (LocalSearch.local_operator d) 0 3;
match local_operator with
| 0 => remove p base_solution (LocalSearch.k_route d) (LocalSearch.k_idx d)
| 1 => insert p base_solution (LocalSearch.k_route d)
| _ => shaking p base_solution alpha (3 # 10) (LocalSearch.k_route d)
         (LocalSearch.us d)
end.

(** The body of [for i in range(max_iter)]. *)
Definition local_search_step (alpha : Q) (st : LocalSearch.t) (i : nat)
  : result LocalSearch.t :=
solution ← local_search_move alpha (LocalSearch.base_solution st) (rnd i);
let reward := solution_reward solution in
let temperature := (LocalSearch.temperature st * (999 # 1000))%Q in
if (LocalSearch.base_reward st <=? reward)%Z then
  stochastic_reward ←
    stochastic_reward solution (LocalSearch.short_simulation_n_iter ps)
      (sims (1 + i));
  let '(best_solution, best_reward) :=
    if (LocalSearch.best_reward st <? reward)%Z then (solution, reward)
    else (LocalSearch.best_solution st, LocalSearch.best_reward st) in
  let '(best_stochastic_reward, elites) :=
    if Qltb (LocalSearch.best_stochastic_reward st) stochastic_reward
    then (stochastic_reward,
          deque_append (LocalSearch.n_elites ps) (LocalSearch.elites st) solution)
    else (LocalSearch.best_stochastic_reward st, LocalSearch.elites st) in
  Ok (LocalSearch.mk best_solution best_reward best_stochastic_reward
        solution reward temperature elites)
else
  let update_prob :=
    exp (inject_Z (reward - LocalSearch.base_reward st)
         / LocalSearch.temperature st)%Q in
  let '(base_solution, base_reward) :=
    if Qltb (LocalSearch.random (rnd i)) update_prob then (solution, reward)
    else (LocalSearch.base_solution st, LocalSearch.base_reward st) in
  Ok (LocalSearch.mk (LocalSearch.best_solution st) (LocalSearch.best_reward st)
        (LocalSearch.best_stochastic_reward st) base_solution base_reward
        temperature (LocalSearch.elites st)).

(** The first [n] iterations of the loop. *)
Definition local_search_loop (alpha : Q) (st : LocalSearch.t) (n : nat)
  : result LocalSearch.t :=
foldM (local_search_step alpha) st (seq 0 n).

Definition local_search_metaheuritic : result (Solution.t * Solution.t) :=
'(st, alpha) ← local_search_init;
st ← local_search_loop alpha st (LocalSearch.max_iter ps);
best_stochastic_solution ←
  best_elite sims (LocalSearch.long_simulation_n_iter ps)
    (1 + LocalSearch.max_iter ps) (LocalSearch.elites st);
Ok (LocalSearch.best_solution st, best_stochastic_solution).

(** [s] is the greedy solution or the solution tried by one of the first [n]
  iterations of the loop started in [st0]. *)
Definition tried (st0 : LocalSearch.t) (alpha : Q) (n : nat) (s : Solution.t)
  : Prop :=
s = LocalSearch.best_solution st0 ∨
∃ i st, i < n ∧ local_search_loop alpha st0 i = Ok st ∧
        local_search_move alpha (LocalSearch.base_solution st) (rnd i) = Ok s.
End local_search.

(** Draws for a short run of the local search on [ex_problem], which removes
    and inserts in turn, and a rational function in the place of [math.exp]:
    1 at 0 and between 0 and 1 below. *)
Definition ex_rnd (i : nat) : LocalSearch.draws :=
  LocalSearch.mk_draws (i mod 2) i 0 (ex_draws i) (1 # 2).

Definition ex_exp (x : Q) : Q := (1 / (1 - x))%Q.

Definition ex_ls_params : LocalSearch.params := LocalSearch.mk_params 3 2 2 4.

(** * Properties *)

(** ** The error monad *)

Lemma bind_ok {A B} (m : result A) (f : A → result B) (b : B) :
  m ≫= f = Ok b ↔ ∃ a, m = Ok a ∧ f a = Ok b.
Proof.
  destruct m as [a|e]; simpl; split.
  - eauto.
  - by intros (a' & [= ->] & ?).
  - discriminate.
  - by intros (a' & ? & ?).
Qed.

Lemma bind_err {A B} (m : result A) (f : A → result B) (e : exn) :
  m ≫= f = Err e ↔ m = Err e ∨ ∃ a, m = Ok a ∧ f a = Err e.
Proof.
  destruct m as [a|e']; simpl; split.
  - intros; right; eauto.
  - by intros [?|(a' & [= ->] & ?)].
  - intros [= ->]; by left.
  - by intros [[= ->]|(a' & ? & ?)].
Qed.

Lemma of_option_ok {A} (e : exn) (o : option A) (a : A) :
  of_option e o = Ok a ↔ o = Some a.
Proof. destruct o; simpl; split; congruence. Qed.

Lemma of_option_err {A} (e e' : exn) (o : option A) :
  of_option e o = Err e' → e' = e ∧ o = None.
Proof. destruct o; simpl; [discriminate|]. by intros [= ->]. Qed.

(** Inversion of a hypothesis [... = Ok _] along the binds of the program. *)
Ltac ok_inv H :=
  repeat match type of H with
  | (_ ≫= _) = Ok _ =>
      let a := fresh "a" in let H1 := fresh "H" in
      apply bind_ok in H as (a & H1 & H)
  | mbind _ _ = Ok _ =>
      let a := fresh "a" in let H1 := fresh "H" in
      apply bind_ok in H as (a & H1 & H)
  | Ok _ = Ok _ => injection H as H
  | Err _ = Ok _ => discriminate H
  end.

Section foldM.
Context {A S : Type} (f : S → A → result S).

Lemma foldM_app (l1 l2 : list A) (s : S) :
  foldM f s (l1 ++ l2) = s' ← foldM f s l1; foldM f s' l2.
Proof.
  revert s; induction l1 as [|a l1 IH]; intros s; simpl; [done|].
  destruct (f s a); simpl; auto.
Qed.

(** An invariant kept by every successful iteration holds after the loop. *)
Lemma foldM_inv (I : S → Prop) (l : list A) (s s' : S) :
  (∀ s a s', a ∈ l → I s → f s a = Ok s' → I s') →
  I s → foldM f s l = Ok s' → I s'.
Proof.
  revert s; induction l as [|a l IH]; intros s Hstep Hs Hf; simpl in Hf.
  - by injection Hf as <-.
  - apply bind_ok in Hf as (s1 & H1 & Hf).
    apply (IH s1); [| |done].
    + intros ???? ; apply Hstep; by right.
    + eapply Hstep; [by left|done..].
Qed.

(** A loop whose iterations cannot fail on the invariant does not fail. *)
Lemma foldM_total (I : S → Prop) (l : list A) (s : S) :
  (∀ s a, a ∈ l → I s → ∃ s', f s a = Ok s' ∧ I s') →
  I s → ∃ s', foldM f s l = Ok s' ∧ I s'.
Proof.
  revert s; induction l as [|a l IH]; intros s Hstep Hs; simpl.
  - eauto.
  - destruct (Hstep s a) as (s1 & -> & Hs1); [by left|done|]. simpl.
    apply IH; [|done]. intros ????; apply Hstep; [by right|done].
Qed.

(** The loop raises only what its body raises. *)
Lemma foldM_err (E : exn → Prop) (l : list A) (s : S) (e : exn) :
  (∀ s a e, a ∈ l → f s a = Err e → E e) → foldM f s l = Err e → E e.
Proof.
  revert s; induction l as [|a l IH]; intros s Hstep Hf; simpl in Hf.
  - discriminate.
  - apply bind_err in Hf as [Hf|(s1 & H1 & Hf)].
    + eapply Hstep; [by left|done].
    + apply (IH s1); [|done]. intros ????; eapply Hstep; by right.
Qed.
End foldM.

(** ** Rational comparisons *)

Lemma Qltb_lt (x y : Q) : Qltb x y = true ↔ (x < y)%Q.
Proof.
  unfold Qltb. rewrite negb_true_iff, <- not_true_iff_false, Qle_bool_iff.
  split; [apply Qnot_le_lt|apply Qlt_not_le].
Qed.

Lemma Qltb_ge (x y : Q) : Qltb x y = false ↔ (y <= x)%Q.
Proof. unfold Qltb. by rewrite negb_false_iff, Qle_bool_iff. Qed.

Lemma Qle_bool_false (x y : Q) : Qle_bool x y = false ↔ (y < x)%Q.
Proof.
  rewrite <- not_true_iff_false, Qle_bool_iff.
  split; [apply Qnot_le_lt|apply Qlt_not_le].
Qed.

(** ** Ordered dictionaries *)

Section odict_facts.
Context {K V : Type} `{EqDecision K}.
Implicit Types (d : list (K * V)) (k : K) (v : V).

Lemma od_get_set d k k' v :
  od_get k' (od_set k v d) = if decide (k' = k) then Some v else od_get k' d.
Proof.
  induction d as [|[k0 v0] d IH]; simpl.
  - by repeat case_decide.
  - repeat (case_decide; simpl; subst); try done; by rewrite ?IH, ?decide_True, ?decide_False.
Qed.

Lemma od_get_elem_of d k v : od_get k d = Some v → (k, v) ∈ d.
Proof.
  induction d as [|[k0 v0] d IH]; simpl; [done|].
  case_decide; subst.
  - intros [= ->]. by left.
  - intros. right. auto.
Qed.

Lemma od_get_None d k : od_get k d = None ↔ k ∉ d.*1.
Proof.
  induction d as [|[k0 v0] d IH]; simpl.
  - split; [intros _; apply not_elem_of_nil|done].
  - rewrite not_elem_of_cons. case_decide; subst; [|tauto].
    split; [done|tauto].
Qed.

Lemma od_get_wf d k v : od_wf d → (k, v) ∈ d → od_get k d = Some v.
Proof.
  unfold od_wf. induction d as [|[k0 v0] d IH]; simpl.
  - by intros _ ?%elem_of_nil.
  - rewrite NoDup_cons. intros [Hk Hd] [[= -> ->]|Hin]%elem_of_cons.
    + by rewrite decide_True.
    + rewrite decide_False; [auto|]. intros ->. apply Hk.
      apply list_elem_of_fmap. by exists (k0, v).
Qed.

Lemma od_get_del d k k' :
  od_wf d → od_get k' (od_del k d) = if decide (k' = k) then None else od_get k' d.
Proof.
  unfold od_wf. induction d as [|[k0 v0] d IH]; simpl.
  - by case_decide.
  - rewrite NoDup_cons. intros [Hk Hd].
    destruct (decide (k = k0)) as [->|Hne]; simpl.
    + case_decide; subst; [by apply od_get_None|done].
    + rewrite IH by done. repeat case_decide; congruence.
Qed.

Lemma od_keys_set d k v :
  od_keys (od_set k v d) = if decide (k ∈ od_keys d) then od_keys d else od_keys d ++ [k].
Proof.
  unfold od_keys. induction d as [|[k0 v0] d IH]; csimpl; [done|].
  destruct (decide (k = k0)) as [->|Hne]; csimpl.
  - rewrite decide_True; [done|by left].
  - rewrite IH. destruct (decide (k ∈ d.*1)).
    + rewrite decide_True; [done|by right].
    + rewrite decide_False; [done|]. by intros [?|?]%elem_of_cons.
Qed.

Lemma od_keys_del d k : od_keys (od_del k d) `sublist_of` od_keys d.
Proof.
  unfold od_keys. induction d as [|[k0 v0] d IH]; csimpl; [done|].
  case_decide; csimpl; [by apply sublist_cons|by apply sublist_skip].
Qed.

Lemma od_wf_set d k v : od_wf d → od_wf (od_set k v d).
Proof.
  unfold od_wf. fold (od_keys d) (od_keys (od_set k v d)).
  rewrite od_keys_set. case_decide; [done|].
  intros Hd. apply NoDup_app. split_and!; [done| |apply NoDup_singleton].
  intros x Hx Hx'%list_elem_of_singleton. by subst.
Qed.

Lemma od_wf_del d k : od_wf d → od_wf (od_del k d).
Proof.
  unfold od_wf. fold (od_keys d) (od_keys (od_del k d)).
  intros Hd. eapply sublist_NoDup; [done|apply od_keys_del].
Qed.

Lemma od_set_length d k v : length d ≤ length (od_set k v d) ≤ S (length d).
Proof.
  induction d as [|[k0 v0] d IH]; simpl; [lia|]. case_decide; simpl; lia.
Qed.

Lemma od_elem_of_set d k v k' v' :
  (k', v') ∈ od_set k v d → (k' = k ∧ v' = v) ∨ (k', v') ∈ d.
Proof.
  induction d as [|[k0 v0] d IH]; simpl.
  - intros [= -> ->]%list_elem_of_singleton. by left.
  - case_decide; subst.
    + intros [[= -> ->]|?]%elem_of_cons; [by left|right; by right].
    + intros [[= -> ->]|?]%elem_of_cons; [right; by left|].
      destruct IH as [?|?]; [done|by left|right; by right].
Qed.


Lemma od_of_list_keys (l : list (K * V)) k :
  k ∈ od_keys (od_of_list l) → k ∈ l.*1.
Proof.
  unfold od_of_list. intros Hk.
  assert (∀ acc, k ∈ od_keys (foldl (λ d kv, od_set kv.1 kv.2 d) acc l) →
            k ∈ od_keys acc ∨ k ∈ l.*1) as Hgen.
  { clear Hk. induction l as [|[k0 v0] l IH]; intros acc; simpl; [by left|].
    intros [Hk|Hk]%IH; [|right; by right].
    rewrite od_keys_set in Hk. case_decide; [by left|].
    apply elem_of_app in Hk as [?|Hk%list_elem_of_singleton]; [by left|].
    subst. right; by left. }
  destruct (Hgen [] Hk) as [?%elem_of_nil|?]; done.
Qed.


Lemma od_of_list_elem_of (l : list (K * V)) kv : kv ∈ od_of_list l → kv ∈ l.
Proof.
  unfold od_of_list.
  assert (∀ acc, kv ∈ foldl (λ d kv, od_set kv.1 kv.2 d) acc l →
            kv ∈ acc ∨ kv ∈ l) as Hgen.
  { induction l as [|[k0 v0] l IH]; intros acc; simpl; [by left|].
    intros [Hk|Hk]%IH; [|right; by right].
    destruct kv as [k v]. apply od_elem_of_set in Hk as [[-> ->]|?]; [|by left].
    right; by left. }
  intros Hk. destruct (Hgen [] Hk) as [?%elem_of_nil|?]; done.
Qed.

Lemma od_of_list_wf (l : list (K * V)) : od_wf (od_of_list l).
Proof.
  unfold od_of_list.
  assert (∀ acc, od_wf acc → od_wf (foldl (λ d kv, od_set kv.1 kv.2 d) acc l)) as Hgen.
  { induction l as [|[k0 v0] l IH]; intros acc Hacc; simpl; [done|].
    by apply IH, od_wf_set. }
  apply Hgen, NoDup_nil_2.
Qed.
End odict_facts.

(** ** The biased-randomised selector *)

Section sort_facts.
Context {A : Type} (gt : A → A → bool).

Lemma insert_desc_Permutation (x : A) (l : list A) : insert_desc gt x l ≡ₚ x :: l.
Proof.
  induction l as [|y l IH]; simpl; [done|].
  destruct (gt y x); [|done]. by rewrite IH, Permutation_swap.
Qed.

Lemma sorted_desc_Permutation (l : list A) : sorted_desc gt l ≡ₚ l.
Proof.
  induction l as [|x l IH]; simpl; [done|].
  by rewrite insert_desc_Permutation, IH.
Qed.

Lemma sorted_desc_length (l : list A) : length (sorted_desc gt l) = length l.
Proof. by rewrite sorted_desc_Permutation. Qed.
End sort_facts.


Lemma int_log_base_zero (x : Q) : (0 < x)%Q → int_log x 0 = Err ValueError.
Proof.
  intros Hx. unfold int_log.
  destruct (Qle_bool x 0) eqn:E1; [done|]. done.
Qed.

Lemma py_pop_ok {A} (l : list A) (i : nat) :
  i < length l → ∃ x l', py_pop l i = Ok (x, l') ∧ l ≡ₚ x :: l' ∧ length l = S (length l').
Proof.
  intros Hi. unfold py_pop.
  destruct (lookup_lt_is_Some_2 l i Hi) as [x Hx]. rewrite Hx.
  exists x, (delete i l). split_and!; [done|by apply delete_Permutation|].
  rewrite length_delete by eauto. lia.
Qed.

Lemma py_pop_inv {A} (l : list A) (i : nat) (x : A) (l' : list A) :
  py_pop l i = Ok (x, l') → l !! i = Some x ∧ l' = delete i l.
Proof. unfold py_pop. destruct (l !! i); [|done]. by intros [= -> ->]. Qed.

Section bra_facts.
Context {A : Type} (value : A → Q).


Lemma bra_index_lt (beta u : Q) (n idx : nat) :
  bra_index beta u n = Ok idx → idx < n.
Proof.
  unfold bra_index. intros H. ok_inv H. case_decide; [done|].
  injection H as <-. pose proof (Z.mod_pos_bound a (Z.of_nat n)). lia.
Qed.


Lemma bra_next_inv (beta u : Q) (options options' : list A) (x : A) :
  bra_next beta u options = Ok (x, options') →
  options ≡ₚ x :: options' ∧ length options = S (length options').
Proof.
  unfold bra_next. intros H. ok_inv H.
  apply bra_index_lt in H0.
  destruct (py_pop_ok options a H0) as (x' & l' & Hp & ? & ?).
  rewrite Hp in H. by injection H as <- <-.
Qed.

End bra_facts.




(** ** The logarithm on rationals *)

Lemma Qpow_pos (b : Q) (n : nat) : (0 < b)%Q → (0 < Qpow b n)%Q.
Proof.
  intros Hb. induction n as [|n IH]; simpl; [reflexivity|].
  by apply Qmult_lt_0_compat.
Qed.

(** Bernoulli's inequality. *)
Lemma Qpow_bernoulli (b : Q) (n : nat) :
  (1 <= b)%Q → (1 + inject_Z (Z.of_nat n) * (b - 1) <= Qpow b n)%Q.
Proof.
  intros Hb. induction n as [|n IH].
  - change (inject_Z (Z.of_nat 0)) with 0%Q. simpl. lra.
  - rewrite Nat2Z.inj_succ. unfold Z.succ. rewrite inject_Z_plus.
    change (Qpow b (S n)) with (b * Qpow b n)%Q.
    assert (0 <= inject_Z (Z.of_nat n))%Q as Hn.
    { change 0%Q with (inject_Z 0). rewrite <- Zle_Qle. lia. }
    change (inject_Z 1) with 1%Q. set (t := inject_Z (Z.of_nat n)) in *.
    assert (0 <= (b - 1) * (Qpow b n - (1 + t * (b - 1))))%Q
      by (apply Qmult_le_0_compat; lra).
    assert (0 <= t * ((b - 1) * (b - 1)))%Q
      by (apply Qmult_le_0_compat; [done|apply Qmult_le_0_compat; lra]).
    lra.
Qed.

Lemma count_powers_spec (b x : Q) (fuel : nat) (acc : Q) :
  ∃ n, count_powers fuel b x acc = Z.of_nat n ∧ n ≤ fuel ∧
       (∀ i, i < n → (acc * Qpow b i <= x)%Q) ∧
       (n < fuel → (x < acc * Qpow b n)%Q).
Proof.
  revert acc. induction fuel as [|fuel IH]; intros acc; simpl.
  { exists 0. split_and!; [done|lia|lia|lia]. }
  destruct (Qle_bool acc x) eqn:Hle.
  - apply Qle_bool_iff in Hle.
    destruct (IH (acc * b)%Q) as (n & -> & Hn & Hlo & Hhi).
    exists (S n). split_and!; [lia|lia| |].
    + intros [|i] Hi; simpl; [lra|].
      specialize (Hlo i ltac:(lia)). by rewrite Qmult_assoc.
    + intros Hlt. simpl. rewrite Qmult_assoc. apply Hhi. lia.
  - apply Qle_bool_false in Hle.
    exists 0. split_and!; [done|lia|lia|]. intros _. simpl. lra.
Qed.

Lemma Qnum_upper (x : Q) : (1 <= x)%Q → (x <= inject_Z (Qnum x))%Q ∧ (1 <= Qnum x)%Z.
Proof.
  destruct x as [xn xd]. unfold Qle. simpl. intros H. split; nia.
Qed.

Lemma Qden_gap (b : Q) : (1 < b)%Q → (1 <= inject_Z (Z.pos (Qden b)) * (b - 1))%Q.
Proof.
  destruct b as [bn bd]. unfold Qlt, Qle. simpl. intros H. nia.
Qed.

(** [floor_log b x] is the integer part of the logarithm of [x] in base [b]. *)
Lemma floor_log_spec (b x : Q) :
  (1 < b)%Q → (1 <= x)%Q →
  ∃ n, floor_log b x = Z.of_nat n ∧ (Qpow b n <= x)%Q ∧ (x < Qpow b (S n))%Q.
Proof.
  intros Hb Hx. unfold floor_log.
  set (fuel := Z.to_nat (Z.pos (Qden b) * Qnum x)).
  destruct (count_powers_spec b x fuel b) as (n & Hn & Hle & Hlo & Hhi).
  exists n. split_and!; [done| |].
  - destruct n as [|n]; simpl; [lra|]. apply Hlo. lia.
  - destruct (decide (n < fuel)) as [Hlt|Hge]; [by apply Hhi|].
    assert (n = fuel) as -> by lia. exfalso.
    destruct (Qnum_upper x Hx) as [Hxn Hn1]. pose proof (Qden_gap b Hb) as Hgap.
    assert (inject_Z (Z.of_nat fuel)
            == inject_Z (Qnum x) * inject_Z (Z.pos (Qden b)))%Q as Hfuel.
    { unfold fuel. rewrite Z2Nat.id by lia. rewrite <- inject_Z_mult.
      by rewrite Z.mul_comm. }
    assert (0 < fuel) as Hpos by (unfold fuel; lia).
    destruct fuel as [|f]; [lia|].
    specialize (Hlo f ltac:(lia)). change (b * Qpow b f)%Q with (Qpow b (S f)) in Hlo.
    pose proof (Qpow_bernoulli b (S f) ltac:(lra)) as Hbern.
    assert (1 <= inject_Z (Qnum x))%Q as Hxn1 by lra.
    assert (inject_Z (Qnum x) * 1
            <= inject_Z (Qnum x) * (inject_Z (Z.pos (Qden b)) * (b - 1)))%Q as Hmul.
    { apply Qmult_le_l; [lra|done]. }
    rewrite Hfuel in Hbern. lra.
Qed.

Lemma Qpow_inv (b : Q) (n : nat) : (Qpow (/ b) n == / Qpow b n)%Q.
Proof.
  induction n as [|n IH]; simpl; [reflexivity|].
  by rewrite Qinv_mult_distr, IH.
Qed.

Lemma Qinv_gt_1 (x : Q) : (0 < x < 1)%Q → (1 < / x)%Q.
Proof.
  intros [H0 H1]. change 1%Q with (/ 1)%Q at 1.
  by apply -> Qinv_lt_contravar.
Qed.

(** On the arguments [bra_selector] gives it, a draw [u] and a base
    [1 - beta], both strictly between 0 and 1, [int(math.log(u, 1 - beta))]
    is the [n] with [(1 - beta)^(n+1) < u <= (1 - beta)^n]. *)
Lemma int_log_floor (u base : Q) :
  (0 < u < 1)%Q → (0 < base < 1)%Q →
  ∃ n, int_log u base = Ok (Z.of_nat n) ∧
       (Qpow base (S n) < u)%Q ∧ (u <= Qpow base n)%Q.
Proof.
  intros Hu Hb. unfold int_log.
  destruct (Qle_bool u 0) eqn:E1; [apply Qle_bool_iff in E1; lra|].
  destruct (Qle_bool base 0) eqn:E2; [apply Qle_bool_iff in E2; lra|].
  destruct (Qeq_bool base 1) eqn:E3; [apply Qeq_bool_iff in E3; lra|].
  destruct (Qle_bool 1 u) eqn:E4; [apply Qle_bool_iff in E4; lra|].
  destruct (Qle_bool 1 base) eqn:E5; [apply Qle_bool_iff in E5; lra|].
  simpl.
  destruct (floor_log_spec (/ base) (/ u)) as (n & -> & Hlo & Hhi).
  { by apply Qinv_gt_1. }
  { apply Qlt_le_weak. by apply Qinv_gt_1. }
  exists n. split; [done|].
  rewrite Qpow_inv in Hlo, Hhi.
  assert (0 < Qpow base n)%Q as Hn by (apply Qpow_pos; lra).
  assert (0 < Qpow base (S n))%Q as HSn by (apply Qpow_pos; lra).
  destruct Hu as [Hu0 Hu1]. split.
  - by apply (proj2 (Qinv_lt_contravar _ _ HSn Hu0)).
  - apply Qnot_lt_le. intros Hlt.
    apply (proj1 (Qinv_lt_contravar _ _ Hn Hu0)) in Hlt. lra.
Qed.

(** ** Merging singleton routes *)


(** ** The stochastic evaluator *)

Lemma feasible_route_count_le (tmax : Q) (rows : list (list Q)) :
  feasible_route_count tmax rows ≤ length rows.
Proof. unfold feasible_route_count. apply length_filter. Qed.

Lemma feasible_route_count_trials (p : Problem.t) (route : Route.t) (n_iter : nat)
    (sim : nat → nat → Q) :
  feasible_route_count (Problem.tmax p)
    (map (λ t, map (sim t) (seq 0 (length (Route.customers route) - 1))) (seq 0 n_iter))
  = length (feasible_trials p route n_iter sim).
Proof.
  unfold feasible_route_count, feasible_trials.
  induction (seq 0 n_iter) as [|t l IH]; [done|].
  simpl. rewrite !filter_cons. case_decide; simpl; by rewrite IH.
Qed.

(** C9 -- the value returned by the stochastic evaluator is the route's reward
    times the fraction of the [n_iter] simulated trials whose summed travel
    time is within [tmax]; with a non-negative reward it lies between 0 and
    the deterministic reward, whatever the draws. *)
Theorem stochastic_reward_bounds (p : Problem.t) (route : Route.t) (n_iter : nat)
    (sim : nat → nat → Q) (v : Q) :
  (0 ≤ Route.reward route)%Z → 1 ≤ n_iter →
  get_route_stochastic_reward p route n_iter sim = Ok v →
  v = (inject_Z (Route.reward route)
       * (inject_Z (Z.of_nat (length (feasible_trials p route n_iter sim)))
          / inject_Z (Z.of_nat n_iter)))%Q ∧
  length (feasible_trials p route n_iter sim) ≤ n_iter ∧
  (0 <= v)%Q ∧ (v <= inject_Z (Route.reward route))%Q.
Proof.
  intros Hr Hn H. unfold get_route_stochastic_reward in H. ok_inv H.
  rewrite feasible_route_count_trials in H. subst v.
  set (c := length (feasible_trials p route n_iter sim)).
  assert (c ≤ n_iter) as Hc.
  { unfold c, feasible_trials. etrans; [apply length_filter|]. by rewrite length_seq. }
  assert (0 <= inject_Z (Route.reward route))%Q as Hr'.
  { change 0%Q with (inject_Z 0). by rewrite <- Zle_Qle. }
  assert (0 < inject_Z (Z.of_nat n_iter))%Q as Hn'.
  { change 0%Q with (inject_Z 0). rewrite <- Zlt_Qlt. lia. }
  assert (0 <= inject_Z (Z.of_nat c) / inject_Z (Z.of_nat n_iter))%Q as Hlo.
  { apply Qle_shift_div_l; [done|]. rewrite Qmult_0_l.
    change 0%Q with (inject_Z 0). rewrite <- Zle_Qle. lia. }
  assert (inject_Z (Z.of_nat c) / inject_Z (Z.of_nat n_iter) <= 1)%Q as Hhi.
  { apply Qle_shift_div_r; [done|]. rewrite Qmult_1_l, <- Zle_Qle. lia. }
  split_and!; [done|done|nra..].
Qed.

(** ** Legs and path lengths *)

Lemma dist_ok (p : Problem.t) (i j : nat) (d : Q) :
  dist p i j = Ok d ↔ od_get (i, j) (Problem.dists p) = Some d.
Proof. unfold dist, od_lookup. apply of_option_ok. Qed.

Lemma dist_dq (p : Problem.t) (i j : nat) (d : Q) : dist p i j = Ok d → dq p (i, j) = d.
Proof. rewrite dist_ok. unfold dq. by intros ->. Qed.

Lemma dist_err (p : Problem.t) (i j : nat) (e : exn) : dist p i j = Err e → e = KeyError.
Proof. unfold dist, od_lookup. by intros [? _]%of_option_err. Qed.

Lemma symmetric_dq (p : Problem.t) (i j : nat) :
  symmetric p → (dq p (j, i) == dq p (i, j))%Q.
Proof.
  intros Hsym. unfold dq.
  destruct (od_get (i, j) _) as [d|] eqn:Hij.
  - apply dist_ok, Hsym in Hij as (d' & Hji%dist_ok & Hd). by rewrite Hji.
  - destruct (od_get (j, i) _) as [d|] eqn:Hji; [|done].
    apply dist_ok, Hsym in Hji as (d' & Hij'%dist_ok & Hd). congruence.
Qed.

Lemma symmetric_defined (p : Problem.t) (i j : nat) :
  symmetric p → is_Some (od_get (i, j) (Problem.dists p)) →
  is_Some (od_get (j, i) (Problem.dists p)).
Proof. intros Hsym [d Hd]. apply dist_ok, Hsym in Hd as (d' & Hd'%dist_ok & _). eauto. Qed.

Section legs.
Context {A : Type}.
Implicit Types l : list A.

Lemma legs_cons_cons (x y : A) l : legs (x :: y :: l) = (x, y) :: legs (y :: l).
Proof. done. Qed.

Lemma legs_singleton (x : A) : legs [x] = [].
Proof. done. Qed.

Lemma legs_app l1 l2 (x y : A) :
  last l1 = Some x → head l2 = Some y →
  legs (l1 ++ l2) = legs l1 ++ (x, y) :: legs l2.
Proof.
  intros Hx Hy. destruct l2 as [|y' l2]; [done|]. injection Hy as ->.
  induction l1 as [|a [|b l1] IH]; [done|..].
  - by injection Hx as ->.
  - rewrite last_cons_cons in Hx.
    change ((a :: b :: l1) ++ y :: l2) with (a :: b :: (l1 ++ y :: l2)).
    rewrite !legs_cons_cons. simpl. f_equal. by apply IH.
Qed.

Lemma legs_app3 l1 l2 l3 (a b c d : A) :
  last l1 = Some a → head l2 = Some b → last l2 = Some c → head l3 = Some d →
  legs (l1 ++ l2 ++ l3) = legs l1 ++ (a, b) :: legs l2 ++ (c, d) :: legs l3.
Proof.
  intros Ha Hb Hc Hd.
  rewrite (legs_app l1 (l2 ++ l3) a b), (legs_app l2 l3 c d); try done.
  rewrite head_app, Hb. done.
Qed.

Lemma legs_reverse l : legs (reverse l) = reverse (prod_swap <$> legs l).
Proof.
  induction l as [|x [|y l] IH]; [done..|].
  rewrite legs_cons_cons, fmap_cons, !reverse_cons, <- IH. simpl.
  rewrite (reverse_cons l y).
  rewrite (legs_app (reverse l ++ [y]) [x] y x); [by rewrite legs_singleton| |done].
  apply last_snoc.
Qed.

Lemma reverse_slice_split (i j : nat) l :
  i ≤ j → l = take i l ++ take (j - i) (drop i l) ++ drop j l.
Proof.
  intros Hij. rewrite <- (take_drop i l) at 1. f_equal.
  rewrite <- (take_drop (j - i) (drop i l)) at 1. f_equal.
  rewrite drop_drop. f_equal. lia.
Qed.

Lemma reverse_slice_Permutation (i j : nat) l : i ≤ j → reverse_slice i j l ≡ₚ l.
Proof.
  intros Hij. rewrite (reverse_slice_split i j l Hij) at 2.
  unfold reverse_slice. by rewrite reverse_Permutation.
Qed.

Lemma reverse_slice_length (i j : nat) l :
  i ≤ j → length (reverse_slice i j l) = length l.
Proof. intros. by rewrite reverse_slice_Permutation. Qed.

Lemma reverse_slice_head (i j : nat) l : 1 ≤ i → head (reverse_slice i j l) = head l.
Proof.
  intros Hi. unfold reverse_slice.
  destruct l as [|x l]; [by rewrite take_nil, !drop_nil, take_nil|].
  destruct i; [lia|]. done.
Qed.

Lemma reverse_slice_last (i j : nat) l :
  i ≤ j → j < length l → last (reverse_slice i j l) = last l.
Proof.
  intros Hij Hj. rewrite (reverse_slice_split i j l Hij) at 2.
  unfold reverse_slice.
  assert (drop j l ≠ []) as Hne.
  { intros Hnil%(f_equal length). rewrite length_drop in Hnil. simpl in Hnil. lia. }
  rewrite !app_assoc, !last_app.
  destruct (last (drop j l)) eqn:Hlast; [done|]. by apply last_None in Hlast.
Qed.

(** The legs of a sequence and of the same sequence with [l[i:j]] reversed. *)
Lemma legs_reverse_slice (i j : nat) l (a b c d : A) :
  1 ≤ i → i + 2 ≤ j →
  l !! (i - 1) = Some a → l !! i = Some b → l !! (j - 1) = Some c → l !! j = Some d →
  let seg := take (j - i) (drop i l) in
  legs l = legs (take i l) ++ (a, b) :: legs seg ++ (c, d) :: legs (drop j l) ∧
  legs (reverse_slice i j l)
  = legs (take i l) ++ (a, c) :: legs (reverse seg) ++ (b, d) :: legs (drop j l).
Proof.
  intros Hi Hij Ha Hb Hc Hd seg.
  assert (j < length l) as Hj by by eapply lookup_lt_Some.
  assert (last (take i l) = Some a) as Hla.
  { rewrite last_lookup, length_take_le by lia.
    rewrite lookup_take_lt by lia. by replace (pred i) with (i - 1) by lia. }
  assert (head seg = Some b) as Hhb.
  { unfold seg. rewrite head_lookup, lookup_take_lt by lia.
    rewrite lookup_drop. by replace (i + 0) with i by lia. }
  assert (last seg = Some c) as Hlc.
  { unfold seg. rewrite last_lookup, length_take_le by (rewrite length_drop; lia).
    rewrite lookup_take_lt by lia. rewrite lookup_drop.
    by replace (i + pred (j - i)) with (j - 1) by lia. }
  assert (head (drop j l) = Some d) as Hhd.
  { rewrite head_lookup, lookup_drop. by replace (j + 0) with j by lia. }
  split.
  - rewrite (reverse_slice_split i j l) at 1 by lia. by apply legs_app3.
  - unfold reverse_slice. fold seg.
    apply legs_app3; [done| | |done].
    + by rewrite head_reverse.
    + by rewrite last_reverse.
Qed.
End legs.

Lemma Qsum_app (l1 l2 : list Q) : (Qsum (l1 ++ l2) == Qsum l1 + Qsum l2)%Q.
Proof. induction l1 as [|x l1 IH]; simpl; [lra|]. rewrite IH. lra. Qed.

Lemma Qsum_reverse (l : list Q) : (Qsum (reverse l) == Qsum l)%Q.
Proof.
  induction l as [|x l IH]; [done|].
  rewrite reverse_cons, Qsum_app, IH. simpl. lra.
Qed.

Lemma path_length_reverse (p : Problem.t) (l : list nat) :
  symmetric p → (path_length p (reverse l) == path_length p l)%Q.
Proof.
  intros Hsym. unfold path_length. rewrite legs_reverse.
  induction (legs l) as [|[x y] L IH]; [done|].
  rewrite fmap_cons, reverse_cons, map_app, Qsum_app, IH. simpl.
  rewrite (symmetric_dq p x y) by done. lra.
Qed.

Lemma legs_defined_reverse (p : Problem.t) (l : list nat) :
  symmetric p → legs_defined p l → legs_defined p (reverse l).
Proof.
  intros Hsym Hl [x y]. rewrite legs_reverse, elem_of_reverse.
  intros ([y' x'] & [= -> ->] & Hin)%list_elem_of_fmap.
  apply symmetric_defined; [done|]. by apply Hl.
Qed.

(** [legs_length] succeeds exactly where every leg is in the table, and then
    returns the path length. *)
Lemma legs_length_ok (p : Problem.t) (l : list nat) (t : Q) :
  legs_length p l = Ok t → legs_defined p l ∧ (t == path_length p l)%Q.
Proof.
  unfold legs_length, legs_defined, path_length.
  assert (∀ L acc t,
    foldM (λ acc ij, d ← dist p ij.1 ij.2; Ok (acc + d)%Q) acc L = Ok t →
    (∀ ij, ij ∈ L → is_Some (od_get ij (Problem.dists p))) ∧
    (t == acc + Qsum (map (dq p) L))%Q) as Hgen.
  { induction L as [|[x y] L IH]; intros acc t' H; simpl in H.
    - injection H as <-. split; [by intros ? ?%elem_of_nil|simpl; lra].
    - apply bind_ok in H as (acc' & Hacc & H).
      apply bind_ok in Hacc as (d & Hd & Hacc). injection Hacc as <-.
      apply IH in H as [Hdef Ht]. simpl in Hd.
      apply dist_ok in Hd as Hg. apply dist_dq in Hd.
      split.
      + intros ij [->|?]%elem_of_cons; [by rewrite Hg|auto].
      + simpl. rewrite Ht, Hd. lra. }
  intros [Hdef Ht]%Hgen. split; [done|]. rewrite Ht. lra.
Qed.

Lemma legs_length_defined (p : Problem.t) (l : list nat) :
  legs_defined p l → ∃ t, legs_length p l = Ok t.
Proof.
  unfold legs_length, legs_defined. generalize 0%Q.
  induction (legs l) as [|[x y] L IH]; intros acc Hdef; simpl; [eauto|].
  destruct (Hdef (x, y)) as [d Hd]; [by left|].
  apply dist_ok in Hd. rewrite Hd. simpl. apply IH. intros ??; apply Hdef; by right.
Qed.

(** ** 2-opt *)

Lemma py_index_ok {A} (l : list A) (i : nat) (x : A) :
  py_index l i = Ok x ↔ l !! i = Some x.
Proof. apply of_option_ok. Qed.

Lemma py_index_err {A} (l : list A) (i : nat) (e : exn) :
  py_index l i = Err e → e = IndexError ∧ length l ≤ i.
Proof. intros [-> ?%lookup_ge_None]%of_option_err. done. Qed.

Lemma opt2_step_inv (p : Problem.t) (i j : nat) (cs : list nat) (len : Q) (imp : bool)
    (st' : list nat * Q * bool) :
  opt2_step p i j (cs, len, imp) = Ok st' →
  ∃ a b c d d_ab d_cd d_ac d_bd,
    cs !! (i - 1) = Some a ∧ cs !! i = Some b ∧
    cs !! (j - 1) = Some c ∧ cs !! j = Some d ∧
    dist p a b = Ok d_ab ∧ dist p c d = Ok d_cd ∧
    dist p a c = Ok d_ac ∧ dist p b d = Ok d_bd ∧
    ((d_ab + d_cd <= d_ac + d_bd)%Q ∧ st' = (cs, len, imp) ∨
     (d_ac + d_bd < d_ab + d_cd)%Q ∧
     st' = (reverse_slice i j cs, (len - (d_ab + d_cd) + (d_ac + d_bd))%Q, true)).
Proof.
  unfold opt2_step. intros H.
  apply bind_ok in H as (a & Ha%py_index_ok & H).
  apply bind_ok in H as (b & Hb%py_index_ok & H).
  apply bind_ok in H as (d_ab & Hab & H).
  apply bind_ok in H as (c & Hc%py_index_ok & H).
  apply bind_ok in H as (d & Hd%py_index_ok & H).
  apply bind_ok in H as (d_cd & Hcd & H).
  apply bind_ok in H as (d_ac & Hac & H).
  apply bind_ok in H as (d_bd & Hbd & H).
  exists a, b, c, d, d_ab, d_cd, d_ac, d_bd. split_and!; try done.
  destruct (Qltb _ _) eqn:Hlt.
  - apply Qltb_lt in Hlt. injection H as <-. by right.
  - apply Qltb_ge in Hlt. injection H as <-. by left.
Qed.

Lemma opt2_step_err (p : Problem.t) (i j : nat) (st : list nat * Q * bool) (e : exn) :
  opt2_step p i j st = Err e → e ≠ OutOfFuel.
Proof.
  destruct st as [[cs len] imp]. unfold opt2_step. intros H.
  repeat (apply bind_err in H as [H|(? & _ & H)];
          [first [by apply py_index_err in H as [-> _]|by apply dist_err in H as ->]|]).
  by destruct (Qltb _ _).
Qed.

Lemma opt2_rel_refl (p : Problem.t) (st : list nat * Q * bool) : opt2_rel p st st.
Proof.
  destruct st as [[cs len] imp]. simpl.
  split_and!; try done; by left.
Qed.

Lemma opt2_rel_trans (p : Problem.t) (st1 st2 st3 : list nat * Q * bool) :
  opt2_rel p st1 st2 → opt2_rel p st2 st3 → opt2_rel p st1 st3.
Proof.
  destruct st1 as [[cs1 len1] imp1], st2 as [[cs2 len2] imp2], st3 as [[cs3 len3] imp3].
  simpl. intros (Hl1 & Hp1 & Hh1 & Ht1 & Hs1 & Hm1) (Hl2 & Hp2 & Hh2 & Ht2 & Hs2 & Hm2).
  split_and!; try congruence.
  - by rewrite Hp2.
  - destruct Hs1 as [[= -> -> ->]|[-> Hlt1]], Hs2 as [[= -> -> ->]|[-> Hlt2]];
      [by left|right..]; split; try done. lra.
  - intros Hsym. destruct (Hm1 Hsym) as [Ho1 Hd1], (Hm2 Hsym) as [Ho2 Hd2].
    split; [lra|auto].
Qed.

Lemma opt2_step_rel (p : Problem.t) (i j : nat) (st st' : list nat * Q * bool) :
  1 ≤ i → i + 2 ≤ j →
  opt2_step p i j st = Ok st' → opt2_rel p st st'.
Proof.
  destruct st as [[cs len] imp]. intros Hi Hij H.
  apply opt2_step_inv in H
    as (a & b & c & d & d_ab & d_cd & d_ac & d_bd & Ha & Hb & Hc & Hd
        & Hab & Hcd & Hac & Hbd & [[Hle ->]|[Hlt ->]]).
  { apply opt2_rel_refl. }
  assert (j < length cs) as Hj by by eapply lookup_lt_Some.
  simpl. split_and!.
  - apply reverse_slice_length. lia.
  - apply reverse_slice_Permutation. lia.
  - by apply reverse_slice_head.
  - apply reverse_slice_last; lia.
  - right. split; [done|lra].
  - intros Hsym.
    destruct (legs_reverse_slice i j cs a b c d Hi Hij Ha Hb Hc Hd) as [Hlegs Hlegs'].
    split.
    + unfold path_length. rewrite Hlegs, Hlegs'.
      rewrite !map_app, !Qsum_app. simpl. rewrite !map_app, !Qsum_app. simpl.
      pose proof (path_length_reverse p (take (j - i) (drop i cs)) Hsym) as Hrev.
      unfold path_length in Hrev. rewrite Hrev.
      rewrite (dist_dq _ _ _ _ Hab), (dist_dq _ _ _ _ Hcd),
        (dist_dq _ _ _ _ Hac), (dist_dq _ _ _ _ Hbd). lra.
    + unfold legs_defined. rewrite Hlegs, Hlegs'. intros Hdef ij.
      rewrite elem_of_app, elem_of_cons, elem_of_app, elem_of_cons.
      intros [?|[->|[Hin|[->|?]]]].
      * apply Hdef. rewrite elem_of_app. by left.
      * apply dist_ok in Hac. by rewrite Hac.
      * apply (legs_defined_reverse p (take (j - i) (drop i cs))); [done| |done].
        intros ij' Hij'. apply Hdef.
        rewrite elem_of_app, elem_of_cons, elem_of_app. right; right; by left.
      * apply dist_ok in Hbd. by rewrite Hbd.
      * apply Hdef.
        rewrite elem_of_app, elem_of_cons, elem_of_app, elem_of_cons. by (do 4 right).
Qed.

Lemma opt2_rel_length (p : Problem.t) (st st' : list nat * Q * bool) :
  opt2_rel p st st' → length st'.1.1 = length st.1.1.
Proof. destruct st as [[??]?], st' as [[??]?]. simpl. tauto. Qed.

Lemma opt2_row_rel (p : Problem.t) (n i : nat) (st st' : list nat * Q * bool) :
  1 ≤ i → opt2_row p n i st = Ok st' → opt2_rel p st st'.
Proof.
  intros Hi. unfold opt2_row.
  apply (foldM_inv _ (opt2_rel p st)); [|apply opt2_rel_refl].
  intros s j s' [Hj _]%elem_of_seq Hs Hstep.
  eapply opt2_rel_trans; [done|]. by apply (opt2_step_rel p i j).
Qed.

Lemma opt2_sweep_rel (p : Problem.t) (n : nat) (st st' : list nat * Q * bool) :
  opt2_sweep p n st = Ok st' → opt2_rel p st st'.
Proof.
  unfold opt2_sweep.
  apply (foldM_inv _ (opt2_rel p st)); [|apply opt2_rel_refl].
  intros s i s' [Hi _]%elem_of_seq Hs Hstep.
  eapply opt2_rel_trans; [done|]. by apply (opt2_row_rel p n i).
Qed.

Lemma opt2_sweep_err (p : Problem.t) (n : nat) (st : list nat * Q * bool) (e : exn) :
  opt2_sweep p n st = Err e → e ≠ OutOfFuel.
Proof.
  unfold opt2_sweep. apply (foldM_err _ (λ e, e ≠ OutOfFuel)).
  intros s i e' _. unfold opt2_row.
  apply (foldM_err _ (λ e, e ≠ OutOfFuel)). intros s' j e'' _. apply opt2_step_err.
Qed.

(** What [opt2_loop] returns, whatever the table. *)
Lemma opt2_loop_rel (p : Problem.t) (fuel : nat) (cs : list nat) (len : Q)
    (cs' : list nat) (len' : Q) :
  opt2_loop fuel p cs len = Ok (cs', len') →
  ∃ imp, opt2_rel p (cs, len, false) (cs', len', imp).
Proof.
  revert cs len. induction fuel as [|fuel IH]; intros cs len H; simpl in H; [done|].
  apply bind_ok in H as ([[cs1 len1] imp1] & Hsweep%opt2_sweep_rel & H).
  destruct imp1.
  - apply IH in H as [imp H]. exists true.
    eapply opt2_rel_trans; [done|].
    simpl in *. destruct H as (? & ? & ? & ? & Hs & ?). split_and!; try done.
    destruct Hs as [[= -> -> _]|[_ ?]]; [by left|by right].
  - injection H as <- <-. by exists false.
Qed.

(** *** Termination: arrangements do not repeat *)

Lemma interleave_length {A} (x : A) (l : list A) : length (interleave x l) = S (length l).
Proof. induction l as [|y l IH]; simpl; [done|]. by rewrite length_fmap, IH. Qed.

Lemma bind_length_const {A B} (f : A → list B) (L : list A) (m : nat) :
  (∀ y, y ∈ L → length (f y) = m) → length (L ≫= f) = length L * m.
Proof.
  induction L as [|y L IH]; intros Hf; [done|].
  rewrite bind_cons, length_app, Hf, IH; [simpl; lia| |by left].
  intros ??; apply Hf; by right.
Qed.

Lemma permutations_length {A} (l : list A) : length (permutations l) = fact (length l).
Proof.
  induction l as [|x l IH]; [done|]. simpl permutations.
  rewrite (bind_length_const _ _ (S (length l))), IH; [simpl; lia|].
  intros y Hy%permutations_Permutation. by rewrite interleave_length, <- Hy.
Qed.

Lemma arrangements_bound {A} (l : list A) (seen : list (list A)) :
  NoDup seen → (∀ x, x ∈ seen → x ≡ₚ l) → length seen ≤ fact (length l).
Proof.
  intros Hnd Hperm. rewrite <- permutations_length.
  apply submseteq_length, NoDup_submseteq; [done|].
  intros x Hx. by apply permutations_Permutation, symmetry, Hperm.
Qed.

Lemma opt2_loop_fuel (p : Problem.t) (cs0 : list nat) :
  symmetric p →
  ∀ (fuel : nat) (seen : list (list nat)) (cs : list nat) (len : Q),
    cs ≡ₚ cs0 → NoDup seen →
    (∀ x, x ∈ seen → x ≡ₚ cs0 ∧ (path_length p cs < path_length p x)%Q) →
    fact (length cs0) ≤ length seen + fuel →
    opt2_loop fuel p cs len ≠ Err OutOfFuel.
Proof.
  intros Hsym. induction fuel as [|fuel IH]; intros seen cs len Hcs Hnd Hseen Hfuel.
  - exfalso.
    assert (length (cs :: seen) ≤ fact (length cs0)) as Hb; [|simpl in Hb; lia].
    apply arrangements_bound.
    + apply NoDup_cons. split; [|done].
      intros [_ Hlt]%Hseen. by apply Qlt_irrefl in Hlt.
    + intros x [->|Hx]%elem_of_cons; [done|]. by apply Hseen.
  - simpl. destruct (opt2_sweep p (length cs) (cs, len, false))
      as [[[cs1 len1] imp1]|e] eqn:Hsw; simpl.
    2:{ intros [= ->]. by apply opt2_sweep_err in Hsw. }
    destruct imp1; [|done].
    apply opt2_sweep_rel in Hsw as (_ & Hp1 & _ & _ & Hstrict & Hm).
    destruct Hstrict as [[=]|[_ Hlt]]. destruct (Hm Hsym) as [Hoff _].
    assert (path_length p cs1 < path_length p cs)%Q as Hdec by lra.
    apply (IH (cs :: seen)).
    + by rewrite Hp1.
    + apply NoDup_cons. split; [|done].
      intros [_ Hlt']%Hseen. by apply Qlt_irrefl in Hlt'.
    + intros x [->|Hx]%elem_of_cons; [done|].
      destruct (Hseen x Hx) as [? ?]. split; [done|lra].
    + simpl. lia.
Qed.

(** [opt2] always comes to an end on a symmetric table. *)
Lemma opt2_terminates (p : Problem.t) (route : Route.t) :
  symmetric p → opt2 p route ≠ Err OutOfFuel.
Proof.
  intros Hsym. unfold opt2.
  destruct (opt2_loop _ p _ _) as [[cs len]|e] eqn:Hloop; simpl; [done|].
  intros [= ->]. revert Hloop.
  apply (opt2_loop_fuel p (Route.customers route) Hsym _ []);
    [done|apply NoDup_nil_2|by intros x ?%elem_of_nil|simpl; lia].
Qed.

(** *** No exception on a full table *)

Lemma opt2_step_total (p : Problem.t) (cs0 : list nat) (i j : nat)
    (cs : list nat) (len : Q) (imp : bool) :
  covers p cs0 → NoDup cs0 → cs ≡ₚ cs0 →
  1 ≤ i → i + 2 ≤ j → j < length cs →
  ∃ st', opt2_step p i j (cs, len, imp) = Ok st'.
Proof.
  intros Hcov Hnd Hcs Hi Hij Hj.
  destruct (lookup_lt_is_Some_2 cs (i - 1)) as [a Ha]; [lia|].
  destruct (lookup_lt_is_Some_2 cs i) as [b Hb]; [lia|].
  destruct (lookup_lt_is_Some_2 cs (j - 1)) as [c Hc]; [lia|].
  destruct (lookup_lt_is_Some_2 cs j) as [d Hd]; [lia|].
  assert (NoDup cs) as Hnd' by by rewrite Hcs.
  assert (∀ k k' x y, cs !! k = Some x → cs !! k' = Some y → k ≠ k' →
            ∃ dxy, dist p x y = Ok dxy) as Hdist.
  { intros k k' x y Hx Hy Hne. apply Hcov.
    - rewrite <- Hcs. by eapply list_elem_of_lookup_2.
    - rewrite <- Hcs. by eapply list_elem_of_lookup_2.
    - intros ->. apply Hne. by eapply NoDup_lookup. }
  destruct (Hdist _ _ _ _ Ha Hb) as [d_ab Hab]; [lia|].
  destruct (Hdist _ _ _ _ Hc Hd) as [d_cd Hcd]; [lia|].
  destruct (Hdist _ _ _ _ Ha Hc) as [d_ac Hac]; [lia|].
  destruct (Hdist _ _ _ _ Hb Hd) as [d_bd Hbd]; [lia|].
  unfold opt2_step, py_index. rewrite Ha, Hb. simpl. rewrite Hab. simpl.
  rewrite Hc, Hd. simpl. rewrite Hcd. simpl. rewrite Hac. simpl. rewrite Hbd. simpl.
  destruct (Qltb _ _); eauto.
Qed.

Lemma opt2_row_total (p : Problem.t) (cs0 : list nat) (i : nat)
    (st : list nat * Q * bool) :
  covers p cs0 → NoDup cs0 → st.1.1 ≡ₚ cs0 → 1 ≤ i →
  ∃ st', opt2_row p (length st.1.1) i st = Ok st'.
Proof.
  intros Hcov Hnd Hcs Hi. unfold opt2_row.
  destruct (foldM_total (λ st j, opt2_step p i j st)
              (λ s, s.1.1 ≡ₚ cs0 ∧ length s.1.1 = length st.1.1)
              (seq (i + 2) (length st.1.1 - (i + 2))) st) as (st' & ? & _);
    [|done|eauto].
  intros [[cs len] imp] j [Hj1 Hj2]%elem_of_seq [Hs Hl]. simpl in *.
  destruct (opt2_step_total p cs0 i j cs len imp) as [s' Hs']; [done..|lia|].
  exists s'. split; [done|].
  apply opt2_step_rel in Hs' as Hrel; [|done..].
  destruct s' as [[cs' len'] imp']. simpl in *.
  destruct Hrel as (Hl' & Hp' & _). split; [by rewrite Hp'|lia].
Qed.

Lemma opt2_sweep_total (p : Problem.t) (cs0 : list nat) (st : list nat * Q * bool) :
  covers p cs0 → NoDup cs0 → st.1.1 ≡ₚ cs0 →
  ∃ st', opt2_sweep p (length st.1.1) st = Ok st'.
Proof.
  intros Hcov Hnd Hcs. unfold opt2_sweep.
  destruct (foldM_total (λ s i, opt2_row p (length st.1.1) i s)
              (λ s, s.1.1 ≡ₚ cs0 ∧ length s.1.1 = length st.1.1)
              (seq 1 (length st.1.1 - 3)) st) as (st' & ? & _);
    [|done|eauto].
  intros s i [Hi1 Hi2]%elem_of_seq [Hs Hl].
  destruct (opt2_row_total p cs0 i s) as [s' Hs']; [done..|].
  rewrite Hl in Hs'. exists s'. split; [done|].
  apply opt2_row_rel in Hs' as Hrel; [|done].
  destruct s as [[cs len] imp], s' as [[cs' len'] imp']. simpl in *.
  destruct Hrel as (Hl' & Hp' & _). split; [by rewrite Hp'|lia].
Qed.

Lemma opt2_loop_total (p : Problem.t) (cs0 : list nat) (fuel : nat)
    (cs : list nat) (len : Q) :
  covers p cs0 → NoDup cs0 → cs ≡ₚ cs0 →
  opt2_loop fuel p cs len ≠ Err OutOfFuel →
  ∃ r, opt2_loop fuel p cs len = Ok r.
Proof.
  intros Hcov Hnd. revert cs len.
  induction fuel as [|fuel IH]; intros cs len Hcs Hfuel; simpl in *; [done|].
  destruct (opt2_sweep_total p cs0 (cs, len, false)) as [[[cs1 len1] imp1] Hsw];
    [done..|].
  simpl in Hsw. rewrite Hsw in *. simpl in *.
  destruct imp1; [|eauto].
  apply IH; [|done].
  apply opt2_sweep_rel in Hsw as (_ & Hp1 & _). by rewrite Hp1.
Qed.

(** What [opt2] returns, whatever the table: the same customers between the
    same two ends, under the same id and reward, with a recorded length that
    did not grow. *)
Lemma opt2_inv (p : Problem.t) (route route' : Route.t) :
  opt2 p route = Ok route' →
  Route.id route' = Route.id route ∧
  Route.problem route' = p ∧
  Route.reward route' = Route.reward route ∧
  Route.customers route' ≡ₚ Route.customers route ∧
  head (Route.customers route') = head (Route.customers route) ∧
  last (Route.customers route') = last (Route.customers route) ∧
  (Route.length route' <= Route.length route)%Q ∧
  (symmetric p →
     (Route.length route' - path_length p (Route.customers route')
      == Route.length route - path_length p (Route.customers route))%Q ∧
     (legs_defined p (Route.customers route) →
      legs_defined p (Route.customers route'))).
Proof.
  unfold opt2. intros H.
  apply bind_ok in H as ([cs len] & [imp Hrel]%opt2_loop_rel & [= <-]). simpl in *.
  destruct Hrel as (_ & Hp & Hh & Hl & Hs & Hm). split_and!; try done.
  destruct Hs as [[= -> -> _]|[_ ?]]; lra.
Qed.


(** ** Routes and the solution invariant *)

Lemma interior_ends {A} (x y : A) (mid : list A) : interior (x :: mid ++ [y]) = mid.
Proof. unfold interior. simpl. apply removelast_last. Qed.

Lemma but_last_ends {A} (x y : A) (mid : list A) : but_last (x :: mid ++ [y]) = x :: mid.
Proof. unfold but_last. apply (removelast_last (x :: mid) y). Qed.

Lemma route_wf_interior (p : Problem.t) (r : Route.t) :
  route_wf p r →
  Route.customers r = source :: (interior (Route.customers r) ++ [target p]) ∧
  NoDup (interior (Route.customers r)) ∧
  (source ∉ interior (Route.customers r)) ∧ (target p ∉ interior (Route.customers r)).
Proof. intros (mid & Hc & ? & ? & ?). rewrite Hc at 2 3 4 5. by rewrite interior_ends. Qed.

Lemma route_wf_elem_of (p : Problem.t) (r : Route.t) (c : nat) :
  route_wf p r →
  c ∈ interior (Route.customers r) ↔
  c ∈ Route.customers r ∧ c ≠ source ∧ c ≠ target p.
Proof.
  intros (Hc & _ & Hs & Ht)%route_wf_interior. rewrite Hc at 2.
  rewrite elem_of_cons, elem_of_app, list_elem_of_singleton.
  split; [|tauto]. intros Hin. split_and!; [tauto|by intros ->..].
Qed.

Lemma solution_inv_one_route (p : Problem.t) (s : Solution.t) :
  solution_inv p s → one_route_per_customer p s.
Proof.
  intros (Hwf & Hr & Hidx) k1 k2 r1 r2 c H1 H2 Hc1 Hc2 Hs Ht.
  destruct (Hr _ _ H1) as [_ Hw1], (Hr _ _ H2) as [_ Hw2].
  assert (Solution.c_to_r s !! c = Some k1) as E1.
  { apply Hidx. exists r1. split; [done|]. by apply (route_wf_elem_of p). }
  assert (Solution.c_to_r s !! c = Some k2) as E2.
  { apply Hidx. exists r2. split; [done|]. by apply (route_wf_elem_of p). }
  congruence.
Qed.

Lemma solution_inv_elem_of (p : Problem.t) (s : Solution.t) (k : nat) (r : Route.t) :
  solution_inv p s → (k, r) ∈ Solution.routes s ↔ od_get k (Solution.routes s) = Some r.
Proof. intros (Hwf & _). split; [by apply od_get_wf|apply od_get_elem_of]. Qed.

(** ** The merge loop of the savings heuristic *)

Lemma try_merge_inv (p : Problem.t) (s s' : Solution.t)
    (ic_id jc_id iroute_id jroute_id : nat) (iroute jroute : Route.t) :
  try_merge p s ic_id jc_id iroute_id jroute_id iroute jroute = Ok s' →
  s' = s ∨
  ∃ d_it d_sj d_ij v1 v2,
    py_index_m2 (Route.customers iroute) = Ok ic_id ∧
    py_index (Route.customers jroute) 1 = Ok jc_id ∧
    (Route.length iroute - d_it + Route.length jroute - d_sj + d_ij
     <= Problem.tmax p)%Q ∧
    od_get iroute_id (Solution.routes s) = Some v1 ∧
    od_get jroute_id (od_del iroute_id (Solution.routes s)) = Some v2 ∧
    s' = Solution.mk (Solution.problem s)
           (od_set (Route.id iroute)
              (Route.mk (Route.id iroute) (Route.problem iroute)
                 (but_last (Route.customers iroute) ++ tail (Route.customers jroute))
                 (Route.length iroute - d_it + d_ij + Route.length jroute - d_sj)%Q
                 (Route.reward iroute + Route.reward jroute)%Z)
              (od_del jroute_id (od_del iroute_id (Solution.routes s))))
           (foldl (λ m i, <[i := Route.id iroute]> m) (Solution.c_to_r s)
              (interior (Route.customers jroute))).
Proof.
  unfold try_merge. intros H.
  apply bind_ok in H as (i_last & Hil & H).
  case_decide as Hic; [subst i_last|injection H as <-; by left].
  apply bind_ok in H as (j_first & Hjf & H).
  case_decide as Hjc; [subst j_first|injection H as <-; by left].
  apply bind_ok in H as (d_it & Hit & H).
  apply bind_ok in H as (d_sj & Hsj & H).
  apply bind_ok in H as (d_ij & Hij & H).
  destruct (Qle_bool _ _) eqn:Hle; [|injection H as <-; by left].
  apply Qle_bool_iff in Hle.
  apply bind_ok in H as ([s1 merged] & Hm & H).
  unfold merge_routes in Hm. rewrite Hil, Hjf in Hm. simpl in Hm.
  rewrite Hit, Hij, Hsj in Hm. simpl in Hm. injection Hm as <- <-.
  simpl in H. unfold od_pop in H.
  destruct (od_get iroute_id _) as [v1|] eqn:Hg1; [|done]. simpl in H.
  destruct (od_get jroute_id _) as [v2|] eqn:Hg2; [|done]. simpl in H.
  injection H as <-. right. by exists d_it, d_sj, d_ij, v1, v2.
Qed.

Lemma savings_step_inv (p : Problem.t) (saving : Saving.t) (s s' : Solution.t)
    (stop : bool) :
  savings_step p saving s = Ok (s', stop) →
  s' = s ∨
  ∃ iroute_id jroute_id iroute jroute,
    iroute_id ≠ jroute_id ∧
    od_get iroute_id (Solution.routes s) = Some iroute ∧
    od_get jroute_id (Solution.routes s) = Some jroute ∧
    try_merge p s (Saving.inode saving) (Saving.jnode saving)
      iroute_id jroute_id iroute jroute = Ok s'.
Proof.
  unfold savings_step. intros H.
  apply bind_ok in H as (ci & _ & H). apply bind_ok in H as (cj & _ & H).
  destruct (Solution.c_to_r s !! Saving.inode saving) as [i|];
    [|injection H as <- _; by left].
  destruct (Solution.c_to_r s !! Saving.jnode saving) as [j|];
    [|injection H as <- _; by left].
  case_decide as Hne; [injection H as <- _; by left|].
  apply bind_ok in H as (iroute & Hi%of_option_ok & H).
  apply bind_ok in H as (jroute & Hj%of_option_ok & H).
  apply bind_ok in H as (s1 & Hm & H). injection H as <- _.
  right. by exists i, j, iroute, jroute.
Qed.

(** An invariant of the merge step is an invariant of the loop. *)
Lemma savings_loop_inv (I : Solution.t → Prop) (p : Problem.t) :
  (∀ s s' ic_id jc_id iroute_id jroute_id iroute jroute,
     I s → iroute_id ≠ jroute_id →
     od_get iroute_id (Solution.routes s) = Some iroute →
     od_get jroute_id (Solution.routes s) = Some jroute →
     try_merge p s ic_id jc_id iroute_id jroute_id iroute jroute = Ok s' → I s') →
  ∀ n beta us k options s s',
    I s → savings_loop n p beta us k options s = Ok s' → I s'.
Proof.
  intros Hmerge. induction n as [|n IH]; intros beta us k options s s' Hs H; simpl in H.
  - by injection H as <-.
  - apply bind_ok in H as ([saving options'] & _ & H).
    apply bind_ok in H as ([s1 stop] & Hstep & H).
    assert (I s1) as Hs1.
    { apply savings_step_inv in Hstep
        as [->|(i & j & iroute & jroute & ? & ? & ? & ?)]; [done|].
      by eapply Hmerge. }
    destruct stop; [by injection H as <-|by eapply IH].
Qed.

Lemma foldl_insert_const_lookup (m : gmap nat nat) (l : list nat) (v c : nat) :
  foldl (λ m i, <[i := v]> m) m l !! c = if decide (c ∈ l) then Some v else m !! c.
Proof.
  revert m. induction l as [|x l IH]; intros m; cbn [foldl].
  - rewrite decide_False; [done|apply not_elem_of_nil].
  - rewrite IH. destruct (decide (c ∈ l)) as [Hin|Hnin].
    + rewrite decide_True; [done|by right].
    + destruct (decide (c = x)) as [->|Hne].
      * rewrite lookup_insert_eq, decide_True; [done|by left].
      * rewrite lookup_insert_ne by done. rewrite decide_False; [done|].
        by intros [?|?]%elem_of_cons.
Qed.


Lemma py_index_m2_ends (x y : nat) (mid : list nat) (c : nat) :
  py_index_m2 (x :: (mid ++ [y])) = Ok c → mid = [] ∧ c = x ∨ c ∈ mid.
Proof.
  unfold py_index_m2. case_decide; [|done]. intros Hc%py_index_ok.
  assert (length (x :: (mid ++ [y])) - 2 = length mid) as Hlen
    by (simpl; rewrite length_app; simpl; lia).
  rewrite Hlen in Hc. destruct mid as [|m mid].
  - left. by injection Hc as <-.
  - right.
    change ((x :: ((m :: mid) ++ [y])) !! length (m :: mid))
      with (((m :: mid) ++ [y]) !! length mid) in Hc.
    rewrite lookup_app_l in Hc by (simpl; lia).
    by eapply list_elem_of_lookup_2.
Qed.

Lemma try_merge_solution_inv (p : Problem.t) (s s' : Solution.t)
    (ic_id jc_id iroute_id jroute_id : nat) (iroute jroute : Route.t) :
  solution_inv p s → iroute_id ≠ jroute_id →
  od_get iroute_id (Solution.routes s) = Some iroute →
  od_get jroute_id (Solution.routes s) = Some jroute →
  try_merge p s ic_id jc_id iroute_id jroute_id iroute jroute = Ok s' →
  solution_inv p s'.
Proof.
  intros Hinv Hne Hgi Hgj
    [->|(d_it & d_sj & d_ij & v1 & v2 & _ & _ & _ & _ & _ & ->)]%try_merge_inv; [done|].
  destruct Hinv as (Hwf & Hr & Hidx).
  destruct (Hr _ _ Hgi) as [Hidi Hwfi], (Hr _ _ Hgj) as [Hidj Hwfj].
  subst iroute_id.
  apply route_wf_interior in Hwfi as (Hci & Hndi & Hsi & Hti).
  apply route_wf_interior in Hwfj as (Hcj & Hndj & Hsj & Htj).
  set (mi := interior (Route.customers iroute)) in *.
  set (mj := interior (Route.customers jroute)) in *.
  assert (∀ c, c ∈ mi → c ∉ mj) as Hdisj.
  { intros c Hi Hj. apply Hne.
    assert (Solution.c_to_r s !! c = Some (Route.id iroute)) as E1 by (apply Hidx; eauto).
    assert (Solution.c_to_r s !! c = Some jroute_id) as E2 by (apply Hidx; eauto).
    congruence. }
  set (merged := Route.mk _ _ _ _ _).
  assert (Route.customers merged = source :: ((mi ++ mj) ++ [target p])) as Hcm.
  { unfold merged. simpl. rewrite Hci, Hcj, but_last_ends. simpl.
    by rewrite <- !app_assoc. }
  assert (∀ k, od_get k (od_set (Route.id iroute) merged
                           (od_del jroute_id (od_del (Route.id iroute) (Solution.routes s))))
               = if decide (k = Route.id iroute) then Some merged
                 else if decide (k = jroute_id) then None
                 else od_get k (Solution.routes s)) as Hget.
  { intros k. rewrite od_get_set. case_decide; [done|].
    rewrite od_get_del by by apply od_wf_del. case_decide; [done|].
    rewrite od_get_del by done. by rewrite decide_False. }
  split_and!; simpl.
  - by apply od_wf_set, od_wf_del, od_wf_del.
  - intros k r. rewrite Hget. case_decide as Hk; [|case_decide; [done|apply Hr]].
    intros [= <-]. split; [by subst|].
    exists (mi ++ mj). split_and!; [done| | |].
    + apply NoDup_app. by split_and!.
    + rewrite elem_of_app. tauto.
    + rewrite elem_of_app. tauto.
  - intros c k. simpl. rewrite foldl_insert_const_lookup. fold mj.
    setoid_rewrite Hget.
    destruct (decide (c ∈ mj)) as [Hin|Hnin].
    + split.
      * intros [= <-]. exists merged. rewrite decide_True by done.
        split; [done|]. rewrite Hcm, interior_ends, elem_of_app. by right.
      * intros (r & Hgr & Hc). case_decide as Hk; [by subst|].
        case_decide; [done|]. exfalso.
        assert (Solution.c_to_r s !! c = Some k) as E1 by (apply Hidx; eauto).
        assert (Solution.c_to_r s !! c = Some jroute_id) as E2 by (apply Hidx; eauto).
        congruence.
    + rewrite (Hidx c k). split.
      * intros (r & Hgr & Hc). case_decide as Hk.
        -- subst k. exists merged. split; [done|].
           rewrite Hcm, interior_ends, elem_of_app. left.
           rewrite Hgi in Hgr. by injection Hgr as <-.
        -- rewrite decide_False; [eauto|]. intros ->.
           rewrite Hgj in Hgr. injection Hgr as <-. done.
      * intros (r & Hgr & Hc). case_decide as Hk.
        -- subst k. injection Hgr as <-. exists iroute. split; [done|].
           rewrite Hcm, interior_ends, elem_of_app in Hc. tauto.
        -- case_decide; [done|eauto].
Qed.

(** ** Keeping the best routes *)

Section odict_of_list.
Context {K V : Type} `{EqDecision K}.

Lemma od_set_keys_elem_of (d : list (K * V)) (k k' : K) (v : V) :
  k' ∈ od_keys (od_set k v d) ↔ k' = k ∨ k' ∈ od_keys d.
Proof.
  rewrite od_keys_set. case_decide as Hk.
  - split; [by right|]. by intros [->|?].
  - rewrite elem_of_app, list_elem_of_singleton. tauto.
Qed.

Lemma od_of_list_keys_2 (l : list (K * V)) (k : K) :
  k ∈ l.*1 → k ∈ od_keys (od_of_list l).
Proof.
  unfold od_of_list.
  assert (∀ acc, k ∈ od_keys acc ∨ k ∈ l.*1 →
            k ∈ od_keys (foldl (λ d kv, od_set kv.1 kv.2 d) acc l)) as Hgen.
  { induction l as [|[k0 v0] l IH]; intros acc; simpl.
    - by intros [?|?%elem_of_nil].
    - intros Hk. apply IH. rewrite od_set_keys_elem_of.
      destruct Hk as [?|[->|?]%elem_of_cons]; auto. }
  intros Hk. apply Hgen. by right.
Qed.

Lemma NoDup_fst_functional (l : list (K * V)) (k : K) (v v' : V) :
  NoDup l.*1 → (k, v) ∈ l → (k, v') ∈ l → v = v'.
Proof.
  intros Hnd H1 H2. apply (od_get_wf l k v) in H1; [|done].
  apply (od_get_wf l k v') in H2; [|done]. congruence.
Qed.

Lemma od_get_of_list (l : list (K * V)) (k : K) (v : V) :
  NoDup l.*1 → od_get k (od_of_list l) = Some v ↔ (k, v) ∈ l.
Proof.
  intros Hnd. split.
  - by intros ?%od_get_elem_of%od_of_list_elem_of.
  - intros Hin. destruct (od_get k (od_of_list l)) as [v'|] eqn:Hg.
    + apply od_get_elem_of, od_of_list_elem_of in Hg.
      by rewrite (NoDup_fst_functional l k v v' Hnd Hin Hg).
    + apply od_get_None in Hg. destruct Hg. apply od_of_list_keys_2.
      apply list_elem_of_fmap. by exists (k, v).
Qed.
End odict_of_list.

Lemma nlargest_reward_sub (n : nat) (l : list Route.t) (r : Route.t) :
  r ∈ nlargest_reward n l → r ∈ l.
Proof.
  unfold nlargest_reward. intros (i & Hi & _)%elem_of_take.
  apply list_elem_of_lookup_2 in Hi. by rewrite sorted_desc_Permutation in Hi.
Qed.


Lemma nlargest_reward_NoDup (n : nat) (l : list Route.t) :
  NoDup (Route.id <$> l) → NoDup (Route.id <$> nlargest_reward n l).
Proof.
  unfold nlargest_reward. intros Hnd. rewrite fmap_take.
  eapply sublist_NoDup; [|apply sublist_take].
  by rewrite sorted_desc_Permutation.
Qed.

Lemma od_values_elem_of {K V} (d : list (K * V)) (v : V) :
  v ∈ od_values d ↔ ∃ k, (k, v) ∈ d.
Proof.
  unfold od_values. rewrite list_elem_of_fmap. split.
  - intros ([k v'] & -> & ?). by exists k.
  - intros (k & ?). by exists (k, v).
Qed.




Lemma foldl_insert_pairs_lookup (L : list (nat * nat)) (m : gmap nat nat) (c k : nat) :
  (∀ c k k', (c, k) ∈ L → (c, k') ∈ L → k = k') →
  foldl (λ m cr, <[cr.1 := cr.2]> m) m L !! c = Some k ↔
  (c, k) ∈ L ∨ (c ∉ L.*1) ∧ m !! c = Some k.
Proof.
  revert m. induction L as [|[c0 k0] L IH]; intros m Hfun; cbn [foldl].
  - split; [intros; right; split; [apply not_elem_of_nil|done]|].
    by intros [?%elem_of_nil|[_ ?]].
  - rewrite IH by (intros ?????; eapply Hfun; by right). csimpl.
    rewrite not_elem_of_cons, elem_of_cons.
    destruct (decide (c = c0)) as [->|Hne].
    + rewrite lookup_insert_eq. split.
      * intros [Hin|[Hnin [= <-]]]; [left; by right|left; by left].
      * intros [[[= <-]|Hin]|[[? _] _]]; [|by left|done].
        destruct (decide (c0 ∈ L.*1)) as [([c1 k1] & Hc & Hin)%list_elem_of_fmap|?];
          [|by right].
        simpl in Hc. subst c1. left.
        by rewrite (Hfun c0 k k1); [|left|right].
    + rewrite lookup_insert_ne by done. split.
      * intros [?|[? ?]]; [left; by right|by right].
      * intros [[[= -> ->]|?]|[[_ ?] ?]]; [done|by left|by right].
Qed.

Lemma od_values_ids (d : list (nat * Route.t)) :
  (∀ k r, (k, r) ∈ d → Route.id r = k) → Route.id <$> od_values d = od_keys d.
Proof.
  unfold od_values, od_keys. induction d as [|[k r] d IH]; intros Hid; [done|].
  csimpl. rewrite (Hid k r) by by left. f_equal. apply IH.
  intros ???; apply Hid; by right.
Qed.

Lemma keep_top_routes_solution_inv (p : Problem.t) (s : Solution.t) :
  solution_inv p s → solution_inv p (keep_top_routes p s).
Proof.
  intros Hinv. pose proof (solution_inv_one_route p s Hinv) as Hone.
  pose proof Hinv as (Hwf & Hr & Hidx).
  unfold keep_top_routes.
  set (top := nlargest_reward (Problem.n_trucks p) (od_values (Solution.routes s))).
  assert (∀ r, r ∈ top → od_get (Route.id r) (Solution.routes s) = Some r) as Htop.
  { intros r [k Hk]%nlargest_reward_sub%od_values_elem_of.
    apply od_get_wf in Hk; [|done]. by destruct (Hr _ _ Hk) as [-> _]. }
  assert (NoDup (Route.id <$> top)) as Hnd.
  { apply nlargest_reward_NoDup. rewrite od_values_ids; [done|].
    intros k r Hk%od_get_wf; [|done]. by destruct (Hr _ _ Hk). }
  assert (∀ k r, od_get k (od_of_list (map (λ r, (Route.id r, r)) top)) = Some r ↔
                 r ∈ top ∧ Route.id r = k) as Hget.
  { intros k r. rewrite od_get_of_list.
    - change (map (λ r, (Route.id r, r)) top) with ((λ r, (Route.id r, r)) <$> top).
      rewrite list_elem_of_fmap. split.
      + by intros (r' & [= -> ->] & ?).
      + intros [? <-]. by exists r.
    - change (map (λ r, (Route.id r, r)) top) with ((λ r, (Route.id r, r)) <$> top).
      by rewrite <- list_fmap_compose. }
  split_and!; simpl.
  - apply od_of_list_wf.
  - intros k r [Hin <-]%Hget. split; [done|]. by apply (Hr _ _ (Htop r Hin)).
  - intros c k. simpl. setoid_rewrite Hget.
    rewrite foldl_insert_pairs_lookup.
    + rewrite lookup_empty. split.
      * intros [Hin|[_ [=]]]. apply list_elem_of_bind in Hin as (r & Hin & Hr').
        apply list_elem_of_bind in Hin as (c' & Hin & Hc').
        apply list_elem_of_singleton in Hin as [= -> ->].
        apply list_elem_of_filter in Hc' as [[? ?] Hc'].
        exists r. split; [done|].
        apply (route_wf_elem_of p); [|done]. by apply (Hr _ _ (Htop r Hr')).
      * intros (r & [Hin <-] & Hc). left.
        apply (route_wf_elem_of p) in Hc as (? & ? & ?);
          [|by apply (Hr _ _ (Htop r Hin))].
        apply list_elem_of_bind. exists r. split; [|done].
        apply list_elem_of_bind. exists c. split; [by apply list_elem_of_singleton|].
        by apply list_elem_of_filter.
    + intros c' k1 k2 H1 H2.
      apply list_elem_of_bind in H1 as (r1 & H1 & Hr1).
      apply list_elem_of_bind in H1 as (c1 & H1 & Hc1).
      apply list_elem_of_singleton in H1 as [= -> ->].
      apply list_elem_of_filter in Hc1 as [[? ?] Hc1].
      apply list_elem_of_bind in H2 as (r2 & H2 & Hr2).
      apply list_elem_of_bind in H2 as (c2 & H2 & Hc2).
      apply list_elem_of_singleton in H2 as [= -> ->].
      apply list_elem_of_filter in Hc2 as [_ Hc2].
      by eapply Hone; [apply Htop|apply Htop|..].
Qed.

(** ** The initial solution *)

Lemma od_get_set_fresh {V} (d : list (nat * V)) (k k' : nat) (v : V) :
  od_get k' (od_set k v d) = if decide (k' = k) then Some v else od_get k' d.
Proof. apply od_get_set. Qed.

Lemma init_step_inv (p : Problem.t) (st st' : list (nat * Route.t) * nat * gmap nat nat)
    (id : nat) (c : Customer.t) :
  singletons_inv p st → st.2 !! id = None →
  init_step p st (id, c) = Ok st' →
  singletons_inv p st' ∧ ∀ c', c' ≠ id → st'.2 !! c' = st.2 !! c'.
Proof.
  destruct st as [[routes rid] c_to_r]. simpl.
  intros (Hwf & Hkeys & Hr & Hc) Hid H. unfold init_step in H.
  case_decide as Hdepot; [by injection H as <-|].
  apply bind_ok in H as (d1 & Hd1 & H). apply bind_ok in H as (d2 & Hd2 & H).
  destruct (Qle_bool _ _) eqn:Hle; [|by injection H as <-].
  apply Qle_bool_iff in Hle. injection H as <-. simpl.
  assert (od_get rid routes = None) as Hfresh.
  { apply od_get_None. intros Hin%Hkeys. lia. }
  split; [|by intros c' ?; rewrite lookup_insert_ne].
  split_and!.
  - by apply od_wf_set.
  - intros k [->|?%Hkeys]%od_set_keys_elem_of; lia.
  - intros k r. rewrite od_get_set. case_decide as Hk.
    + intros [= <-]. subst k. simpl. split_and!; [done|done|].
      exists id. rewrite lookup_insert_eq. split_and!; [done|tauto..|done].
    + intros (? & ? & c' & ? & ? & ? & Hc')%Hr. split_and!; [done..|].
      exists c'. split_and!; [done..|].
      rewrite lookup_insert_ne; [done|]. intros ->. congruence.
  - intros c' k. destruct (decide (c' = id)) as [->|Hne].
    + rewrite lookup_insert_eq. intros [= <-]. eexists.
      rewrite od_get_set, decide_True by done. done.
    + rewrite lookup_insert_ne by done. intros (r & Hg & ?)%Hc.
      exists r. split; [|done]. rewrite od_get_set, decide_False; [done|].
      intros ->. congruence.
Qed.

Lemma init_fold_inv (p : Problem.t) (l : list (nat * Customer.t))
    (st st' : list (nat * Route.t) * nat * gmap nat nat) :
  NoDup l.*1 → singletons_inv p st → (∀ c, c ∈ l.*1 → st.2 !! c = None) →
  foldM (init_step p) st l = Ok st' → singletons_inv p st'.
Proof.
  revert st. induction l as [|[id c] l IH]; intros st Hnd Hst Hnew H; simpl in H.
  - by injection H as <-.
  - apply bind_ok in H as (st1 & Hstep & H).
    csimpl in Hnd. apply NoDup_cons in Hnd as [Hid Hnd].
    apply init_step_inv in Hstep as [Hst1 Hsame]; [|done|apply Hnew; by left].
    apply (IH st1); [done..| |done].
    intros c' Hc'. rewrite Hsame; [apply Hnew; by right|]. by intros ->.
Qed.

Lemma singletons_solution_inv (p : Problem.t) (p' : Problem.t)
    (routes : list (nat * Route.t)) (rid : nat) (c_to_r : gmap nat nat) :
  singletons_inv p (routes, rid, c_to_r) →
  solution_inv p (Solution.mk p' routes c_to_r) ∧
  feasible p (Solution.mk p' routes c_to_r).
Proof.
  intros (Hwf & Hkeys & Hr & Hc). split; [split_and!; simpl|].
  - done.
  - intros k r (? & _ & c & Hcs & ? & ? & _)%Hr. split; [done|].
    exists [c]. split_and!; [done|apply NoDup_singleton|..];
      by intros ?%list_elem_of_singleton.
  - intros c k. simpl. split.
    + intros (r & ? & Hcs)%Hc. exists r. split; [done|]. rewrite Hcs.
      unfold interior. simpl. by apply list_elem_of_singleton.
    + intros (r & Hg & Hin). destruct (Hr _ _ Hg) as (_ & _ & c' & Hcs & _ & _ & ?).
      rewrite Hcs in Hin. unfold interior in Hin. simpl in Hin.
      by apply list_elem_of_singleton in Hin as ->.
  - intros k r Hin. simpl in Hin. apply od_get_wf in Hin; [|done].
    by destruct (Hr _ _ Hin) as (_ & ? & _).
Qed.

Lemma init_solution_inv (p : Problem.t) (s : Solution.t) :
  od_wf (Problem.customers p) → init_solution p = Ok s →
  solution_inv p s ∧ feasible p s.
Proof.
  intros Hwf H. unfold init_solution in H.
  apply bind_ok in H as ([[routes rid] c_to_r] & Hfold & [= <-]).
  apply (singletons_solution_inv p p routes rid c_to_r).
  apply (init_fold_inv p (Problem.customers p) ([], 0, ∅));
    [exact Hwf| |intros; apply lookup_empty|exact Hfold].
  split_and!; [apply NoDup_nil_2|by intros ? ?%elem_of_nil|done|done].
Qed.


(** ** The savings heuristic *)

Lemma savings_run_inv (I : Solution.t → Prop) (p : Problem.t) (alpha beta : Q)
    (us : nat → Q) (s s' : Solution.t) :
  (∀ s s' ic_id jc_id iroute_id jroute_id iroute jroute,
     I s → iroute_id ≠ jroute_id →
     od_get iroute_id (Solution.routes s) = Some iroute →
     od_get jroute_id (Solution.routes s) = Some jroute →
     try_merge p s ic_id jc_id iroute_id jroute_id iroute jroute = Ok s' → I s') →
  (∀ s, I s → I (keep_top_routes p s)) →
  I s → savings_run p alpha beta us s = Ok s' → I s'.
Proof.
  intros Hmerge Htop Hs H. unfold savings_run in H.
  apply bind_ok in H as (savings & _ & H).
  apply bind_ok in H as (s1 & Hloop & [= <-]).
  apply Htop. by eapply (savings_loop_inv I p Hmerge).
Qed.

Lemma savings_run_solution_inv (p : Problem.t) (alpha beta : Q) (us : nat → Q)
    (s s' : Solution.t) :
  solution_inv p s → savings_run p alpha beta us s = Ok s' → solution_inv p s'.
Proof.
  apply (savings_run_inv (solution_inv p)).
  - intros. by eapply try_merge_solution_inv.
  - apply keep_top_routes_solution_inv.
Qed.


(** What a call of [savings_heuristic] does to the heap: the object it works
    on is the seed itself, or a fresh initial solution; the object is updated
    in place and its reference is returned. *)
Lemma savings_heuristic_inv (p : Problem.t) (alpha beta : Q) (us : nat → Q)
    (seed : option nat) (h h' : heap) (ref : nat) :
  savings_heuristic p alpha beta us seed h = Ok (ref, h') →
  ∃ s s',
    match seed with
    | None => init_solution p = Ok s ∧ ref = length h ∧ h' = h ++ [s']
    | Some ref0 => h !! ref0 = Some s ∧ ref = ref0 ∧ h' = <[ref0 := s']> h
    end ∧
    savings_run p alpha beta us s = Ok s' ∧ h' !! ref = Some s'.
Proof.
  unfold savings_heuristic. intros H.
  apply bind_ok in H as ([ref1 h1] & H1 & H).
  apply bind_ok in H as (s & Hs%of_option_ok & H).
  apply bind_ok in H as (s' & Hrun & [= <- <-]).
  exists s, s'. destruct seed as [ref0|].
  - injection H1 as <- <-. split_and!; [done..|].
    apply list_lookup_insert_eq. by eapply lookup_lt_Some.
  - apply bind_ok in H1 as (s0 & Hinit & [= <- <-]).
    rewrite lookup_app_r, Nat.sub_diag in Hs by done. injection Hs as ->.
    assert (<[length h := s']> (h ++ [s]) = h ++ [s']) as ->.
    { rewrite insert_app_r_alt, Nat.sub_diag by done. done. }
    split_and!; [done..|].
    by rewrite lookup_app_r, Nat.sub_diag.
Qed.


(** ** The constructive heuristic *)

Lemma candidates_inv (p : Problem.t) (alpha : Q) (visited : gset nat) (cnode : nat)
    (cdist : Q) (L : list ConstructiveStep.t) :
  candidates p alpha visited cnode cdist = Ok L →
  ∀ cs, cs ∈ L →
    (ConstructiveStep.id cs ∉ visited) ∧
    (ConstructiveStep.id cs, ConstructiveStep.customer cs) ∈ Problem.customers p ∧
    ∃ d1 d2, dist p cnode (ConstructiveStep.id cs) = Ok d1 ∧
             dist p (ConstructiveStep.id cs) (target p) = Ok d2 ∧
             (cdist + d1 + d2 <= Problem.tmax p)%Q.
Proof.
  unfold candidates.
  apply (foldM_inv _ (λ acc, ∀ cs, cs ∈ acc → _ ∧ _ ∧ _)).
  - intros acc [id c] acc' Hin Hacc H.
    case_decide as Hv; [by injection H as <-|].
    apply bind_ok in H as (d1 & Hd1 & H). apply bind_ok in H as (d2 & Hd2 & H).
    destruct (Qle_bool _ _) eqn:Hle; [|by injection H as <-].
    apply Qle_bool_iff in Hle. apply bind_ok in H as (d0 & Hd0 & [= <-]).
    intros cs [?|Hcs%list_elem_of_singleton]%elem_of_app; [auto|].
    subst cs. simpl. split_and!; [done..|]. by exists d1, d2.
  - by intros cs ?%elem_of_nil.
Qed.

Lemma candidates_err (p : Problem.t) (alpha : Q) (visited : gset nat) (cnode : nat)
    (cdist : Q) (e : exn) :
  candidates p alpha visited cnode cdist = Err e → e ≠ OutOfFuel.
Proof.
  unfold candidates. apply (foldM_err _ (λ e, e ≠ OutOfFuel)).
  intros acc [id c] e' _ H. case_decide; [done|].
  apply bind_err in H as [->%dist_err|(d1 & _ & H)]; [done|].
  apply bind_err in H as [->%dist_err|(d2 & _ & H)]; [done|].
  destruct (Qle_bool _ _); [|done].
  apply bind_err in H as [->%dist_err|(d0 & _ & H)]; done.
Qed.

Lemma bra_first_inv {A} (value : A → Q) (L : list A) (beta u : Q) (x : A) :
  bra_first value L beta u = Ok x → x ∈ L.
Proof.
  unfold bra_first. destruct L as [|y L]; [done|]. intros H.
  apply bind_ok in H as ([x' rest] & [Hp _]%bra_next_inv & [= <-]).
  unfold sorted_by_value in Hp. rewrite sorted_desc_Permutation in Hp.
  rewrite Hp. by left.
Qed.

Lemma int_log_err (x base : Q) (e : exn) : int_log x base = Err e → e ≠ OutOfFuel.
Proof.
  unfold int_log. repeat (destruct (_ : bool); [by intros [= <-]|]). done.
Qed.

Lemma bra_next_err {A} (beta u : Q) (options : list A) (e : exn) :
  bra_next beta u options = Err e → e ≠ OutOfFuel.
Proof.
  unfold bra_next, bra_index. intros H.
  apply bind_err in H as [H|(idx & _ & H)].
  - apply bind_err in H as [H%int_log_err|(k & _ & H)]; [done|].
    case_decide; [by injection H as <-|done].
  - unfold py_pop in H. destruct (options !! idx); [done|by injection H as <-].
Qed.

Lemma bra_first_err {A} (value : A → Q) (L : list A) (beta u : Q) (e : exn) :
  bra_first value L beta u = Err e → e ≠ OutOfFuel.
Proof.
  unfold bra_first. destruct L as [|y L]; [by intros [= <-]|]. intros H.
  apply bind_err in H as [H%bra_next_err|([? ?] & _ & H)]; done.
Qed.

(** An invariant of the loop body is an invariant of the [while] loop, which
    stops where no candidate is left. *)
Lemma extend_route_inv (I : Builder.t → Prop) (p : Problem.t) (alpha beta : Q)
    (us : nat → Q) (route_id : nat) :
  (∀ b L cs d,
     I b →
     candidates p alpha (Builder.visited_customers b) (Builder.cnode b) (Builder.cdist b)
       = Ok L →
     cs ∈ L → dist p (Builder.cnode b) (ConstructiveStep.id cs) = Ok d →
     I (append_customer route_id b cs d)) →
  ∀ fuel b b',
    I b → extend_route fuel p alpha beta us route_id b = Ok b' → I b'.
Proof.
  intros Hstep. induction fuel as [|fuel IH]; intros b b' Hb H; simpl in H.
  - apply bind_ok in H as (L & HL & H). destruct L; [by injection H as <-|done].
  - apply bind_ok in H as (L & HL & H).
    destruct L as [|c0 L]; [by injection H as <-|].
    apply bind_ok in H as (cs & Hcs%bra_first_inv & H).
    apply bind_ok in H as (d & Hd & H).
    apply IH in H; [done|]. by eapply Hstep.
Qed.

Lemma filter_length_mono {A} (P Q : A → Prop)
    `{!∀ x, Decision (P x)} `{!∀ x, Decision (Q x)} (l : list A) :
  (∀ x, Q x → P x) → length (filter Q l) ≤ length (filter P l).
Proof.
  intros HQP. induction l as [|x l IH]; [done|].
  rewrite !filter_cons. destruct (decide (Q x)) as [HQ|HQ].
  - rewrite decide_True by auto. simpl. lia.
  - destruct (decide (P x)); simpl; lia.
Qed.

Lemma filter_length_lt {A} (P Q : A → Prop)
    `{!∀ x, Decision (P x)} `{!∀ x, Decision (Q x)} (l : list A) (x : A) :
  x ∈ l → P x → ¬ Q x → (∀ y, Q y → P y) →
  length (filter Q l) < length (filter P l).
Proof.
  intros Hin HP HQ HQP. induction l as [|y l IH]; [by apply elem_of_nil in Hin|].
  rewrite !filter_cons. apply elem_of_cons in Hin as [<-|Hin].
  - rewrite decide_False, decide_True by done. simpl.
    pose proof (filter_length_mono P Q l HQP). lia.
  - specialize (IH Hin). destruct (decide (Q y)) as [HQy|HQy].
    + rewrite decide_True by auto. simpl. lia.
    + destruct (decide (P y)); simpl; lia.
Qed.

Lemma unvisited_lt (p : Problem.t) (visited : gset nat) (id : nat) (c : Customer.t) :
  (id, c) ∈ Problem.customers p → id ∉ visited →
  unvisited p ({[id]} ∪ visited) < unvisited p visited.
Proof.
  unfold unvisited. intros Hin Hid.
  apply (filter_length_lt _ _ _ (id, c)); [done|done|set_solver|set_solver].
Qed.

Lemma extend_route_fuel (p : Problem.t) (alpha beta : Q) (us : nat → Q) (route_id : nat) :
  ∀ fuel b,
    unvisited p (Builder.visited_customers b) ≤ fuel →
    extend_route fuel p alpha beta us route_id b ≠ Err OutOfFuel.
Proof.
  induction fuel as [|fuel IH]; intros b Hfuel H; simpl in H.
  - apply bind_err in H as [H%candidates_err|(L & HL & H)]; [done|].
    destruct L as [|cs L]; [done|].
    destruct (candidates_inv _ _ _ _ _ _ HL cs) as (Hv & Hin & _); [by left|].
    pose proof (unvisited_lt p _ _ _ Hin Hv). lia.
  - apply bind_err in H as [H%candidates_err|(L & HL & H)]; [done|].
    destruct L as [|c0 L]; [done|].
    apply bind_err in H as [H%bra_first_err|(cs & Hcs%bra_first_inv & H)]; [done|].
    apply bind_err in H as [H%dist_err|(d & _ & H)]; [done|].
    revert H. apply IH. simpl.
    destruct (candidates_inv _ _ _ _ _ _ HL cs Hcs) as (Hv & Hin & _).
    pose proof (unvisited_lt p _ _ _ Hin Hv). lia.
Qed.

Lemma build_truck_feasible (p : Problem.t) (alpha beta : Q) (us : nat → Q)
    (st st' : list (nat * Route.t) * nat * gmap nat nat * gset nat * nat) :
  (∀ k r, (k, r) ∈ st.1.1.1.1 → has_customer p r →
          (Route.length r <= Problem.tmax p)%Q) →
  build_truck p alpha beta us st = Ok st' →
  ∀ k r, (k, r) ∈ st'.1.1.1.1 → has_customer p r →
         (Route.length r <= Problem.tmax p)%Q.
Proof.
  destruct st as [[[[routes rid] c_to_r] visited] draws]. simpl.
  intros Hst H. unfold build_truck in H.
  apply bind_ok in H as (b & Hb & H). apply bind_ok in H as (d & Hd & [= <-]).
  apply (extend_route_inv (builder_feasible p)) in Hb.
  - simpl. intros k r [[-> ->]|Hin]%od_elem_of_set (c & Hc & Hcs & Hct);
      [|by eapply Hst; [done|exists c]].
    simpl in *. destruct Hb as [Hb|(d' & Hd' & Hle)].
    + rewrite Hb in Hc. simpl in Hc.
      apply elem_of_cons in Hc as [->|Hc%list_elem_of_singleton]; done.
    + rewrite Hd in Hd'. by injection Hd' as <-.
  - intros b0 L cs d0 _ HL Hcs Hd0. right.
    destruct (candidates_inv _ _ _ _ _ _ HL cs Hcs) as (_ & _ & d1 & d2 & Hd1 & Hd2 & Hle).
    rewrite Hd0 in Hd1. injection Hd1 as <-. by exists d2.
  - by left.
Qed.

Lemma build_truck_err (p : Problem.t) (alpha beta : Q) (us : nat → Q)
    (st : list (nat * Route.t) * nat * gmap nat nat * gset nat * nat) (e : exn) :
  build_truck p alpha beta us st = Err e → e ≠ OutOfFuel.
Proof.
  destruct st as [[[[routes rid] c_to_r] visited] draws]. unfold build_truck.
  intros H. apply bind_err in H as [H|(b & _ & H)].
  - intros ->. revert H. apply extend_route_fuel. simpl. apply length_filter.
  - apply bind_err in H as [H%dist_err|(d & _ & H)]; [by subst|done].
Qed.

(** C10 -- the loops of [constructive_heuristic] come to an end, and every
    route it returns that has a customer other than the depots has a recorded
    length within [tmax]. *)
Theorem constructive_routes_feasible (p : Problem.t) (alpha beta : Q) (us : nat → Q) :
  constructive_heuristic p alpha beta us ≠ Err OutOfFuel ∧
  ∀ s, constructive_heuristic p alpha beta us = Ok s →
    ∀ k r, (k, r) ∈ Solution.routes s →
      (∃ c, c ∈ Route.customers r ∧ c ≠ source ∧ c ≠ target p) →
      (Route.length r <= Problem.tmax p)%Q.
Proof.
  unfold constructive_heuristic. split.
  - intros H. apply bind_err in H as [H|([[[[? ?] ?] ?] ?] & _ & H)]; [|done].
    apply (foldM_err _ (λ e, e ≠ OutOfFuel)) in H; [done|].
    intros st _ e _. apply build_truck_err.
  - intros s H. apply bind_ok in H as ([[[[routes rid] c_to_r] visited] draws] & H & [= <-]).
    simpl. revert H.
    apply (foldM_inv _ (λ st, ∀ k r, (k, r) ∈ st.1.1.1.1 → has_customer p r →
                                (Route.length r <= Problem.tmax p)%Q)).
    + intros st _ st' _ Hst Hstep. by eapply build_truck_feasible.
    + by intros k r ?%elem_of_nil.
Qed.

Lemma append_customer_inv (p : Problem.t) (routes : list (nat * Route.t)) (rid : nat)
    (b : Builder.t) (cs : ConstructiveStep.t) (d : Q) :
  builder_inv p routes rid b →
  ConstructiveStep.id cs ∉ Builder.visited_customers b →
  builder_inv p routes rid (append_customer rid b cs d).
Proof.
  intros (mid & Hroute & Hnd & Hvis & Hs & Ht & Hsv & Htv & Hold & Hidx) Hnew.
  set (n := ConstructiveStep.id cs) in *.
  assert (n ∉ mid) as Hnmid by (intros ?%Hvis; done).
  exists (mid ++ [n]). unfold append_customer. simpl. fold n. split_and!.
  - by rewrite Hroute.
  - apply NoDup_app. split_and!; [done| |apply NoDup_singleton].
    intros c Hc Hc'%list_elem_of_singleton. by subst.
  - intros c [?%Hvis|Hc%list_elem_of_singleton]%elem_of_app;
      apply elem_of_union; [by right|left; by apply elem_of_singleton].
  - intros [?|Hc%list_elem_of_singleton]%elem_of_app; [done|]. by rewrite Hc in Hsv.
  - intros [?|Hc%list_elem_of_singleton]%elem_of_app; [done|]. by rewrite Hc in Htv.
  - apply elem_of_union; by right.
  - apply elem_of_union; by right.
  - intros k r c Hg Hc. apply elem_of_union; right. by eapply Hold.
  - intros c k. destruct (decide (c = n)) as [->|Hne].
    + rewrite lookup_insert_eq. split.
      * intros [= <-]. left. split; [done|]. apply elem_of_app. right. by left.
      * intros [[-> _]|(r & Hg & Hc)]; [done|]. by apply (Hold _ _ _ Hg) in Hc.
    + rewrite lookup_insert_ne by done. rewrite Hidx, elem_of_app, list_elem_of_singleton.
      split; intros [[? ?]|?]; try tauto.
Qed.

Lemma build_truck_inv (p : Problem.t) (alpha beta : Q) (us : nat → Q)
    (st st' : list (nat * Route.t) * nat * gmap nat nat * gset nat * nat) :
  trucks_inv p st → build_truck p alpha beta us st = Ok st' → trucks_inv p st'.
Proof.
  destruct st as [[[[routes rid] c_to_r] visited] draws].
  intros (Hwf & Hkeys & Hr & Hidx & Hsv & Htv) H. unfold build_truck in H.
  apply bind_ok in H as (b & Hb & H). apply bind_ok in H as (d & Hd & [= <-]).
  assert (od_get rid routes = None) as Hfresh.
  { apply od_get_None. intros Hin%Hkeys. lia. }
  apply (extend_route_inv (builder_inv p routes rid)) in Hb.
  - destruct Hb as (mid & Hroute & Hnd & Hvis & Hs & Ht & Hsv' & Htv' & Hold & Hidx').
    split_and!.
    + by apply od_wf_set.
    + intros k [->|?%Hkeys]%od_set_keys_elem_of; lia.
    + intros k r. rewrite od_get_set. case_decide as Hk.
      * intros [= <-]. subst k. simpl. rewrite Hroute. split_and!; [done| |].
        -- by exists mid.
        -- change ((source :: mid) ++ [target p]) with (source :: (mid ++ [target p])).
           by rewrite interior_ends.
      * intros Hg. destruct (Hr _ _ Hg) as (? & ? & _). split_and!; [done..|].
        intros c Hc. by eapply Hold.
    + intros c k. rewrite Hidx'. setoid_rewrite od_get_set. split.
      * intros [[-> Hc]|(r & Hg & Hc)].
        -- eexists. rewrite decide_True by done. split; [done|]. simpl.
           rewrite Hroute.
           change ((source :: mid) ++ [target p]) with (source :: (mid ++ [target p])).
           by rewrite interior_ends.
        -- exists r. rewrite decide_False; [done|]. intros ->. congruence.
      * intros (r & Hg & Hc). case_decide as Hk.
        -- injection Hg as <-. simpl in Hc. rewrite Hroute in Hc.
           change ((source :: mid) ++ [target p]) with (source :: (mid ++ [target p])) in Hc.
           rewrite interior_ends in Hc. by left.
        -- right. eauto.
    + done.
    + done.
  - intros b0 L cs d0 Hb0 HL Hcs _. apply append_customer_inv; [done|].
    by destruct (candidates_inv _ _ _ _ _ _ HL cs Hcs) as (? & _).
  - exists []. simpl. split_and!; try done.
    + apply NoDup_nil_2.
    + by intros c ?%elem_of_nil.
    + apply not_elem_of_nil.
    + apply not_elem_of_nil.
    + intros k r c Hg Hc. by eapply Hr.
    + intros c k. rewrite Hidx. split; [by right|].
      by intros [[_ ?%elem_of_nil]|?].
Qed.

Lemma trucks_solution_inv (p p' : Problem.t)
    (st : list (nat * Route.t) * nat * gmap nat nat * gset nat * nat) :
  trucks_inv p st → solution_inv p (Solution.mk p' st.1.1.1.1 st.1.1.2).
Proof.
  destruct st as [[[[routes rid] c_to_r] visited] draws].
  intros (Hwf & Hkeys & Hr & Hidx & _). split_and!; simpl; [done| |done].
  intros k r Hg. by destruct (Hr _ _ Hg) as (? & ? & _).
Qed.

Lemma constructive_solution_inv (p : Problem.t) (alpha beta : Q) (us : nat → Q)
    (s : Solution.t) :
  constructive_heuristic p alpha beta us = Ok s → solution_inv p s.
Proof.
  unfold constructive_heuristic. intros H.
  apply bind_ok in H as ([[[[routes rid] c_to_r] visited] draws] & H & [= <-]).
  apply (trucks_solution_inv p p (routes, rid, c_to_r, visited, draws)).
  revert H. apply (foldM_inv _ (trucks_inv p)).
  - intros st _ st' _ Hst Hstep. by eapply build_truck_inv.
  - split_and!; try done.
    + apply NoDup_nil_2.
    + by intros k ?%elem_of_nil.
    + intros c k. rewrite lookup_empty. split; [done|]. by intros (r & ? & _).
    + apply elem_of_union; left. by apply elem_of_singleton.
    + apply elem_of_union; right. by apply elem_of_singleton.
Qed.

(** ** Insert and remove *)

Lemma Permutation_ends {A} (x y : A) (mid l : list A) :
  l ≡ₚ x :: (mid ++ [y]) → head l = Some x → last l = Some y →
  ∃ mid', l = x :: (mid' ++ [y]) ∧ mid' ≡ₚ mid.
Proof.
  intros Hp Hh Hl. destruct l as [|x' l]; [done|]. injection Hh as ->.
  apply (inj (x ::.)) in Hp.
  destruct l as [|z l].
  { apply Permutation_length in Hp. rewrite length_app in Hp. simpl in Hp. lia. }
  rewrite last_cons_cons in Hl. apply last_Some in Hl as [mid' Hmid'].
  rewrite Hmid' in *. exists mid'. split; [done|].
  by apply (inj (.++ [y])) in Hp.
Qed.

Lemma opt2_route_wf (p : Problem.t) (route route' : Route.t) (mid : list nat) :
  Route.customers route = source :: (mid ++ [target p]) →
  opt2 p route = Ok route' →
  ∃ mid', Route.customers route' = source :: (mid' ++ [target p]) ∧ mid' ≡ₚ mid ∧
          Route.id route' = Route.id route ∧
          (Route.length route' <= Route.length route)%Q.
Proof.
  intros Hc (Hid & _ & _ & Hp & Hh & Hl & Hle & _)%opt2_inv.
  rewrite Hc in Hp, Hh, Hl.
  destruct (Permutation_ends source (target p) mid (Route.customers route'))
    as (mid' & ? & ?); [done|done| |by exists mid'].
  rewrite Hl. change (source :: (mid ++ [target p])) with ((source :: mid) ++ [target p]).
  apply last_snoc.
Qed.

Lemma py_choice_elem_of {A} (k : nat) (l : list A) (x : A) :
  py_choice k l = Ok x → x ∈ l.
Proof.
  unfold py_choice. destruct l as [|y l]; [done|].
  intros H%py_index_ok. by eapply list_elem_of_lookup_2.
Qed.

Lemma od_keys_get {V} (d : list (nat * V)) (k : nat) :
  k ∈ od_keys d → ∃ v, od_get k d = Some v.
Proof.
  intros Hk. destruct (od_get k d) as [v|] eqn:Hg; [eauto|].
  by apply od_get_None in Hg.
Qed.

Lemma insert_step_inv (p : Problem.t) (route_id : nat)
    (st st' : list (nat * Route.t) * gmap nat nat) (item : nat * Customer.t) :
  solution_inv p (Solution.mk p st.1 st.2) → route_id ∈ od_keys st.1 →
  insert_step p route_id st item = Ok st' →
  solution_inv p (Solution.mk p st'.1 st'.2) ∧ route_id ∈ od_keys st'.1.
Proof.
  destruct st as [routes c_to_r], item as [id c]. simpl.
  intros Hinv Hkey H. unfold insert_step in H.
  case_decide as Hskip; [by injection H as <-|].
  apply bind_ok in H as (route & Hroute%of_option_ok & H).
  apply bind_ok in H as (len & _ & H).
  apply bind_ok in H as (new_route & Hopt & H).
  destruct (Qle_bool _ _); [|by injection H as <-]. injection H as <-. simpl.
  destruct Hinv as (Hwf & Hr & Hidx). unfold reverse_index_exact in Hidx. simpl in *.
  assert (c_to_r !! id = None ∧ id ≠ source ∧ id ≠ target p) as (Hnone & Hns & Hnt).
  { destruct (c_to_r !! id) eqn:E; [|tauto]. destruct Hskip. left. eauto. }
  destruct (Hr _ _ Hroute) as [Hrid Hrwf].
  apply route_wf_interior in Hrwf as (Hcs & Hnd & Hs & Ht).
  set (mid := interior (Route.customers route)) in *.
  assert (id ∉ mid) as Hidmid.
  { intros Hin. assert (c_to_r !! id = Some route_id) as E by (apply Hidx; eauto).
    congruence. }
  apply (opt2_route_wf p _ _ (id :: mid)) in Hopt
    as (mid' & Hcs' & Hp' & Hid' & _); [|simpl; by rewrite Hcs].
  simpl in Hid'.
  split; [|apply od_set_keys_elem_of; by left].
  split_and!; simpl.
  - by apply od_wf_set.
  - intros k r. rewrite od_get_set. case_decide as Hk; [|apply Hr].
    intros [= <-]. split; [by subst|]. exists mid'.
    split_and!; [done|rewrite Hp'; by apply NoDup_cons|..];
      rewrite Hp', not_elem_of_cons; split; auto.
  - intros c' k. simpl. setoid_rewrite od_get_set.
    destruct (decide (c' = id)) as [->|Hne].
    + rewrite lookup_insert_eq. split.
      * intros [= <-]. exists new_route. rewrite decide_True by done.
        split; [done|]. rewrite Hcs', interior_ends, Hp'. by left.
      * intros (r & Hg & Hc). case_decide as Hk; [by subst|]. exfalso.
        assert (c_to_r !! id = Some k) as E by (apply Hidx; eauto). congruence.
    + rewrite lookup_insert_ne by done. rewrite (Hidx c' k). split.
      * intros (r & Hg & Hc). case_decide as Hk; [|eauto].
        subst k. exists new_route. split; [done|].
        rewrite Hcs', interior_ends, Hp'. right.
        rewrite Hroute in Hg. by injection Hg as <-.
      * intros (r & Hg & Hc). case_decide as Hk; [|eauto].
        subst k. injection Hg as <-. exists route. split; [done|].
        rewrite Hcs', interior_ends, Hp' in Hc.
        by apply elem_of_cons in Hc as [?|?].
Qed.

Lemma insert_solution_inv (p : Problem.t) (s s' : Solution.t) (k_route : nat) :
  solution_inv p s → insert p s k_route = Ok s' → solution_inv p s'.
Proof.
  intros Hinv H. unfold insert in H.
  apply bind_ok in H as (route_id & Hrid%py_choice_elem_of & H).
  apply bind_ok in H as ([routes c_to_r] & Hfold & [= <-]).
  revert Hfold.
  apply (foldM_inv _ (λ st, solution_inv p (Solution.mk p st.1 st.2) ∧
                            route_id ∈ od_keys st.1 )).
  - intros st item st' _ [? ?] Hstep. by eapply insert_step_inv.
  - done.
Qed.

Lemma delete_app_lt {A} (l1 l2 : list A) (i : nat) :
  i < length l1 → delete i (l1 ++ l2) = delete i l1 ++ l2.
Proof.
  intros Hi. rewrite !delete_take_drop, take_app_le, drop_app_le by lia.
  by rewrite app_assoc.
Qed.

Lemma remove_candidate_inv (p : Problem.t) (route_id : nat) (route : Route.t)
    (k_idx removed : nat) (new_route : Route.t) :
  remove_candidate p route_id route k_idx = Ok (removed, new_route) →
  ∃ idx a c d_ab d_bc d_ac candidate,
    1 ≤ idx ∧ idx < length (Route.customers route) - 1 ∧
    Route.customers route !! (idx - 1) = Some a ∧
    Route.customers route !! idx = Some removed ∧
    Route.customers route !! (idx + 1) = Some c ∧
    dist p a removed = Ok d_ab ∧ dist p removed c = Ok d_bc ∧ dist p a c = Ok d_ac ∧
    Route.id candidate = route_id ∧
    Route.customers candidate = delete idx (Route.customers route) ∧
    Route.length candidate = (Route.length route - d_ab - d_bc + d_ac)%Q ∧
    opt2 p candidate = Ok new_route.
Proof.
  unfold remove_candidate. intros H.
  apply bind_ok in H as (idx & Hidx & H).
  unfold py_randrange in Hidx. case_decide as Hlt; [|done]. injection Hidx as <-.
  apply bind_ok in H as ([removed' new_customers] & [Hrem ->]%py_pop_inv & H).
  apply bind_ok in H as (rc & _ & H).
  apply bind_ok in H as (a & Ha%py_index_ok & H).
  apply bind_ok in H as (b & Hb%py_index_ok & H).
  apply bind_ok in H as (d_ab & Hab & H).
  apply bind_ok in H as (c & Hc%py_index_ok & H).
  apply bind_ok in H as (d_bc & Hbc & H).
  apply bind_ok in H as (d_ac & Hac & H).
  apply bind_ok in H as (nr & Hopt & [= <- <-]).
  rewrite Hrem in Hb. injection Hb as <-.
  exists (1 + k_idx mod (length (Route.customers route) - 1 - 1)), a, c, d_ab, d_bc, d_ac,
    (Route.mk route_id p
       (delete (1 + k_idx mod (length (Route.customers route) - 1 - 1))
          (Route.customers route))
       (Route.length route - d_ab - d_bc + d_ac)%Q
       (Route.reward route - Customer.reward rc)%Z).
  split_and!; try done.
  - lia.
  - pose proof (Nat.mod_upper_bound k_idx (length (Route.customers route) - 1 - 1)). lia.
Qed.

Lemma remove_inv (p : Problem.t) (s s' : Solution.t) (k_route k_idx : nat) :
  remove p s k_route k_idx = Ok s' →
  ∃ route_id route,
    py_choice k_route (od_keys (Solution.routes s)) = Ok route_id ∧
    od_get route_id (Solution.routes s) = Some route ∧
    (length (Route.customers route) ≤ 3 ∧
       s' = Solution.mk p (Solution.routes s) (Solution.c_to_r s) ∨
     3 < length (Route.customers route) ∧
     ∃ removed new_route,
       remove_candidate p route_id route k_idx = Ok (removed, new_route) ∧
       ((Problem.tmax p < Route.length new_route)%Q ∧
          s' = Solution.mk p (Solution.routes s) (Solution.c_to_r s) ∨
        (Route.length new_route <= Problem.tmax p)%Q ∧
          is_Some (Solution.c_to_r s !! removed) ∧
          s' = Solution.mk p (od_set route_id new_route (Solution.routes s))
                 (delete removed (Solution.c_to_r s)))).
Proof.
  unfold remove. intros H.
  apply bind_ok in H as (route_id & Hrid & H).
  apply bind_ok in H as (route & Hroute%of_option_ok & H).
  exists route_id, route. split_and!; [done..|].
  case_decide as Hlen; [injection H as <-; by left|]. right. split; [lia|].
  apply bind_ok in H as ([removed new_route] & Hcand & H).
  exists removed, new_route. split; [done|].
  destruct (Qle_bool _ _) eqn:Hle.
  - apply Qle_bool_iff in Hle. right.
    apply bind_ok in H as (c_to_r' & Hpop & [= <-]). unfold c_to_r_pop in Hpop.
    destruct (Solution.c_to_r s !! removed) eqn:E; [|done]. injection Hpop as <-.
    split_and!; [done|eauto|done].
  - apply Qle_bool_false in Hle. injection H as <-. by left.
Qed.

Lemma remove_solution_inv (p : Problem.t) (s s' : Solution.t) (k_route k_idx : nat) :
  solution_inv p s → remove p s k_route k_idx = Ok s' → solution_inv p s'.
Proof.
  intros Hinv (route_id & route & _ & Hroute & Hcases)%remove_inv.
  destruct Hcases as [[_ ->]|(Hlen & removed & new_route & Hcand & [[_ ->]|(_ & _ & ->)])];
    [done..|].
  destruct Hinv as (Hwf & Hr & Hidx). unfold reverse_index_exact in Hidx.
  destruct (Hr _ _ Hroute) as [Hrid Hrwf].
  apply route_wf_interior in Hrwf as (Hcs & Hnd & Hs & Ht).
  set (mid := interior (Route.customers route)) in *.
  apply remove_candidate_inv in Hcand
    as (idx & a & c & d_ab & d_bc & d_ac & cand & Hidx1 & Hidx2 & _ & Hrem & _ & _ & _ & _
        & Hcid & Hccs & _ & Hopt).
  rewrite Hcs in Hidx2, Hrem, Hccs. simpl in Hidx2. rewrite length_app in Hidx2.
  simpl in Hidx2.
  destruct idx as [|i]; [lia|]. simpl in Hrem, Hccs.
  rewrite lookup_app_l in Hrem by lia. rewrite delete_app_lt in Hccs by lia.
  pose proof (delete_Permutation mid i removed Hrem) as Hpm.
  assert ((removed ∉ delete i mid) ∧ NoDup (delete i mid)) as [Hrd Hndd].
  { rewrite Hpm in Hnd. by apply NoDup_cons in Hnd. }
  apply (opt2_route_wf p _ _ (delete i mid)) in Hopt
    as (mid' & Hcs' & Hp' & Hid' & _); [|done].
  rewrite Hcid in Hid'.
  assert (∀ x, x ∈ mid' ↔ x ∈ mid ∧ x ≠ removed) as Hmid'.
  { intros x. split.
    - intros Hx. rewrite Hp' in Hx. split; [by eapply list_elem_of_delete_inv|].
      by intros ->.
    - intros [Hx Hne]. rewrite Hp'. rewrite Hpm in Hx.
      by apply elem_of_cons in Hx as [?|?]. }
  split_and!; simpl.
  - by apply od_wf_set.
  - intros k r. rewrite od_get_set. case_decide as Hk; [|apply Hr].
    intros [= <-]. split; [by subst|]. exists mid'.
    split_and!; [done|by rewrite Hp'|..]; rewrite Hmid'; tauto.
  - intros x k. simpl. setoid_rewrite od_get_set.
    destruct (decide (x = removed)) as [->|Hne].
    + rewrite lookup_delete_eq. split; [done|].
      intros (r & Hg & Hx). case_decide as Hk.
      * injection Hg as <-. rewrite Hcs', interior_ends in Hx.
        apply Hmid' in Hx. tauto.
      * destruct Hk.
        assert (Solution.c_to_r s !! removed = Some k) as E1 by (apply Hidx; eauto).
        assert (Solution.c_to_r s !! removed = Some route_id) as E2.
        { apply Hidx. exists route. split; [done|]. by eapply list_elem_of_lookup_2. }
        congruence.
    + rewrite lookup_delete_ne by done. rewrite (Hidx x k). split.
      * intros (r & Hg & Hx). case_decide as Hk; [|eauto].
        subst k. exists new_route. split; [done|].
        rewrite Hcs', interior_ends, Hmid'. split; [|done].
        rewrite Hroute in Hg. by injection Hg as <-.
      * intros (r & Hg & Hx). case_decide as Hk; [|eauto].
        subst k. injection Hg as <-. exists route. split; [done|].
        rewrite Hcs', interior_ends, Hmid' in Hx. tauto.
Qed.


(** ** The reverse index *)

Lemma savings_heuristic_solution_inv (p : Problem.t) (alpha beta : Q) (us : nat → Q)
    (seed : option nat) (h h' : heap) (ref : nat) :
  od_wf (Problem.customers p) →
  (∀ ref0 s, seed = Some ref0 → h !! ref0 = Some s → solution_inv p s) →
  savings_heuristic p alpha beta us seed h = Ok (ref, h') →
  ∃ s', h' !! ref = Some s' ∧ solution_inv p s'.
Proof.
  intros Hwf Hseed (s & s' & Hs & Hrun & Href)%savings_heuristic_inv.
  exists s'. split; [done|].
  apply (savings_run_solution_inv p alpha beta us s); [|done].
  destruct seed as [ref0|].
  - destruct Hs as (Hs & _). by eapply Hseed.
  - destruct Hs as (Hs & _). by apply init_solution_inv in Hs as [? _].
Qed.

(** C3 -- the solutions returned by [savings_heuristic], by
    [constructive_heuristic], by [insert] and by [remove] have a reverse index
    that is exactly the membership relation of their routes, and no customer
    other than the depots on two routes; for a seeded [savings_heuristic],
    [insert] and [remove] this is kept from the solution they are given. *)
Theorem reverse_index_mirrors_routes (p : Problem.t) (alpha beta : Q) (us : nat → Q)
    (seed : option nat) (h : heap) (s : Solution.t) (k_route k_idx : nat) :
  od_wf (Problem.customers p) →
  (∀ ref0 s0, seed = Some ref0 → h !! ref0 = Some s0 → solution_inv p s0) →
  solution_inv p s →
  (∀ ref h', savings_heuristic p alpha beta us seed h = Ok (ref, h') →
     ∃ s', h' !! ref = Some s' ∧
           reverse_index_exact s' ∧ one_route_per_customer p s' ∧ solution_inv p s') ∧
  (∀ s', constructive_heuristic p alpha beta us = Ok s' →
     reverse_index_exact s' ∧ one_route_per_customer p s' ∧ solution_inv p s') ∧
  (∀ s', insert p s k_route = Ok s' →
     reverse_index_exact s' ∧ one_route_per_customer p s' ∧ solution_inv p s') ∧
  (∀ s', remove p s k_route k_idx = Ok s' →
     reverse_index_exact s' ∧ one_route_per_customer p s' ∧ solution_inv p s').
Proof.
  intros Hwf Hseed Hs.
  assert (∀ s', solution_inv p s' →
            reverse_index_exact s' ∧ one_route_per_customer p s' ∧ solution_inv p s')
    as Hall.
  { intros s' Hinv. split_and!; [by destruct Hinv as (_ & _ & ?)| |done].
    by apply solution_inv_one_route. }
  split_and!.
  - intros ref h' H.
    destruct (savings_heuristic_solution_inv p alpha beta us seed h h' ref Hwf Hseed H)
      as (s' & ? & ?).
    exists s'. split; [done|]. by apply Hall.
  - intros s' H. by apply Hall, (constructive_solution_inv p alpha beta us).
  - intros s' H. by apply Hall, (insert_solution_inv p s s' k_route).
  - intros s' H. by apply Hall, (remove_solution_inv p s s' k_route k_idx).
Qed.

(** ** Aliasing *)


(** ** Shaking *)

Lemma c_to_r_pop_all (m : gmap nat nat) (l : list nat) :
  NoDup l → (∀ c, c ∈ l → is_Some (m !! c)) → ∃ m', foldM c_to_r_pop m l = Ok m'.
Proof.
  revert m. induction l as [|c l IH]; intros m Hnd Hin; simpl; [eauto|].
  apply NoDup_cons in Hnd as [Hc Hnd].
  destruct (Hin c) as [k Hk]; [by left|].
  assert (c_to_r_pop m c = Ok (delete c m)) as -> by (unfold c_to_r_pop; by rewrite Hk).
  simpl. apply IH; [done|]. intros c' Hc'. rewrite lookup_delete_ne; [apply Hin; by right|].
  by intros ->.
Qed.

(** C7 -- on a solution that has exactly one route, [shaking] raises
    [ValueError]: once the selected route is popped, [max(routes.keys())] is
    taken of an empty dictionary. *)
Theorem shaking_single_route (p : Problem.t) (s : Solution.t) (alpha beta : Q)
    (k_route : nat) (us : nat → Q) :
  solution_inv p s → length (Solution.routes s) = 1 →
  shaking p s alpha beta k_route us = Err ValueError.
Proof.
  intros (Hwf & Hr & Hidx) Hlen.
  destruct (Solution.routes s) as [|[k0 r0] [|? ?]] eqn:Hroutes; try done.
  unfold shaking, shaking_start. rewrite Hroutes.
  assert (py_choice k_route (od_keys [(k0, r0)]) = Ok k0) as ->.
  { unfold py_choice, od_keys. change (length [(k0, r0)].*1) with 1.
    by rewrite Nat.mod_1_r. }
  simpl. unfold od_pop. simpl. rewrite decide_True by done. simpl.
  destruct (c_to_r_pop_all (Solution.c_to_r s) (interior (Route.customers r0)))
    as [m' Hm'].
  - assert (od_get k0 [(k0, r0)] = Some r0) as Hg by (simpl; by rewrite decide_True).
    destruct (Hr _ _ Hg) as [_ Hw]. by apply route_wf_interior in Hw as (_ & ? & _).
  - intros c Hc. exists k0. apply Hidx. exists r0. split; [|done].
    rewrite Hroutes. simpl. by rewrite decide_True.
  - rewrite Hm'. simpl. by rewrite decide_True.
Qed.

(** ** The checks of a table are sound *)



(** ** The example instances *)

Lemma ex_customers_wf (n : nat) : od_wf (Problem.customers (ex_problem n)).
Proof. unfold od_wf. simpl. apply (bool_decide_unpack _). by vm_compute. Qed.

Lemma ex_init_inv : solution_inv (ex_problem 2) ex_init.
Proof.
  apply (init_solution_inv (ex_problem 2) ex_init (ex_customers_wf 2)).
  by vm_compute.
Qed.

Lemma ex_single_inv : solution_inv (ex_problem 1) ex_single.
Proof.
  apply (constructive_solution_inv (ex_problem 1) (3 # 10) (3 # 10) (λ _, 1 # 2)).
  by vm_compute.
Qed.

Lemma ex_partial_inv : solution_inv (ex_problem 1) ex_partial.
Proof.
  apply (remove_solution_inv (ex_problem 1) ex_single ex_partial 0 1 ex_single_inv).
  by vm_compute.
Qed.

(** ** The theorems on the example instances *)



Lemma reverse_index_mirrors_routes_witness :
  (∃ s', [ex_merged] !! 0 = Some s' ∧ reverse_index_exact s') ∧
  (∃ s', constructive_heuristic (ex_problem 2) (3 # 10) (3 # 10) (λ _, 1 # 2) = Ok s' ∧
         reverse_index_exact s') ∧
  (∃ s', insert (ex_problem 2) ex_init 0 = Ok s' ∧ reverse_index_exact s') ∧
  (∃ s', remove (ex_problem 2) ex_init 0 0 = Ok s' ∧ reverse_index_exact s').
Proof.
  destruct (reverse_index_mirrors_routes (ex_problem 2) (3 # 10) (3 # 10) (λ _, 1 # 2)
              None [] ex_init 0 0 (ex_customers_wf 2)) as (Hs & Hc & Hi & Hr).
  - discriminate.
  - exact ex_init_inv.
  - split_and!.
    + destruct (Hs 0 [ex_merged]) as (s' & ? & ? & _); [by vm_compute|]. by exists s'.
    + destruct (constructive_heuristic (ex_problem 2) (3 # 10) (3 # 10) (λ _, 1 # 2))
        as [s'|] eqn:E; [|by vm_compute in E].
      exists s'. split; [done|]. by apply Hc.
    + destruct (insert (ex_problem 2) ex_init 0) as [s'|] eqn:E; [|by vm_compute in E].
      exists s'. split; [done|]. by apply Hi.
    + destruct (remove (ex_problem 2) ex_init 0 0) as [s'|] eqn:E; [|by vm_compute in E].
      exists s'. split; [done|]. by apply Hr.
Defined.






Lemma shaking_single_route_witness :
  shaking (ex_problem 1) ex_single (3 # 10) (3 # 10) 0 (λ _, 1 # 2) = Err ValueError.
Proof.
  apply (shaking_single_route (ex_problem 1) ex_single).
  - exact ex_single_inv.
  - reflexivity.
Defined.

Lemma stochastic_reward_bounds_witness :
  length (feasible_trials (ex_problem 1)
            (Route.mk 0 (ex_problem 1) [0; 1; 2; 3] 4 12) 4 ex_sim) ≤ 4 ∧
  (0 <= 12 * (2 / 4))%Q ∧ (12 * (2 / 4) <= inject_Z 12)%Q.
Proof.
  destruct (stochastic_reward_bounds (ex_problem 1)
              (Route.mk 0 (ex_problem 1) [0; 1; 2; 3] 4 12) 4 ex_sim
              (12 * (2 / 4))%Q) as (_ & ? & ? & ?); [done|lia|by vm_compute|].
  done.
Defined.

(** * Further properties of the code *)

(** ** Reading an instance *)

Lemma od_of_list_NoDup {K V} `{EqDecision K} (l : list (K * V)) :
  NoDup l.*1 → od_of_list l = l.
Proof.
  unfold od_of_list.
  assert (∀ acc, NoDup (acc ++ l).*1 →
            foldl (λ d kv, od_set kv.1 kv.2 d) acc l = acc ++ l) as Hgen.
  { induction l as [|[k v] l IH]; intros acc Hnd; simpl; [by rewrite app_nil_r|].
    assert (od_set k v acc = acc ++ [(k, v)]) as ->.
    { rewrite fmap_app in Hnd. apply NoDup_app in Hnd as (_ & Hdis & _).
      assert (k ∉ acc.*1) as Hk.
      { intros Hin. apply (Hdis k Hin). simpl. by left. }
      clear -Hk. induction acc as [|[k' v'] acc IH]; simpl; [done|].
      simpl in Hk. apply not_elem_of_cons in Hk as [? ?].
      rewrite decide_False by done. by rewrite IH. }
    rewrite IH; [by rewrite <- app_assoc|]. by rewrite <- app_assoc. }
  intros Hnd. by apply (Hgen []).
Qed.

Lemma imap_fst_seq {A B} (f : nat → A → B) (l : list A) :
  (imap (λ i x, (i, f i x)) l).*1 = seq 0 (length l).
Proof.
  assert (∀ n, (imap (λ i x, (n + i, f (n + i) x)) l).*1 = seq n (length l)) as Hgen.
  { induction l as [|x l IH]; intros n; simpl; [done|].
    rewrite Nat.add_0_r. f_equal.
    rewrite <- (IH (S n)). f_equal. apply imap_ext. intros i y _. simpl.
    by rewrite Nat.add_succ_r. }
  apply (Hgen 0).
Qed.

Lemma read_customers_eq (rows : list (Q * Q * Z)) :
  read_customers rows = imap (λ i row, (i, Customer.mk i row.1.1 row.1.2 row.2)) rows.
Proof.
  unfold read_customers. apply od_of_list_NoDup.
  rewrite (imap_fst_seq (λ i row, Customer.mk i row.1.1 row.1.2 row.2)).
  apply NoDup_seq.
Qed.

Lemma imap_lookup_pair {A B} (f : nat → A → B) (l : list A) (i : nat) :
  imap (λ i x, (i, f i x)) l !! i = (λ x, (i, f i x)) <$> l !! i.
Proof. by rewrite list_lookup_imap. Qed.

Lemma od_get_imap {A B} (f : nat → A → B) (l : list A) (i : nat) :
  od_get i (imap (λ i x, (i, f i x)) l) = f i <$> l !! i.
Proof.
  set (d := imap (λ i x, (i, f i x)) l).
  assert (NoDup d.*1) as Hnd by (unfold d; rewrite imap_fst_seq; apply NoDup_seq).
  destruct (l !! i) as [x|] eqn:Hx; simpl.
  - apply od_get_wf; [done|]. apply list_elem_of_lookup. exists i.
    unfold d. by rewrite imap_lookup_pair, Hx.
  - apply od_get_None. unfold od_keys, d. rewrite imap_fst_seq.
    apply lookup_ge_None in Hx. rewrite elem_of_seq. lia.
Qed.

(** *** Pairs of a list *)

Lemma elem_of_combinations2 {A} (l : list A) (x y : A) :
  (x, y) ∈ combinations2 l ↔ ∃ i j, i < j ∧ l !! i = Some x ∧ l !! j = Some y.
Proof.
  induction l as [|z l IH]; simpl.
  - split; [by intros ?%elem_of_nil|by intros (i & j & _ & ? & _)].
  - rewrite elem_of_app, list_elem_of_fmap, IH. split.
    + intros [(y' & [= -> ->] & Hy)|(i & j & Hij & Hi & Hj)].
      * apply list_elem_of_lookup in Hy as [j Hj]. exists 0, (S j). split_and!; [lia|done..].
      * exists (S i), (S j). split_and!; [lia|done..].
    + intros (i & j & Hij & Hi & Hj). destruct i as [|i], j as [|j]; try lia; simpl in *.
      * injection Hi as ->. left. exists y. split; [done|]. by eapply list_elem_of_lookup_2.
      * right. exists i, j. split_and!; [lia|done..].
Qed.

Section read_instance_facts.
Context (euclidean : Q → Q → Q → Q → Q).

Lemma read_dists_od_of_list (customers : list (nat * Customer.t)) :
read_dists euclidean customers = od_of_list (combinations2 customers ≫= table_entries euclidean).
Proof.
unfold read_dists, od_of_list. generalize (@nil ((nat * nat) * Q)) as acc.
induction (combinations2 customers) as [|[[i c1] [j c2]] l IH]; intros acc; [done|].
simpl. by rewrite IH.
Qed.

Lemma table_entries_keys (customers : list (nat * Customer.t)) (k : nat * nat) :
k ∈ (combinations2 customers ≫= table_entries euclidean).*1 →
k.1 ∈ customers.*1 ∧ k.2 ∈ customers.*1.
Proof.
intros ([k' d] & -> & Hin)%list_elem_of_fmap.
apply list_elem_of_bind in Hin as ([[i c1] [j c2]] & He & Hc).
apply elem_of_combinations2 in Hc as (a & b & _ & Ha & Hb).
apply list_elem_of_lookup_2 in Ha, Hb.
assert (i ∈ customers.*1) by (apply list_elem_of_fmap; by exists (i, c1)).
assert (j ∈ customers.*1) by (apply list_elem_of_fmap; by exists (j, c2)).
unfold table_entries in He. simpl in He.
apply elem_of_cons in He as [[= -> _]|He]; [done|].
apply elem_of_cons in He as [[= -> _]|He]; [done|].
by apply elem_of_nil in He.
Qed.

Lemma table_entries_NoDup (customers : list (nat * Customer.t)) :
NoDup customers.*1 → NoDup (combinations2 customers ≫= table_entries euclidean).*1.
Proof.
induction customers as [|[k c] rest IH]; simpl; [intros _; apply NoDup_nil_2|].
intros [Hk Hnd]%NoDup_cons. rewrite bind_app, fmap_app.
apply NoDup_app. split_and!.
- clear IH. induction rest as [|[k' c'] rest IH]; simpl; [apply NoDup_nil_2|].
  simpl in Hk, Hnd. apply not_elem_of_cons in Hk as [Hkk' Hk].
  apply NoDup_cons in Hnd as [Hk' Hnd].
  assert (∀ key, key ∈ ((map (pair (k, c)) rest) ≫= table_entries euclidean).*1 →
            (key.1 = k ∧ key.2 ∈ rest.*1) ∨ (key.2 = k ∧ key.1 ∈ rest.*1)) as Hkeys.
  { intros key ([key' d] & -> & Hin)%list_elem_of_fmap.
    apply list_elem_of_bind in Hin as (pr & He & Hc).
    apply list_elem_of_fmap in Hc as ([k2 c2] & -> & Hc).
    assert (k2 ∈ rest.*1) by (apply list_elem_of_fmap; by exists (k2, c2)).
    unfold table_entries in He. simpl in He.
    apply elem_of_cons in He as [[= -> _]|He]; [by left|].
    apply elem_of_cons in He as [[= -> _]|He]; [by right|].
    by apply elem_of_nil in He. }
  apply NoDup_cons. split.
  { intros [[= ? ?]|[Hin|Hin]%Hkeys]%elem_of_cons; simpl in *; try done.
    all: destruct Hin; done. }
  apply NoDup_cons. split; [|by apply IH].
  intros [Hin|Hin]%Hkeys; simpl in *; destruct Hin; done.
- intros key Hin1 [Hin2 Hin3]%table_entries_keys.
  apply list_elem_of_fmap in Hin1 as ([key' d] & -> & Hin).
  apply list_elem_of_bind in Hin as (pr & He & Hc).
  apply list_elem_of_fmap in Hc as ([k2 c2] & -> & Hc).
  unfold table_entries in He. simpl in *.
  apply elem_of_cons in He as [[= -> _]|He]; [done|].
  apply elem_of_cons in He as [[= -> _]|He]; [done|].
  by apply elem_of_nil in He.
- by apply IH.
Qed.

Lemma read_dists_get (rows : list (Q * Q * Z)) (i j : nat) (d : Q) :
od_get (i, j) (read_dists euclidean (read_customers rows)) = Some d ↔
∃ ri rj, rows !! i = Some ri ∧ rows !! j = Some rj ∧
  (i < j ∧ d = euclidean ri.1.1 ri.1.2 rj.1.1 rj.1.2 ∨
   j < i ∧ d = euclidean rj.1.1 rj.1.2 ri.1.1 ri.1.2).
Proof.
rewrite read_dists_od_of_list, read_customers_eq.
set (mk := λ (i : nat) (row : Q * Q * Z), Customer.mk i row.1.1 row.1.2 row.2).
set (customers := imap (λ i row, (i, mk i row)) rows).
assert (NoDup customers.*1) as Hnd.
{ unfold customers. rewrite imap_fst_seq. apply NoDup_seq. }
rewrite od_get_of_list by by apply table_entries_NoDup.
assert (∀ a kc, customers !! a = Some kc ↔ ∃ row, rows !! a = Some row ∧ kc = (a, mk a row))
  as Hlook.
{ intros a kc. unfold customers. rewrite imap_lookup_pair.
  destruct (rows !! a) as [row|]; simpl; split.
  - intros [= <-]. eauto.
  - by intros (row' & [= <-] & ->).
  - done.
  - by intros (? & ? & _). }
rewrite list_elem_of_bind. split.
- intros ([[a ca] [b cb]] & He & Hc).
  apply elem_of_combinations2 in Hc as (ia & ib & Hlt & Ha & Hb).
  apply Hlook in Ha as (ra & Hra & [= -> ->]), Hb as (rb & Hrb & [= -> ->]).
  unfold table_entries in He. simpl in He.
  apply elem_of_cons in He as [[= -> -> ->]|He]; [exists ra, rb; by eauto|].
  apply elem_of_cons in He as [[= -> -> ->]|He]; [exists rb, ra; by eauto|].
  by apply elem_of_nil in He.
- intros (ri & rj & Hi & Hj & [[Hlt ->]|[Hlt ->]]).
  + exists ((i, mk i ri), (j, mk j rj)). split; [by left|].
    apply elem_of_combinations2. exists i, j. split_and!; [done|by apply Hlook; eauto..].
  + exists ((j, mk j rj), (i, mk i ri)). split; [right; by left|].
    apply elem_of_combinations2. exists j, i. split_and!; [done|by apply Hlook; eauto..].
Qed.
End read_instance_facts.

(** The customers of an instance are numbered from 0 in the order of the
    rows, each record under its own id, so that the sink
    [len(p.customers) - 1] is the last row. *)
Theorem read_instance_customers (euclidean : Q → Q → Q → Q → Q) (filename : string)
    (n_trucks : nat) (tmax : Q) (rows : list (Q * Q * Z)) :
  let p := read_instance euclidean filename n_trucks tmax rows in
  od_keys (Problem.customers p) = seq 0 (length rows) ∧
  od_wf (Problem.customers p) ∧
  target p = length rows - 1 ∧
  ∀ i, customer p i =
       match rows !! i with
       | Some row => Ok (Customer.mk i row.1.1 row.1.2 row.2)
       | None => Err KeyError
       end.
Proof.
  simpl. rewrite read_customers_eq.
  assert (od_keys (imap (λ i row, (i, Customer.mk i row.1.1 row.1.2 row.2)) rows)
          = seq 0 (length rows)) as Hkeys.
  { unfold od_keys. apply (imap_fst_seq (λ i row, Customer.mk i row.1.1 row.1.2 row.2)). }
  split_and!.
  - done.
  - unfold od_wf. unfold od_keys in Hkeys. rewrite Hkeys. apply NoDup_seq.
  - unfold target. simpl. rewrite read_customers_eq.
    apply (f_equal length) in Hkeys. unfold od_keys in Hkeys.
    rewrite length_fmap, length_seq in Hkeys. by rewrite Hkeys.
  - intros i. unfold customer, od_lookup. simpl. rewrite read_customers_eq.
    rewrite (od_get_imap (λ i row, Customer.mk i row.1.1 row.1.2 row.2)).
    by destruct (rows !! i).
Qed.

(** The table of an instance has an entry for each ordered pair of distinct
    customers and for nothing else: the distance computed once for the pair,
    stored in both directions.  A customer has no distance to itself. *)
Theorem read_instance_table (euclidean : Q → Q → Q → Q → Q) (filename : string)
    (n_trucks : nat) (tmax : Q) (rows : list (Q * Q * Z)) (i j : nat) :
  let p := read_instance euclidean filename n_trucks tmax rows in
  (∀ d, dist p i j = Ok d ↔
        ∃ ri rj, rows !! i = Some ri ∧ rows !! j = Some rj ∧
          (i < j ∧ d = euclidean ri.1.1 ri.1.2 rj.1.1 rj.1.2 ∨
           j < i ∧ d = euclidean rj.1.1 rj.1.2 ri.1.1 ri.1.2)) ∧
  dist p i i = Err KeyError ∧
  (i < length rows → j < length rows → i ≠ j → ∃ d, dist p i j = Ok d ∧ dist p j i = Ok d).
Proof.
  simpl.
  assert (∀ a b d, dist (read_instance euclidean filename n_trucks tmax rows) a b = Ok d ↔
            ∃ ri rj, rows !! a = Some ri ∧ rows !! b = Some rj ∧
              (a < b ∧ d = euclidean ri.1.1 ri.1.2 rj.1.1 rj.1.2 ∨
               b < a ∧ d = euclidean rj.1.1 rj.1.2 ri.1.1 ri.1.2)) as Hget.
  { intros a b d. unfold dist, od_lookup. simpl. rewrite of_option_ok.
    apply read_dists_get. }
  split_and!.
  - apply Hget.
  - destruct (dist _ i i) as [d|e] eqn:Hd.
    + apply Hget in Hd as (? & ? & _ & _ & [[? _]|[? _]]); lia.
    + by apply dist_err in Hd as ->.
  - intros Hi Hj Hne.
    destruct (lookup_lt_is_Some_2 rows i Hi) as [ri Hri].
    destruct (lookup_lt_is_Some_2 rows j Hj) as [rj Hrj].
    destruct (decide (i < j)).
    + exists (euclidean ri.1.1 ri.1.2 rj.1.1 rj.1.2).
      split; apply Hget; [exists ri, rj|exists rj, ri]; eauto 6.
    + exists (euclidean rj.1.1 rj.1.2 ri.1.1 ri.1.2).
      split; apply Hget; [exists ri, rj|exists rj, ri]; split_and!; try done.
      * right. split; [lia|done].
      * left. split; [lia|done].
Qed.

Lemma read_instance_symmetric (euclidean : Q → Q → Q → Q → Q) (filename : string)
    (n_trucks : nat) (tmax : Q) (rows : list (Q * Q * Z)) :
  symmetric (read_instance euclidean filename n_trucks tmax rows).
Proof.
  intros i j d Hd. exists d. split; [|reflexivity].
  unfold dist, od_lookup in *. simpl in *. rewrite of_option_ok in *.
  apply read_dists_get in Hd as (ri & rj & Hi & Hj & Hcase).
  apply read_dists_get. exists rj, ri. split_and!; [done..|tauto].
Qed.

Lemma read_instance_covers (euclidean : Q → Q → Q → Q → Q) (filename : string)
    (n_trucks : nat) (tmax : Q) (rows : list (Q * Q * Z)) (l : list nat) :
  (∀ c, c ∈ l → c < length rows) →
  covers (read_instance euclidean filename n_trucks tmax rows) l.
Proof.
  intros Hl a b Ha%Hl Hb%Hl Hne.
  destruct (lookup_lt_is_Some_2 rows a Ha) as [ra Hra].
  destruct (lookup_lt_is_Some_2 rows b Hb) as [rb Hrb].
  unfold dist, od_lookup. simpl.
  destruct (decide (a < b)).
  - exists (euclidean ra.1.1 ra.1.2 rb.1.1 rb.1.2). apply of_option_ok, read_dists_get.
    exists ra, rb. split_and!; [done..|]. left. done.
  - exists (euclidean rb.1.1 rb.1.2 ra.1.1 ra.1.2). apply of_option_ok, read_dists_get.
    exists ra, rb. split_and!; [done..|]. right. split; [lia|done].
Qed.

(** On the table of an instance, 2-opt always returns: for every route that
    visits customers of the instance, none of them twice, it ends without an
    exception, with the same customers between the same two ends and a
    recorded length that has not grown. *)
Theorem opt2_on_instance (euclidean : Q → Q → Q → Q → Q) (filename : string)
    (n_trucks : nat) (tmax : Q) (rows : list (Q * Q * Z)) (route : Route.t) :
  NoDup (Route.customers route) →
  (∀ c, c ∈ Route.customers route → c < length rows) →
  ∃ route', opt2 (read_instance euclidean filename n_trucks tmax rows) route = Ok route' ∧
            Route.customers route' ≡ₚ Route.customers route ∧
            head (Route.customers route') = head (Route.customers route) ∧
            last (Route.customers route') = last (Route.customers route) ∧
            (Route.length route' <= Route.length route)%Q.
Proof.
  intros Hnd Hin.
  set (p := read_instance euclidean filename n_trucks tmax rows).
  pose proof (read_instance_symmetric euclidean filename n_trucks tmax rows) as Hsym.
  pose proof (read_instance_covers euclidean filename n_trucks tmax rows _ Hin) as Hcov.
  pose proof (opt2_terminates p route Hsym) as Hterm.
  assert (∃ route', opt2 p route = Ok route') as [route' Hr].
  { unfold opt2 in *.
    destruct (opt2_loop_total p (Route.customers route)
                (fact (length (Route.customers route)))
                (Route.customers route) (Route.length route)) as [[cs len] Hr];
      [done..| |].
    - intros Hf. apply Hterm. by rewrite Hf.
    - rewrite Hr. simpl. eauto. }
  exists route'. split; [done|].
  apply opt2_inv in Hr as (_ & _ & _ & ? & ? & ? & ? & _). done.
Qed.

Lemma opt2_on_instance_witness :
  ∃ route',
    opt2 (ex_instance 1) (Route.mk 0 (ex_instance 1) [0; 2; 1; 3] 6 12) = Ok route' ∧
    Route.customers route' ≡ₚ [0; 2; 1; 3] ∧
    head (Route.customers route') = Some 0 ∧ last (Route.customers route') = Some 3 ∧
    (Route.length route' <= 6)%Q.
Proof.
  apply (opt2_on_instance ex_metric "line4" 1 10 ex_rows
           (Route.mk 0 (ex_instance 1) [0; 2; 1; 3] 6 12)).
  - apply (bool_decide_unpack _). by vm_compute.
  - intros c Hc. simpl in *. set_unfold. lia.
Defined.

(** ** 2-opt stops at a local optimum *)

(** A fold whose steps either leave the state alone or raise a flag that
    stays raised: if the flag is down at the end, no step did anything. *)
Lemma foldM_unchanged {A S} (f : S → A → result S) (flag : S → Prop)
    (l : list A) (s s' : S) :
  (∀ s a s', f s a = Ok s' → s' = s ∨ flag s') →
  (∀ s a s', flag s → f s a = Ok s' → flag s') →
  foldM f s l = Ok s' → ¬ flag s' →
  s' = s ∧ ∀ a, a ∈ l → f s a = Ok s.
Proof.
  intros Hstep Hkeep. revert s.
  induction l as [|a l IH]; intros s H Hflag; simpl in H.
  - injection H as <-. split; [done|]. by intros a ?%elem_of_nil.
  - apply bind_ok in H as (s1 & Hs1 & H).
    assert (¬ flag s1) as Hs1flag.
    { intros Hf. apply Hflag. clear IH Hs1. revert s1 H Hf.
      induction l as [|b l IH]; intros s1 H Hf; simpl in H.
      - by injection H as <-.
      - apply bind_ok in H as (s2 & Hs2 & H). eapply IH; [done|]. by eapply Hkeep. }
    destruct (Hstep _ _ _ Hs1) as [->|?]; [|done].
    destruct (IH s H Hflag) as [-> Hall]. split; [done|].
    intros b [->|Hb]%elem_of_cons; [done|by apply Hall].
Qed.

Lemma opt2_step_flag (p : Problem.t) (i j : nat) (st st' : list nat * Q * bool) :
  opt2_step p i j st = Ok st' → st' = st ∨ st'.2 = true.
Proof.
  destruct st as [[cs len] imp]. intros H.
  apply opt2_step_inv in H
    as (a & b & c & d & d_ab & d_cd & d_ac & d_bd & _ & _ & _ & _ & _ & _ & _ & _
        & [[_ ->]|[_ ->]]); [by left|by right].
Qed.

Lemma opt2_step_keep (p : Problem.t) (i j : nat) (st st' : list nat * Q * bool) :
  st.2 = true → opt2_step p i j st = Ok st' → st'.2 = true.
Proof.
  intros Hst H. destruct (opt2_step_flag _ _ _ _ _ H) as [->|?]; done.
Qed.

Lemma opt2_row_flag (p : Problem.t) (n i : nat) (st st' : list nat * Q * bool) :
  opt2_row p n i st = Ok st' → st' = st ∨ st'.2 = true.
Proof.
  unfold opt2_row. intros H.
  destruct (decide (st'.2 = true)) as [?|Hf]; [by right|left].
  by destruct (foldM_unchanged _ (λ s, s.2 = true) _ _ _
                 (λ s j s', opt2_step_flag p i j s s') (λ s j s', opt2_step_keep p i j s s') H Hf).
Qed.

Lemma opt2_row_keep (p : Problem.t) (n i : nat) (st st' : list nat * Q * bool) :
  st.2 = true → opt2_row p n i st = Ok st' → st'.2 = true.
Proof.
  unfold opt2_row. intros Hst.
  apply (foldM_inv _ (λ s, s.2 = true)); [|done].
  intros s j s' _ Hs Hstep. by eapply opt2_step_keep.
Qed.

(** A sweep that reports no improvement has tried every pair [(i, j)] on the
    sequence it was given and found none that shortens it. *)
Lemma opt2_sweep_fixed (p : Problem.t) (cs : list nat) (len : Q)
    (st' : list nat * Q * bool) :
  opt2_sweep p (length cs) (cs, len, false) = Ok st' → st'.2 = false →
  st' = (cs, len, false) ∧
  ∀ i j, 1 ≤ i → i + 2 ≤ j → j < length cs →
         opt2_step p i j (cs, len, false) = Ok (cs, len, false).
Proof.
  unfold opt2_sweep. intros H Hf.
  assert (¬ st'.2 = true) as Hf' by (rewrite Hf; done).
  destruct (foldM_unchanged _ (λ s, s.2 = true) _ _ _
              (λ s i s', opt2_row_flag p (length cs) i s s') (λ s i s', opt2_row_keep p (length cs) i s s') H Hf')
    as [-> Hrows].
  split; [done|]. intros i j Hi Hij Hj.
  assert (opt2_row p (length cs) i (cs, len, false) = Ok (cs, len, false)) as Hrow.
  { apply Hrows. apply elem_of_seq. lia. }
  unfold opt2_row in Hrow.
  assert (¬ (cs, len, false).2 = true) as Hff by done.
  destruct (foldM_unchanged _ (λ s, s.2 = true) _ _ _
              (λ s j s', opt2_step_flag p i j s s') (λ s j s', opt2_step_keep p i j s s') Hrow Hff) as [_ Hsteps].
  apply Hsteps. apply elem_of_seq. lia.
Qed.

Lemma opt2_loop_fixed (p : Problem.t) (fuel : nat) (cs : list nat) (len : Q)
    (cs' : list nat) (len' : Q) :
  opt2_loop fuel p cs len = Ok (cs', len') →
  ∀ i j, 1 ≤ i → i + 2 ≤ j → j < length cs' →
         opt2_step p i j (cs', len', false) = Ok (cs', len', false).
Proof.
  revert cs len. induction fuel as [|fuel IH]; intros cs len H; simpl in H; [done|].
  apply bind_ok in H as ([[cs1 len1] imp1] & Hsweep & H).
  destruct imp1; [by eapply IH|]. injection H as <- <-.
  apply opt2_sweep_fixed in Hsweep as [[= -> ->] Hall]; done.
Qed.

(** What [opt2] returns is 2-optimal for the table: no reversal of a segment
    [i .. j-1] would shorten it, for any of the pairs the loops try. *)
Theorem opt2_local_optimum (p : Problem.t) (route route' : Route.t) (i j : nat)
    (a b c d : nat) (d_ab d_cd d_ac d_bd : Q) :
  opt2 p route = Ok route' →
  1 ≤ i → i + 2 ≤ j →
  Route.customers route' !! (i - 1) = Some a → Route.customers route' !! i = Some b →
  Route.customers route' !! (j - 1) = Some c → Route.customers route' !! j = Some d →
  dist p a b = Ok d_ab → dist p c d = Ok d_cd →
  dist p a c = Ok d_ac → dist p b d = Ok d_bd →
  (d_ab + d_cd <= d_ac + d_bd)%Q.
Proof.
  intros H Hi Hij Ha Hb Hc Hd Hab Hcd Hac Hbd. unfold opt2 in H.
  apply bind_ok in H as ([cs len] & Hloop & [= <-]). simpl in *.
  assert (j < length cs) as Hj by by eapply lookup_lt_Some.
  pose proof (opt2_loop_fixed p _ _ _ _ _ Hloop i j Hi Hij Hj) as Hstep.
  apply opt2_step_inv in Hstep
    as (a' & b' & c' & d' & d_ab' & d_cd' & d_ac' & d_bd' & Ha' & Hb' & Hc' & Hd'
        & Hab' & Hcd' & Hac' & Hbd' & [[Hle _]|[_ [= _ _]]]).
  rewrite Ha in Ha'. rewrite Hb in Hb'. rewrite Hc in Hc'. rewrite Hd in Hd'.
  injection Ha' as <-. injection Hb' as <-. injection Hc' as <-. injection Hd' as <-.
  rewrite Hab in Hab'. rewrite Hcd in Hcd'. rewrite Hac in Hac'. rewrite Hbd in Hbd'.
  injection Hab' as <-. injection Hcd' as <-. injection Hac' as <-. injection Hbd' as <-.
  done.
Qed.

Lemma opt2_local_optimum_witness : (2 + 1 <= 3 + 2)%Q.
Proof.
  apply (opt2_local_optimum (ex_problem 1) (Route.mk 0 (ex_problem 1) [0; 2; 1; 3] 6 12)
           (Route.mk 0 (ex_problem 1) [0; 1; 2; 3] 4 12) 1 3 0 1 2 3);
    first [by vm_compute|lia].
Defined.

(** A route of at most three stops has no pair to try: [opt2] returns it as it
    is, without a look at the table. *)
Theorem opt2_short_route (p : Problem.t) (route : Route.t) :
  length (Route.customers route) ≤ 3 →
  opt2 p route = Ok (Route.mk (Route.id route) p (Route.customers route)
                       (Route.length route) (Route.reward route)).
Proof.
  intros Hlen. unfold opt2.
  pose proof (lt_O_fact (length (Route.customers route))) as Hfact.
  destruct (fact (length (Route.customers route))) as [|fuel]; [lia|].
  simpl. unfold opt2_sweep.
  replace (length (Route.customers route) - 3) with 0 by lia. done.
Qed.

Lemma opt2_short_route_witness :
  opt2 (Problem.mk "none" 1 10 [] []) (Route.mk 0 (ex_problem 1) [0; 1; 3] 4 5)
  = Ok (Route.mk 0 (Problem.mk "none" 1 10 [] []) [0; 1; 3] 4 5).
Proof.
  apply (opt2_short_route (Problem.mk "none" 1 10 [] [])
           (Route.mk 0 (ex_problem 1) [0; 1; 3] 4 5)).
  simpl. lia.
Defined.

(** ** The biased-randomised selector, draw by draw *)

Lemma Qpow_le_base (b : Q) (n : nat) : (0 < b < 1)%Q → (Qpow b (S n) <= b)%Q.
Proof.
  intros Hb. induction n as [|n IH]; simpl in *; [lra|].
  assert (0 < Qpow b n)%Q by (apply Qpow_pos; lra).
  assert (0 <= (1 - b) * (b * Qpow b n))%Q.
  { apply Qmult_le_0_compat; [lra|]. apply Qlt_le_weak, Qmult_lt_0_compat; lra. }
  lra.
Qed.



Lemma bra_index_greedy (beta u : Q) (n : nat) :
  (0 < beta < 1)%Q → (1 - beta < u < 1)%Q → n ≠ 0 → bra_index beta u n = Ok 0.
Proof.
  intros Hb Hu Hn.
  destruct (int_log_floor u (1 - beta)%Q) as (k & Hk & Hlo & Hhi); [lra|lra|].
  assert (k = 0) as ->.
  { destruct k as [|k]; [done|]. exfalso.
    pose proof (Qpow_le_base (1 - beta) k). lra. }
  unfold bra_index. rewrite Hk. simpl. rewrite decide_False by done.
  by rewrite Z.mod_0_l by lia.
Qed.

Lemma bra_yield_greedy {A} (beta : Q) (us : nat → Q) (options : list A) (k : nat) :
  (0 < beta < 1)%Q → (∀ i, 1 - beta < us i < 1)%Q →
  bra_yield (length options) beta us k options = Ok options.
Proof.
  intros Hb Hu. revert k. induction options as [|x options IH]; intros k; [done|].
  cbn [length bra_yield]. unfold bra_next.
  rewrite (bra_index_greedy beta (us k) (length (x :: options))) by done.
  simpl. by rewrite IH.
Qed.

Lemma insert_desc_descending {A} (value : A → Q) (x : A) (l : list A) :
  descending value l →
  descending value (insert_desc (λ y x, Qltb (value x) (value y)) x l).
Proof.
  induction l as [|y l IH]; simpl; [intros _; split; [by intros ? ?%elem_of_nil|done]|].
  intros [Hy Hl]. destruct (Qltb (value x) (value y)) eqn:Hlt.
  - apply Qltb_lt in Hlt. simpl. split; [|by apply IH].
    intros z Hz. rewrite insert_desc_Permutation in Hz.
    apply elem_of_cons in Hz as [->|Hz]; [lra|by apply Hy].
  - apply Qltb_ge in Hlt. simpl. split_and!; [|done..].
    intros z [->|Hz]%elem_of_cons; [done|]. specialize (Hy z Hz). lra.
Qed.

Lemma sorted_by_value_descending {A} (value : A → Q) (l : list A) :
  descending value (sorted_by_value value l).
Proof.
  unfold sorted_by_value. induction l as [|x l IH]; simpl; [done|].
  by apply insert_desc_descending.
Qed.

(** With every draw above [1 - beta] the selector is greedy, as the
    docstring says of a [beta] close to 1: it yields the candidates from the
    highest value to the lowest. *)
Theorem bra_selector_greedy {A} (value : A → Q) (lst : list A) (beta : Q)
    (us : nat → Q) :
  (0 < beta < 1)%Q → (∀ i, 1 - beta < us i < 1)%Q →
  ∃ out, bra_selector value lst beta us = Ok out ∧
         out = sorted_by_value value lst ∧ out ≡ₚ lst ∧ descending value out.
Proof.
  intros Hb Hu. exists (sorted_by_value value lst). split_and!.
  - unfold bra_selector.
    rewrite <- (sorted_desc_length (λ y x, Qltb (value x) (value y)) lst).
    by apply bra_yield_greedy.
  - done.
  - apply sorted_desc_Permutation.
  - apply sorted_by_value_descending.
Qed.

Lemma bra_selector_greedy_witness :
  ∃ out, bra_selector Saving.value
           [Saving.mk 2 1 (93 # 10) 3 12; Saving.mk 1 2 (99 # 10) 5 12]
           (9 # 10) (λ _, 1 # 2) = Ok out ∧
         out = sorted_by_value Saving.value
                 [Saving.mk 2 1 (93 # 10) 3 12; Saving.mk 1 2 (99 # 10) 5 12] ∧
         out ≡ₚ [Saving.mk 2 1 (93 # 10) 3 12; Saving.mk 1 2 (99 # 10) 5 12] ∧
         descending Saving.value out.
Proof.
  apply (bra_selector_greedy Saving.value
           [Saving.mk 2 1 (93 # 10) 3 12; Saving.mk 1 2 (99 # 10) 5 12]
           (9 # 10) (λ _, 1 # 2)).
  - split; reflexivity.
  - intros _; split; reflexivity.
Defined.

(** The two ends of the selector's domain: nothing is drawn for an empty
    collection, whatever the bias; and a draw of exactly 0, which
    [random.random()] can return, makes [math.log] raise [ValueError] on the
    first candidate. *)
Theorem bra_selector_edges {A} (value : A → Q) (lst : list A) (beta : Q)
    (us : nat → Q) :
  bra_selector value [] beta us = Ok [] ∧
  (lst ≠ [] ∧ (us 0%nat == 0)%Q → bra_selector value lst beta us = Err ValueError).
Proof.
  split; [done|]. intros [Hne Hu]. unfold bra_selector.
  pose proof (sorted_desc_length (λ y x, Qltb (value x) (value y)) lst) as Hlen.
  destruct lst as [|x lst]; [done|]. cbn [length bra_yield].
  unfold bra_next, bra_index, int_log.
  assert (Qle_bool (us 0) 0 = true) as -> by (apply Qle_bool_iff; lra).
  done.
Qed.

(** ** The recorded lengths are the lengths of the routes *)

Lemma length_exact_alt (p : Problem.t) (r : Route.t) :
  length_exact p r ↔
  legs_defined p (Route.customers r) ∧
  (Route.length r == path_length p (Route.customers r))%Q.
Proof.
  split.
  - intros (t & [Hdef Ht]%legs_length_ok & Hlen). split; [done|]. by rewrite Hlen.
  - intros [Hdef Hlen]. destruct (legs_length_defined p _ Hdef) as [t Ht].
    exists t. split; [done|]. apply legs_length_ok in Ht as [_ Ht]. by rewrite Ht.
Qed.


Lemma path_length_app (p : Problem.t) (l1 l2 : list nat) (x y : nat) :
  last l1 = Some x → head l2 = Some y →
  (path_length p (l1 ++ l2) == path_length p l1 + dq p (x, y) + path_length p l2)%Q.
Proof.
  intros Hx Hy. unfold path_length. rewrite (legs_app l1 l2 x y) by done.
  rewrite map_app, Qsum_app. simpl. lra.
Qed.

Lemma legs_defined_app (p : Problem.t) (l1 l2 : list nat) (x y : nat) :
  last l1 = Some x → head l2 = Some y →
  legs_defined p (l1 ++ l2) ↔
  legs_defined p l1 ∧ is_Some (od_get (x, y) (Problem.dists p)) ∧ legs_defined p l2.
Proof.
  intros Hx Hy. unfold legs_defined. rewrite (legs_app l1 l2 x y) by done.
  setoid_rewrite elem_of_app. setoid_rewrite elem_of_cons. split.
  - intros H. split_and!; [intros ij ?| |intros ij ?]; apply H; auto.
  - intros (H1 & H2 & H3) ij [?|[->|?]]; auto.
Qed.


(** The merge, with the table entries it reads. *)
Lemma try_merge_inv_dists (p : Problem.t) (s s' : Solution.t)
    (ic_id jc_id iroute_id jroute_id : nat) (iroute jroute : Route.t) :
  try_merge p s ic_id jc_id iroute_id jroute_id iroute jroute = Ok s' →
  s' = s ∨
  ∃ d_it d_sj d_ij,
    py_index_m2 (Route.customers iroute) = Ok ic_id ∧
    py_index (Route.customers jroute) 1 = Ok jc_id ∧
    dist p ic_id (target p) = Ok d_it ∧ dist p source jc_id = Ok d_sj ∧
    dist p ic_id jc_id = Ok d_ij ∧
    Solution.routes s' =
      od_set (Route.id iroute)
        (Route.mk (Route.id iroute) (Route.problem iroute)
           (but_last (Route.customers iroute) ++ tail (Route.customers jroute))
           (Route.length iroute - d_it + d_ij + Route.length jroute - d_sj)%Q
           (Route.reward iroute + Route.reward jroute)%Z)
        (od_del jroute_id (od_del iroute_id (Solution.routes s))).
Proof.
  unfold try_merge. intros H.
  apply bind_ok in H as (i_last & Hil & H).
  case_decide as Hic; [subst i_last|injection H as <-; by left].
  apply bind_ok in H as (j_first & Hjf & H).
  case_decide as Hjc; [subst j_first|injection H as <-; by left].
  apply bind_ok in H as (d_it & Hit & H).
  apply bind_ok in H as (d_sj & Hsj & H).
  apply bind_ok in H as (d_ij & Hij & H).
  destruct (Qle_bool _ _) eqn:Hle; [|injection H as <-; by left].
  apply bind_ok in H as ([s1 merged] & Hm & H).
  unfold merge_routes in Hm. rewrite Hil, Hjf in Hm. simpl in Hm.
  rewrite Hit, Hij, Hsj in Hm. simpl in Hm. injection Hm as <- <-.
  simpl in H. unfold od_pop in H.
  destruct (od_get iroute_id _) as [v1|] eqn:Hg1; [|done]. simpl in H.
  destruct (od_get jroute_id _) as [v2|] eqn:Hg2; [|done]. simpl in H.
  injection H as <-. right. by exists d_it, d_sj, d_ij.
Qed.







Lemma snoc_length_exact (p : Problem.t) (l : list nat) (x y : nat) (len d : Q) :
  legs_defined p l → (len == path_length p l)%Q → last l = Some x →
  dist p x y = Ok d →
  legs_defined p (l ++ [y]) ∧ (len + d == path_length p (l ++ [y]))%Q.
Proof.
  intros Hdef Hlen Hlast Hd. split.
  - apply (legs_defined_app p l [y] x y); [done..|]. split_and!; [done| |].
    + apply dist_ok in Hd. by rewrite Hd.
    + by intros ij ?%elem_of_nil.
  - rewrite (path_length_app p l [y] x y) by done.
    rewrite (dist_dq _ _ _ _ Hd). change (path_length p [y]) with 0%Q. lra.
Qed.

Lemma build_truck_lengths_exact (p : Problem.t) (alpha beta : Q) (us : nat → Q)
    (st st' : list (nat * Route.t) * nat * gmap nat nat * gset nat * nat) :
  (∀ k r, (k, r) ∈ st.1.1.1.1 → length_exact p r) →
  build_truck p alpha beta us st = Ok st' →
  ∀ k r, (k, r) ∈ st'.1.1.1.1 → length_exact p r.
Proof.
  destruct st as [[[[routes rid] c_to_r] visited] draws]. simpl.
  intros Hst H. unfold build_truck in H.
  apply bind_ok in H as (b & Hb & H). apply bind_ok in H as (d & Hd & [= <-]). simpl.
  apply (extend_route_inv
           (λ b, legs_defined p (Builder.route b) ∧
                 (Builder.cdist b == path_length p (Builder.route b))%Q ∧
                 last (Builder.route b) = Some (Builder.cnode b))) in Hb.
  - destruct Hb as (Hdef & Hlen & Hlast).
    intros k r [[-> ->]|Hin]%od_elem_of_set; [|by eapply Hst].
    apply length_exact_alt. simpl. by eapply snoc_length_exact.
  - intros b0 L cs d0 (Hdef & Hlen & Hlast) _ _ Hd0. unfold append_customer. simpl.
    destruct (snoc_length_exact p _ _ (ConstructiveStep.id cs) _ _ Hdef Hlen Hlast Hd0).
    split_and!; [done..|]. apply last_snoc.
  - simpl. split_and!; [by intros ij ?%elem_of_nil|reflexivity|done].
Qed.

(** Every route that [constructive_heuristic] returns records the sum of its
    consecutive legs. *)
Theorem constructive_lengths_exact (p : Problem.t) (alpha beta : Q) (us : nat → Q)
    (s : Solution.t) :
  constructive_heuristic p alpha beta us = Ok s →
  ∀ k r, (k, r) ∈ Solution.routes s →
    ∃ t, legs_length p (Route.customers r) = Ok t ∧ (Route.length r == t)%Q.
Proof.
  unfold constructive_heuristic. intros H.
  apply bind_ok in H as ([[[[routes rid] c_to_r] visited] draws] & H & [= <-]).
  simpl. revert H.
  apply (foldM_inv _ (λ st, ∀ k r, (k, r) ∈ st.1.1.1.1 → length_exact p r)).
  - intros st _ st' _ Hst Hstep. by eapply build_truck_lengths_exact.
  - by intros k r ?%elem_of_nil.
Qed.

Lemma constructive_lengths_exact_witness :
  ∃ t, legs_length (ex_problem 1) [0; 1; 2; 3] = Ok t ∧ (4 == t)%Q.
Proof.
  apply (constructive_lengths_exact (ex_problem 1) (3 # 10) (3 # 10) (λ _, 1 # 2)
           ex_single eq_refl 0 (Route.mk 0 (ex_problem 1) [0; 1; 2; 3] 4 12)).
  by left.
Defined.








(** ** What the local moves leave alone *)

Lemma od_keys_set_present {V} (d : list (nat * V)) (k : nat) (v v' : V) :
  od_get k d = Some v' → od_keys (od_set k v d) = od_keys d.
Proof.
  intros Hg. rewrite od_keys_set. rewrite decide_True; [done|].
  apply od_get_elem_of in Hg. apply list_elem_of_fmap. by exists (k, v').
Qed.

Lemma insert_step_frame (p : Problem.t) (route_id : nat)
    (st st' : list (nat * Route.t) * gmap nat nat) (item : nat * Customer.t) :
  insert_step p route_id st item = Ok st' →
  od_keys st'.1 = od_keys st.1 ∧
  (∀ k, k ≠ route_id → od_get k st'.1 = od_get k st.1) ∧
  (∀ c k, st.2 !! c = Some k → st'.2 !! c = Some k) ∧
  (∀ c, st.2 !! c = None → st'.2 !! c = None ∨ st'.2 !! c = Some route_id) ∧
  (∀ k r, (k, r) ∈ st'.1 →
     (k, r) ∈ st.1 ∨ k = route_id ∧ (Route.length r <= Problem.tmax p)%Q).
Proof.
  destruct st as [routes c_to_r], item as [id c]. simpl. intros H.
  unfold insert_step in H.
  case_decide as Hskip; [injection H as <-; split_and!; auto|].
  apply bind_ok in H as (route & Hroute%of_option_ok & H).
  apply bind_ok in H as (len & _ & H).
  apply bind_ok in H as (new_route & _ & H).
  destruct (Qle_bool _ _) eqn:Hle; [|injection H as <-; split_and!; auto].
  apply Qle_bool_iff in Hle. injection H as <-. simpl.
  assert (c_to_r !! id = None) as Hnone.
  { destruct (c_to_r !! id) eqn:E; [|done]. destruct Hskip. left. eauto. }
  split_and!.
  - by eapply od_keys_set_present.
  - intros k Hk. rewrite od_get_set. by rewrite decide_False.
  - intros c0 k Hc0. rewrite lookup_insert_ne; [done|]. intros ->. congruence.
  - intros c0 Hc0. destruct (decide (c0 = id)) as [->|Hne].
    + right. by rewrite lookup_insert_eq.
    + left. by rewrite lookup_insert_ne.
  - intros k r [[-> ->]|Hin]%od_elem_of_set; [by right|by left].
Qed.

(** [insert] works on the selected route only: the solution keeps its route
    ids in their order, the other routes are the objects they were, no
    visited customer is dropped or moved, every customer newly visited is on
    the selected route, and a route within [tmax] is never replaced by one
    that is not. *)
Theorem insert_frame (p : Problem.t) (s s' : Solution.t) (k_route : nat) :
  insert p s k_route = Ok s' →
  ∃ route_id,
    py_choice k_route (od_keys (Solution.routes s)) = Ok route_id ∧
    od_keys (Solution.routes s') = od_keys (Solution.routes s) ∧
    (∀ k, k ≠ route_id →
          od_get k (Solution.routes s') = od_get k (Solution.routes s)) ∧
    (∀ c k, Solution.c_to_r s !! c = Some k → Solution.c_to_r s' !! c = Some k) ∧
    (∀ c, Solution.c_to_r s !! c = None →
          Solution.c_to_r s' !! c = None ∨ Solution.c_to_r s' !! c = Some route_id) ∧
    (feasible p s → feasible p s').
Proof.
  intros H. unfold insert in H.
  apply bind_ok in H as (route_id & Hrid & H).
  apply bind_ok in H as ([routes c_to_r] & Hfold & [= <-]).
  exists route_id. split; [done|]. simpl. revert Hfold.
  apply (foldM_inv _ (λ st,
    od_keys st.1 = od_keys (Solution.routes s) ∧
    (∀ k, k ≠ route_id → od_get k st.1 = od_get k (Solution.routes s)) ∧
    (∀ c k, Solution.c_to_r s !! c = Some k → st.2 !! c = Some k) ∧
    (∀ c, Solution.c_to_r s !! c = None →
          st.2 !! c = None ∨ st.2 !! c = Some route_id) ∧
    (feasible p s → ∀ k r, (k, r) ∈ st.1 → (Route.length r <= Problem.tmax p)%Q))).
  - intros st item st' _ (Hk & Ho & Hc & Hn & Hf) Hstep.
    apply insert_step_frame in Hstep as (Hk' & Ho' & Hc' & Hn' & Hf').
    split_and!.
    + by rewrite Hk'.
    + intros k Hne. by rewrite Ho', Ho.
    + intros c k Hck. by apply Hc', Hc.
    + intros c Hcn. destruct (Hn c Hcn) as [E|E]; [by apply Hn'|right; by apply Hc'].
    + intros Hfeas k r [Hin|[_ Hle]]%Hf'; [by eapply Hf|done].
  - split_and!; try done; auto.
Qed.

Lemma insert_frame_witness :
  ∃ route_id,
    py_choice 0 (od_keys (Solution.routes ex_partial)) = Ok route_id ∧
    od_keys (Solution.routes ex_single) = od_keys (Solution.routes ex_partial) ∧
    (∀ k, k ≠ route_id →
          od_get k (Solution.routes ex_single) = od_get k (Solution.routes ex_partial)) ∧
    (∀ c k, Solution.c_to_r ex_partial !! c = Some k →
            Solution.c_to_r ex_single !! c = Some k) ∧
    (∀ c, Solution.c_to_r ex_partial !! c = None →
          Solution.c_to_r ex_single !! c = None ∨
          Solution.c_to_r ex_single !! c = Some route_id) ∧
    (feasible (ex_problem 1) ex_partial → feasible (ex_problem 1) ex_single).
Proof. apply (insert_frame (ex_problem 1) ex_partial ex_single 0). reflexivity. Defined.

(** [remove] works on the selected route only: the route ids and the other
    routes stay; either nothing changes at all, or exactly one interior
    customer of the selected route leaves it and the reverse index, the new
    route being within [tmax]; so a feasible solution stays feasible. *)
Theorem remove_frame (p : Problem.t) (s s' : Solution.t) (k_route k_idx : nat) :
  remove p s k_route k_idx = Ok s' →
  ∃ route_id route,
    py_choice k_route (od_keys (Solution.routes s)) = Ok route_id ∧
    od_get route_id (Solution.routes s) = Some route ∧
    od_keys (Solution.routes s') = od_keys (Solution.routes s) ∧
    (∀ k, k ≠ route_id →
          od_get k (Solution.routes s') = od_get k (Solution.routes s)) ∧
    (Solution.routes s' = Solution.routes s ∧ Solution.c_to_r s' = Solution.c_to_r s ∨
     ∃ idx removed route',
       1 ≤ idx ∧ idx < length (Route.customers route) - 1 ∧
       Route.customers route !! idx = Some removed ∧
       od_get route_id (Solution.routes s') = Some route' ∧
       Route.customers route' ≡ₚ delete idx (Route.customers route) ∧
       (Route.length route' <= Problem.tmax p)%Q ∧
       Solution.c_to_r s' = delete removed (Solution.c_to_r s)) ∧
    (feasible p s → feasible p s').
Proof.
  intros (route_id & route & Hrid & Hroute & Hcases)%remove_inv.
  exists route_id, route. split_and!; [done..| | | |].
  - destruct Hcases as [[_ ->]|(_ & removed & new_route & _ & [[_ ->]|(_ & _ & ->)])];
      [done..|]. simpl. by eapply od_keys_set_present.
  - intros k Hk.
    destruct Hcases as [[_ ->]|(_ & removed & new_route & _ & [[_ ->]|(_ & _ & ->)])];
      [done..|]. simpl. rewrite od_get_set. by rewrite decide_False.
  - destruct Hcases as [[_ ->]|(_ & removed & new_route & Hcand & [[_ ->]|(Hle & _ & ->)])];
      [by left..|]. right.
    apply remove_candidate_inv in Hcand
      as (idx & a & c & d_ab & d_bc & d_ac & cand & Hidx & Hidx' & _ & Hb & _
          & _ & _ & _ & _ & Hcs & _ & Hopt).
    apply opt2_inv in Hopt as (_ & _ & _ & Hperm & _).
    exists idx, removed, new_route. simpl. split_and!; try done.
    + rewrite od_get_set. by rewrite decide_True.
    + by rewrite Hperm, Hcs.
  - intros Hfeas.
    destruct Hcases as [[_ ->]|(_ & removed & new_route & _ & [[_ ->]|(Hle & _ & ->)])];
      [done..|].
    intros k r. simpl. intros [[-> ->]|Hin]%od_elem_of_set; [done|by eapply Hfeas].
Qed.

Lemma remove_frame_witness :
  ∃ route_id route,
    py_choice 0 (od_keys (Solution.routes ex_single)) = Ok route_id ∧
    od_get route_id (Solution.routes ex_single) = Some route ∧
    od_keys (Solution.routes ex_partial) = od_keys (Solution.routes ex_single) ∧
    (∀ k, k ≠ route_id →
          od_get k (Solution.routes ex_partial) = od_get k (Solution.routes ex_single)) ∧
    (Solution.routes ex_partial = Solution.routes ex_single ∧
     Solution.c_to_r ex_partial = Solution.c_to_r ex_single ∨
     ∃ idx removed route',
       1 ≤ idx ∧ idx < length (Route.customers route) - 1 ∧
       Route.customers route !! idx = Some removed ∧
       od_get route_id (Solution.routes ex_partial) = Some route' ∧
       Route.customers route' ≡ₚ delete idx (Route.customers route) ∧
       (Route.length route' <= Problem.tmax (ex_problem 1))%Q ∧
       Solution.c_to_r ex_partial = delete removed (Solution.c_to_r ex_single)) ∧
    (feasible (ex_problem 1) ex_single → feasible (ex_problem 1) ex_partial).
Proof. apply (remove_frame (ex_problem 1) ex_single ex_partial 0 1). reflexivity. Defined.

(** ** Shaking a solution of several routes *)

Lemma c_to_r_pop_fold (l : list nat) (m m' : gmap nat nat) :
  foldM c_to_r_pop m l = Ok m' →
  ∀ c, m' !! c = if decide (c ∈ l) then None else m !! c.
Proof.
  revert m. induction l as [|x l IH]; intros m H c; simpl in H.
  - injection H as <-. rewrite decide_False; [done|apply not_elem_of_nil].
  - apply bind_ok in H as (m1 & Hm1 & H). unfold c_to_r_pop in Hm1.
    destruct (m !! x) eqn:Hx; [|done]. injection Hm1 as <-.
    rewrite (IH _ H c). destruct (decide (c ∈ l)) as [Hin|Hnin].
    + rewrite decide_True; [done|by right].
    + destruct (decide (c = x)) as [->|Hne].
      * rewrite decide_True by by left. by rewrite lookup_delete_eq.
      * rewrite decide_False; [by rewrite lookup_delete_ne|].
        by intros [?|?]%elem_of_cons.
Qed.

(** The solution left when a route is popped with its customers. *)
Lemma pop_route_solution_inv (p : Problem.t) (s : Solution.t) (route_id : nat)
    (route : Route.t) (c_to_r' : gmap nat nat) :
  solution_inv p s → od_get route_id (Solution.routes s) = Some route →
  foldM c_to_r_pop (Solution.c_to_r s) (interior (Route.customers route)) = Ok c_to_r' →
  solution_inv p (Solution.mk p (od_del route_id (Solution.routes s)) c_to_r').
Proof.
  intros (Hwf & Hr & Hidx) Hroute Hpop. unfold reverse_index_exact in Hidx.
  pose proof (c_to_r_pop_fold _ _ _ Hpop) as Hc.
  split_and!; simpl.
  - by apply od_wf_del.
  - intros k r. rewrite od_get_del by done. case_decide; [done|apply Hr].
  - intros c k. simpl. rewrite Hc. split.
    + case_decide as Hin; [done|]. intros (r & Hg & Hcr)%Hidx.
      exists r. split; [|done]. rewrite od_get_del by done.
      rewrite decide_False; [done|]. intros ->. congruence.
    + intros (r & Hg & Hcr). rewrite od_get_del in Hg by done.
      case_decide as Hk; [done|].
      rewrite decide_False; [apply Hidx; eauto|].
      intros Hin. assert (Solution.c_to_r s !! c = Some route_id) as E1.
      { apply Hidx. eauto. }
      assert (Solution.c_to_r s !! c = Some k) as E2 by (apply Hidx; eauto).
      congruence.
Qed.

Lemma shake_step_inv (p : Problem.t)
    (st st' : list (nat * Route.t) * gmap nat nat * nat) (item : nat * Customer.t) :
  solution_inv p (Solution.mk p st.1.1 st.1.2) →
  (∀ k, k ∈ od_keys st.1.1 → k < st.2) →
  shake_step p st item = Ok st' →
  solution_inv p (Solution.mk p st'.1.1 st'.1.2) ∧
  (∀ k, k ∈ od_keys st'.1.1 → k < st'.2) ∧
  st.2 ≤ st'.2 ∧
  (∀ c, st'.1.2 !! c = None → st.1.2 !! c = None) ∧
  (∀ k r, od_get k st.1.1 = Some r → od_get k st'.1.1 = Some r) ∧
  (∀ k r, od_get k st'.1.1 = Some r →
     od_get k st.1.1 = Some r ∨
     st.2 ≤ k ∧ (Route.length r <= Problem.tmax p)%Q ∧
     ∃ c, Route.customers r = [source; c; target p] ∧ st.1.2 !! c = None).
Proof.
  destruct st as [[routes c_to_r] nid], item as [i c]. simpl.
  intros (Hwf & Hr & Hidx) Hkeys H. unfold shake_step in H.
  assert (solution_inv p (Solution.mk p routes c_to_r)) as Hinv by done.
  case_decide as Hskip; [injection H as <-; simpl; split_and!; by auto|].
  apply bind_ok in H as (d1 & Hd1 & H). apply bind_ok in H as (d2 & Hd2 & H).
  destruct (Qle_bool _ _) eqn:Hle; [|injection H as <-; simpl; split_and!; by auto].
  apply Qle_bool_iff in Hle. injection H as <-. simpl.
  assert (c_to_r !! i = None ∧ i ≠ source ∧ i ≠ target p) as (Hnone & Hns & Hnt).
  { destruct (c_to_r !! i) eqn:E; [|tauto]. destruct Hskip. left. eauto. }
  assert (od_get nid routes = None) as Hfresh.
  { apply od_get_None. intros Hin%Hkeys. lia. }
  unfold reverse_index_exact in Hidx. simpl in Hidx.
  split_and!.
  - split_and!; simpl.
    + by apply od_wf_set.
    + intros k r. rewrite od_get_set. case_decide as Hk; [|apply Hr].
      intros [= <-]. split; [by subst|]. exists [i]. simpl.
      split_and!; [done|apply NoDup_singleton|..];
        intros ?%list_elem_of_singleton; congruence.
    + intros c' k. simpl. setoid_rewrite od_get_set.
      destruct (decide (c' = i)) as [->|Hne].
      * rewrite lookup_insert_eq. split.
        -- intros [= <-]. eexists. rewrite decide_True by done. split; [done|].
           unfold interior. simpl. by left.
        -- intros (r & Hg & Hc). case_decide as Hk; [by subst|]. exfalso.
           assert (c_to_r !! i = Some k) as E by (apply Hidx; eauto). congruence.
      * rewrite lookup_insert_ne by done. rewrite (Hidx c' k). split.
        -- intros (r & Hg & Hc). exists r. split; [|done].
           rewrite decide_False; [done|]. intros ->. congruence.
        -- intros (r & Hg & Hc). case_decide as Hk; [|eauto].
           injection Hg as <-. unfold interior in Hc. simpl in Hc.
           by apply list_elem_of_singleton in Hc.
  - intros k [->|?%Hkeys]%od_set_keys_elem_of; lia.
  - lia.
  - intros c'. destruct (decide (c' = i)) as [->|Hne].
    + by rewrite lookup_insert_eq.
    + by rewrite lookup_insert_ne.
  - intros k r Hg. rewrite od_get_set. rewrite decide_False; [done|].
    intros ->. congruence.
  - intros k r. rewrite od_get_set. case_decide as Hk; [|by left].
    intros [= <-]. right. subst k. simpl. split_and!; [lia|done|]. by exists i.
Qed.

Lemma shaking_start_inv (p : Problem.t) (s start : Solution.t) (k_route : nat) :
  solution_inv p s → shaking_start p s k_route = Ok start →
  ∃ route_id route,
    py_choice k_route (od_keys (Solution.routes s)) = Ok route_id ∧
    od_get route_id (Solution.routes s) = Some route ∧
    solution_inv p start ∧
    (∀ k r, k ≠ route_id → od_get k (Solution.routes s) = Some r →
            od_get k (Solution.routes start) = Some r) ∧
    (∀ k r, od_get k (Solution.routes start) = Some r →
       k ≠ route_id ∧ od_get k (Solution.routes s) = Some r ∨
       (∀ k', k' ∈ od_keys (Solution.routes s) → k' ≠ route_id → k' < k) ∧
       (Route.length r <= Problem.tmax p)%Q ∧
       ∃ c, Route.customers r = [source; c; target p] ∧
            (c ∈ interior (Route.customers route) ∨ Solution.c_to_r s !! c = None)).
Proof.
  intros Hinv H. pose proof Hinv as (Hwf & Hr & Hidx). unfold shaking_start in H.
  apply bind_ok in H as (route_id & Hrid & H).
  apply bind_ok in H as ([route routes1] & Hpop & H). unfold od_pop in Hpop.
  destruct (od_get route_id (Solution.routes s)) as [route'|] eqn:Hroute; [|done].
  injection Hpop as -> <-.
  apply bind_ok in H as (c1 & Hc1 & H).
  apply bind_ok in H as (nid & Hnid & H).
  apply bind_ok in H as ([[routes2 c2] nid2] & Hfold & [= <-]). simpl.
  pose proof (pop_route_solution_inv p s route_id route c1 Hinv Hroute Hc1) as Hinv1.
  pose proof (c_to_r_pop_fold _ _ _ Hc1) as Hc.
  assert (∀ k, k ∈ od_keys (od_del route_id (Solution.routes s)) → k < nid) as Hkeys.
  { unfold next_route_id in Hnid. intros k Hk.
    destruct (od_keys (od_del route_id (Solution.routes s))) as [|k0 ks] eqn:E; [done|].
    injection Hnid as <-. pose proof (max_list_elem_of_le k (k0 :: ks) Hk) as Hmax.
    simpl in Hmax. lia. }
  assert (solution_inv p (Solution.mk p routes2 c2) ∧
    (∀ k r, od_get k (od_del route_id (Solution.routes s)) = Some r →
            od_get k routes2 = Some r) ∧
    (∀ k r, od_get k routes2 = Some r →
       od_get k (od_del route_id (Solution.routes s)) = Some r ∨
       nid ≤ k ∧ (Route.length r <= Problem.tmax p)%Q ∧
       ∃ c, Route.customers r = [source; c; target p] ∧ c1 !! c = None))
    as (Hinv2 & Hold & Hnew).
  { assert (solution_inv p (Solution.mk p routes2 c2) ∧
      (∀ k, k ∈ od_keys routes2 → k < nid2) ∧ nid ≤ nid2 ∧
      (∀ c, c2 !! c = None → c1 !! c = None) ∧
      (∀ k r, od_get k (od_del route_id (Solution.routes s)) = Some r →
              od_get k routes2 = Some r) ∧
      (∀ k r, od_get k routes2 = Some r →
         od_get k (od_del route_id (Solution.routes s)) = Some r ∨
         nid ≤ k ∧ (Route.length r <= Problem.tmax p)%Q ∧
         ∃ c, Route.customers r = [source; c; target p] ∧ c1 !! c = None)) as HI;
      [|by destruct HI as (? & _ & _ & _ & ? & ?)].
    revert Hfold.
    apply (foldM_inv _ (λ st,
      solution_inv p (Solution.mk p st.1.1 st.1.2) ∧
      (∀ k, k ∈ od_keys st.1.1 → k < st.2) ∧
      nid ≤ st.2 ∧
      (∀ c, st.1.2 !! c = None → c1 !! c = None) ∧
      (∀ k r, od_get k (od_del route_id (Solution.routes s)) = Some r →
              od_get k st.1.1 = Some r) ∧
      (∀ k r, od_get k st.1.1 = Some r →
         od_get k (od_del route_id (Solution.routes s)) = Some r ∨
         nid ≤ k ∧ (Route.length r <= Problem.tmax p)%Q ∧
         ∃ c, Route.customers r = [source; c; target p] ∧ c1 !! c = None))).
    - intros st item st' _ (Hi & Hk & Hn & Hc' & Hold & Hnew) Hstep.
      apply shake_step_inv in Hstep as (Hi' & Hk' & Hn' & Hc'' & Hold' & Hnew');
        [|done..].
      split; [done|]. split; [done|]. split; [lia|]. split; [by auto|].
      split; [by auto|].
      intros k r [Hg|(? & ? & c & ? & ?)]%Hnew'; [by apply Hnew|].
      right. split; [lia|]. split; [done|]. exists c. by auto.
    - simpl. split; [done|]. split; [done|]. split; [lia|]. by auto. }
  exists route_id, route. split; [done|]. split; [done|]. split; [done|]. split.
  - intros k r Hk Hg. apply Hold.
    rewrite od_get_del by done. by rewrite decide_False.
  - intros k r [Hg|(Hle & Hlen & c & Hcs & Hcn)]%Hnew.
    + left. rewrite od_get_del in Hg by done. by case_decide.
    + right. split; [|split; [done|]].
      * intros k' Hk' Hne. apply od_keys_get in Hk' as [v Hv].
        assert (k' < nid); [|lia]. apply Hkeys.
        assert (od_get k' (od_del route_id (Solution.routes s)) = Some v) as Hv'.
        { rewrite od_get_del by done. by rewrite decide_False. }
        apply od_get_elem_of in Hv'. apply list_elem_of_fmap. by exists (k', v).
      * exists c. split; [done|]. rewrite Hc in Hcn.
        case_decide; [by left|by right].
Qed.

(** The first half of [shaking], up to the call of the savings heuristic: the
    selected route is taken out, every other route is kept under its id, and
    every route opened for a customer that is on no route gets an id above
    all the ids still in use. *)
Theorem shaking_start_fresh_ids (p : Problem.t) (s start : Solution.t) (k_route : nat) :
  solution_inv p s → shaking_start p s k_route = Ok start →
  ∃ route_id route,
    py_choice k_route (od_keys (Solution.routes s)) = Ok route_id ∧
    od_get route_id (Solution.routes s) = Some route ∧
    solution_inv p start ∧
    (∀ k r, k ≠ route_id → od_get k (Solution.routes s) = Some r →
            od_get k (Solution.routes start) = Some r) ∧
    (∀ k r, od_get k (Solution.routes start) = Some r →
       k ≠ route_id ∧ od_get k (Solution.routes s) = Some r ∨
       (∀ k', k' ∈ od_keys (Solution.routes s) → k' ≠ route_id → k' < k) ∧
       (Route.length r <= Problem.tmax p)%Q ∧
       ∃ c, Route.customers r = [source; c; target p] ∧
            (c ∈ interior (Route.customers route) ∨ Solution.c_to_r s !! c = None)).
Proof. apply shaking_start_inv. Qed.

Lemma shaking_start_fresh_ids_witness :
  ∃ start route_id route,
    shaking_start (ex_problem 2) ex_init 0 = Ok start ∧
    py_choice 0 (od_keys (Solution.routes ex_init)) = Ok route_id ∧
    od_get route_id (Solution.routes ex_init) = Some route ∧
    solution_inv (ex_problem 2) start ∧
    od_keys (Solution.routes start) = [1; 2].
Proof.
  exists (Solution.mk (ex_problem 2)
            [(1, Route.mk 1 (ex_problem 2) [0; 2; 3] 4 7);
             (2, Route.mk 2 (ex_problem 2) [0; 1; 3] 4 5)]
            (<[1 := 2]> (<[2 := 1]> ∅))).
  destruct (shaking_start_fresh_ids (ex_problem 2) ex_init
              (Solution.mk (ex_problem 2)
                 [(1, Route.mk 1 (ex_problem 2) [0; 2; 3] 4 7);
                  (2, Route.mk 2 (ex_problem 2) [0; 1; 3] 4 5)]
                 (<[1 := 2]> (<[2 := 1]> ∅))) 0 ex_init_inv)
    as (route_id & route & ? & ? & ? & _); [by vm_compute|].
  exists route_id, route. split_and!; [by vm_compute|done..].
Defined.




(** ** The reward of a solution *)

Lemma solution_reward_rewards (s : Solution.t) :
  solution_reward s = rewards (od_values (Solution.routes s)).
Proof.
  unfold solution_reward, rewards.
  assert (∀ l a, foldl (λ acc r, (acc + Route.reward r)%Z) a l
                 = (a + foldr (λ r acc, (Route.reward r + acc)%Z) 0 l)%Z) as Hgen.
  { induction l as [|r l IH]; intros a; simpl; [lia|]. rewrite IH. lia. }
  rewrite Hgen. lia.
Qed.

Lemma rewards_cons (r : Route.t) (l : list Route.t) :
  rewards (r :: l) = (Route.reward r + rewards l)%Z.
Proof. done. Qed.

Lemma rewards_app (l1 l2 : list Route.t) :
  rewards (l1 ++ l2) = (rewards l1 + rewards l2)%Z.
Proof. induction l1 as [|r l1 IH]; simpl; [done|]. rewrite IH. lia. Qed.

Lemma rewards_Permutation (l1 l2 : list Route.t) : l1 ≡ₚ l2 → rewards l1 = rewards l2.
Proof. induction 1; simpl; lia. Qed.

Lemma rewards_nonneg (l : list Route.t) :
  (∀ r, r ∈ l → (0 ≤ Route.reward r)%Z) → (0 ≤ rewards l)%Z.
Proof.
  induction l as [|r l IH]; intros H; simpl; [done|].
  pose proof (H r ltac:(by left)). specialize (IH ltac:(intros; apply H; by right)). lia.
Qed.

Lemma od_values_del (d : list (nat * Route.t)) (k : nat) (r : Route.t) :
  od_get k d = Some r →
  rewards (od_values (od_del k d)) = (rewards (od_values d) - Route.reward r)%Z.
Proof.
  unfold od_values. induction d as [|[k0 r0] d IH]; [done|]. cbn [od_get od_del].
  case_decide as Hk.
  - intros [= ->]. rewrite fmap_cons, rewards_cons. simpl. lia.
  - intros Hg. rewrite !fmap_cons, !rewards_cons. rewrite (IH Hg). simpl. lia.
Qed.

Lemma od_values_set_fresh (d : list (nat * Route.t)) (k : nat) (r : Route.t) :
  od_get k d = None →
  rewards (od_values (od_set k r d)) = (rewards (od_values d) + Route.reward r)%Z.
Proof.
  unfold od_values. induction d as [|[k0 r0] d IH]; [intros _; cbn; lia|].
  cbn [od_get od_set]. case_decide as Hk; [done|]. intros Hg.
  rewrite !fmap_cons, !rewards_cons. rewrite (IH Hg). simpl. lia.
Qed.

Lemma od_values_set_present (d : list (nat * Route.t)) (k : nat) (r r0 : Route.t) :
  od_get k d = Some r0 →
  rewards (od_values (od_set k r d))
  = (rewards (od_values d) - Route.reward r0 + Route.reward r)%Z.
Proof.
  unfold od_values. induction d as [|[k1 r1] d IH]; [done|]. cbn [od_get od_set].
  case_decide as Hk.
  - intros [= ->]. rewrite !fmap_cons, !rewards_cons. simpl. lia.
  - intros Hg. rewrite !fmap_cons, !rewards_cons. rewrite (IH Hg). simpl. lia.
Qed.

(** A merge moves reward from two routes into one. *)
Lemma try_merge_reward (p : Problem.t) (s s' : Solution.t)
    (ic_id jc_id iroute_id jroute_id : nat) (iroute jroute : Route.t) :
  solution_inv p s → iroute_id ≠ jroute_id →
  od_get iroute_id (Solution.routes s) = Some iroute →
  od_get jroute_id (Solution.routes s) = Some jroute →
  try_merge p s ic_id jc_id iroute_id jroute_id iroute jroute = Ok s' →
  solution_reward s' = solution_reward s.
Proof.
  intros (Hwf & Hr & _) Hne Hgi Hgj
    [->|(d_it & d_sj & d_ij & _ & _ & _ & _ & _ & Hroutes)]%try_merge_inv_dists; [done|].
  rewrite !solution_reward_rewards, Hroutes.
  destruct (Hr _ _ Hgi) as [Hid _]. rewrite Hid.
  assert (od_get jroute_id (od_del iroute_id (Solution.routes s)) = Some jroute) as Hgj'.
  { rewrite od_get_del by done. by rewrite decide_False. }
  rewrite od_values_set_fresh.
  - rewrite (od_values_del _ _ _ Hgj'), (od_values_del _ _ _ Hgi). simpl. lia.
  - rewrite od_get_del by by apply od_wf_del.
    rewrite decide_False by done. rewrite od_get_del by done. by rewrite decide_True.
Qed.

(** The merge loop of the savings heuristic moves reward between routes and
    loses none: the solution's reward when the loop ends is the reward it
    started with. *)
Theorem savings_loop_keeps_reward (p : Problem.t) (n : nat) (beta : Q) (us : nat → Q)
    (k : nat) (options : list Saving.t) (s s' : Solution.t) :
  solution_inv p s → savings_loop n p beta us k options s = Ok s' →
  solution_reward s' = solution_reward s ∧
  length (Solution.routes s') ≤ length (Solution.routes s).
Proof.
  intros Hinv H.
  assert (solution_inv p s' ∧ solution_reward s' = solution_reward s ∧
          length (Solution.routes s') ≤ length (Solution.routes s)) as (_ & ? & ?);
    [|done].
  revert H.
  apply (savings_loop_inv
           (λ s0, solution_inv p s0 ∧ solution_reward s0 = solution_reward s ∧
                  length (Solution.routes s0) ≤ length (Solution.routes s)) p);
    [|by auto].
  intros s0 s1 ic jc ir jr iroute jroute (Hi & He & Hl) Hne Hgi Hgj Hm.
  split; [by eapply try_merge_solution_inv|]. split.
  - rewrite <- He. by apply (try_merge_reward p s0 s1 ic jc ir jr iroute jroute).
  - etrans; [|done].
    apply try_merge_inv_dists in Hm
      as [->|(d_it & d_sj & d_ij & _ & _ & _ & _ & _ & Hroutes)]; [done|].
    rewrite Hroutes. pose proof (od_set_length
      (od_del jr (od_del ir (Solution.routes s0))) (Route.id iroute)
      (Route.mk (Route.id iroute) (Route.problem iroute)
         (but_last (Route.customers iroute) ++ tail (Route.customers jroute))
         (Route.length iroute - d_it + d_ij + Route.length jroute - d_sj)%Q
         (Route.reward iroute + Route.reward jroute)%Z)) as Hset.
    destruct Hi as (Hwf & _).
    assert (length (od_del ir (Solution.routes s0)) < length (Solution.routes s0)) as H1.
    { clear -Hgi. induction (Solution.routes s0) as [|[k0 r0] d IH]; [done|].
      simpl in *. case_decide; simpl; [lia|]. specialize (IH Hgi). lia. }
    assert (length (od_del jr (od_del ir (Solution.routes s0)))
            ≤ length (od_del ir (Solution.routes s0))) as H2.
    { generalize (od_del ir (Solution.routes s0)). clear. intros d.
      induction d as [|[k0 r0] d IH]; [done|]. simpl. case_decide; simpl; lia. }
    lia.
Qed.

Lemma savings_loop_keeps_reward_witness :
  solution_reward ex_merged = solution_reward ex_init ∧
  length (Solution.routes ex_merged) ≤ length (Solution.routes ex_init).
Proof.
  apply (savings_loop_keeps_reward (ex_problem 2) 2 (3 # 10) (λ _, 1 # 2) 0
           (sorted_by_value Saving.value
              (match generate_savings (ex_problem 2) (3 # 10) with
               | Ok l => l
               | Err _ => []
               end))).
  - apply ex_init_inv.
  - by vm_compute.
Defined.

(** *** The final cut *)

Lemma insert_desc_descending_gen {A} (gt : A → A → bool) (value : A → Q)
    (x : A) (l : list A) :
  (∀ x y, gt y x = true → (value x <= value y)%Q) →
  (∀ x y, gt y x = false → (value y <= value x)%Q) →
  descending value l → descending value (insert_desc gt x l).
Proof.
  intros Hgt Hngt.
  induction l as [|y l IH]; simpl; [intros _; split; [by intros ? ?%elem_of_nil|done]|].
  intros [Hy Hl]. destruct (gt y x) eqn:Hlt.
  - apply Hgt in Hlt. simpl. split; [|by apply IH].
    intros z Hz. rewrite insert_desc_Permutation in Hz.
    apply elem_of_cons in Hz as [->|Hz]; [done|by apply Hy].
  - apply Hngt in Hlt. simpl. split_and!; [|done..].
    intros z [->|Hz]%elem_of_cons; [done|]. specialize (Hy z Hz). lra.
Qed.

Lemma descending_app {A} (value : A → Q) (l1 l2 : list A) (x y : A) :
  descending value (l1 ++ l2) → x ∈ l1 → y ∈ l2 → (value y <= value x)%Q.
Proof.
  induction l1 as [|z l1 IH]; simpl; [by intros _ ?%elem_of_nil|].
  intros [Hz Hl] [->|Hx]%elem_of_cons Hy; [|by apply IH].
  apply Hz. apply elem_of_app. by right.
Qed.

Lemma nlargest_reward_descending (n : nat) (l : list Route.t) :
  ∃ rest, nlargest_reward n l ++ rest ≡ₚ l ∧
          descending (λ r, inject_Z (Route.reward r)) (nlargest_reward n l ++ rest).
Proof.
  unfold nlargest_reward.
  set (sorted := sorted_desc (λ y x, (Route.reward x <? Route.reward y)%Z) l).
  exists (drop n sorted). rewrite take_drop. split.
  - apply sorted_desc_Permutation.
  - unfold sorted. clear. induction l as [|r l IH]; simpl; [done|].
    apply insert_desc_descending_gen; [| |done].
    + intros x y Hlt%Z.ltb_lt. rewrite <- Zle_Qle. lia.
    + intros x y Hge%Z.ltb_ge. by rewrite <- Zle_Qle.
Qed.

Lemma keep_top_routes_values (p : Problem.t) (s : Solution.t) :
  solution_inv p s →
  od_values (Solution.routes (keep_top_routes p s))
  = nlargest_reward (Problem.n_trucks p) (od_values (Solution.routes s)).
Proof.
  intros (Hwf & Hr & _). unfold keep_top_routes. simpl.
  rewrite od_of_list_NoDup.
  - unfold od_values. rewrite <- list_fmap_compose. apply list_fmap_id.
  - rewrite <- list_fmap_compose.
    apply (nlargest_reward_NoDup _ (od_values (Solution.routes s))).
    rewrite od_values_ids; [done|].
    intros k r Hin. apply od_get_wf in Hin; [|done]. by destruct (Hr _ _ Hin).
Qed.

(** The cut after the loop keeps the [n_trucks] routes of highest reward:
    every route it drops has a reward no greater than every route it keeps;
    nothing is dropped when the routes fit the trucks; and with non-negative
    rewards the solution's reward does not grow. *)
Theorem keep_top_routes_best (p : Problem.t) (s : Solution.t) :
  solution_inv p s →
  (∀ r r', r ∈ od_values (Solution.routes (keep_top_routes p s)) →
           r' ∈ od_values (Solution.routes s) →
           r' ∉ od_values (Solution.routes (keep_top_routes p s)) →
           (Route.reward r' ≤ Route.reward r)%Z) ∧
  (length (Solution.routes s) ≤ Problem.n_trucks p →
   od_values (Solution.routes (keep_top_routes p s)) ≡ₚ od_values (Solution.routes s) ∧
   solution_reward (keep_top_routes p s) = solution_reward s) ∧
  ((∀ r, r ∈ od_values (Solution.routes s) → (0 ≤ Route.reward r)%Z) →
   (solution_reward (keep_top_routes p s) ≤ solution_reward s)%Z).
Proof.
  intros Hinv. rewrite !solution_reward_rewards, (keep_top_routes_values p s Hinv).
  destruct (nlargest_reward_descending (Problem.n_trucks p)
              (od_values (Solution.routes s))) as (rest & Hperm & Hdesc).
  split_and!.
  - intros r r' Hr Hr' Hnr'. rewrite <- Hperm in Hr'.
    apply elem_of_app in Hr' as [?|Hr']; [done|].
    pose proof (descending_app _ _ _ r r' Hdesc Hr Hr') as Hle. simpl in Hle.
    by rewrite Zle_Qle.
  - intros Hlen. unfold nlargest_reward. rewrite take_ge.
    + split; [apply sorted_desc_Permutation|].
      apply rewards_Permutation, sorted_desc_Permutation.
    + rewrite sorted_desc_length. unfold od_values. by rewrite length_fmap.
  - intros Hnn. rewrite <- (rewards_Permutation _ _ Hperm), rewards_app.
    assert (0 ≤ rewards rest)%Z; [|lia].
    apply rewards_nonneg. intros r Hr. apply Hnn. rewrite <- Hperm.
    apply elem_of_app. by right.
Qed.

Lemma keep_top_routes_best_witness :
  (∀ r r', r ∈ od_values (Solution.routes (keep_top_routes (ex_problem 1) ex_init)) →
           r' ∈ od_values (Solution.routes ex_init) →
           r' ∉ od_values (Solution.routes (keep_top_routes (ex_problem 1) ex_init)) →
           (Route.reward r' ≤ Route.reward r)%Z) ∧
  (length (Solution.routes ex_init) ≤ Problem.n_trucks (ex_problem 1) →
   od_values (Solution.routes (keep_top_routes (ex_problem 1) ex_init))
     ≡ₚ od_values (Solution.routes ex_init) ∧
   solution_reward (keep_top_routes (ex_problem 1) ex_init) = solution_reward ex_init) ∧
  ((∀ r, r ∈ od_values (Solution.routes ex_init) → (0 ≤ Route.reward r)%Z) →
   (solution_reward (keep_top_routes (ex_problem 1) ex_init) ≤ solution_reward ex_init)%Z).
Proof.
  apply (keep_top_routes_best (ex_problem 1) ex_init).
  destruct ex_init_inv as (Hwf & Hr & Hidx). split_and!; [done| |done].
  intros k r Hg. destruct (Hr k r Hg) as [? (mid & ? & ?)]. split; [done|].
  by exists mid.
Defined.

(** *** The local moves *)

Lemma insert_step_reward (p : Problem.t) (route_id : nat)
    (st st' : list (nat * Route.t) * gmap nat nat) (id : nat) (c : Customer.t) :
  insert_step p route_id st (id, c) = Ok st' →
  rewards (od_values st'.1) = rewards (od_values st.1) ∨
  rewards (od_values st'.1) = (rewards (od_values st.1) + Customer.reward c)%Z.
Proof.
  destruct st as [routes c_to_r]. simpl. intros H. unfold insert_step in H.
  case_decide as Hskip; [injection H as <-; by left|].
  apply bind_ok in H as (route & Hroute%of_option_ok & H).
  apply bind_ok in H as (len & _ & H).
  apply bind_ok in H as (new_route & Hopt & H).
  destruct (Qle_bool _ _); [|injection H as <-; by left]. injection H as <-.
  right. simpl. rewrite (od_values_set_present _ _ _ _ Hroute).
  apply opt2_inv in Hopt as (_ & _ & -> & _). simpl. lia.
Qed.

Lemma remove_reward (p : Problem.t) (s s' : Solution.t) (k_route k_idx : nat) :
  remove p s k_route k_idx = Ok s' →
  solution_reward s' = solution_reward s ∨
  ∃ removed rec, (removed, rec) ∈ Problem.customers p ∧
    solution_reward s' = (solution_reward s - Customer.reward rec)%Z.
Proof.
  unfold remove. intros H.
  apply bind_ok in H as (route_id & _ & H).
  apply bind_ok in H as (route & Hroute%of_option_ok & H).
  case_decide; [injection H as <-; by left|].
  apply bind_ok in H as ([removed new_route] & Hcand & H).
  destruct (Qle_bool _ _); [|injection H as <-; by left].
  apply bind_ok in H as (c_to_r' & _ & [= <-]). right.
  unfold remove_candidate in Hcand.
  apply bind_ok in Hcand as (idx & _ & Hcand).
  apply bind_ok in Hcand as ([removed' new_customers] & _ & Hcand).
  apply bind_ok in Hcand as (rec & Hrec & Hcand).
  apply bind_ok in Hcand as (a & _ & Hcand).
  apply bind_ok in Hcand as (b & _ & Hcand).
  apply bind_ok in Hcand as (d_ab & _ & Hcand).
  apply bind_ok in Hcand as (c & _ & Hcand).
  apply bind_ok in Hcand as (d_bc & _ & Hcand).
  apply bind_ok in Hcand as (d_ac & _ & Hcand).
  apply bind_ok in Hcand as (nr & Hopt & [= <- <-]).
  exists removed', rec. split.
  - unfold customer, od_lookup in Hrec. apply of_option_ok in Hrec.
    by apply od_get_elem_of.
  - rewrite !solution_reward_rewards. simpl.
    rewrite (od_values_set_present _ _ _ _ Hroute).
    apply opt2_inv in Hopt as (_ & _ & -> & _). simpl. lia.
Qed.

(** With non-negative customer rewards, [insert] never lowers the reward of
    the solution and [remove] never raises it. *)
Theorem local_moves_reward (p : Problem.t) (s : Solution.t) (k_route k_idx : nat) :
  (∀ id c, (id, c) ∈ Problem.customers p → (0 ≤ Customer.reward c)%Z) →
  (∀ s', insert p s k_route = Ok s' → (solution_reward s ≤ solution_reward s')%Z) ∧
  (∀ s', remove p s k_route k_idx = Ok s' → (solution_reward s' ≤ solution_reward s)%Z).
Proof.
  intros Hnn. split; intros s' H.
  - unfold insert in H.
    apply bind_ok in H as (route_id & _ & H).
    apply bind_ok in H as ([routes c_to_r] & Hfold & [= <-]).
    rewrite !solution_reward_rewards. simpl. revert Hfold.
    apply (foldM_inv _ (λ st, (rewards (od_values (Solution.routes s))
                               ≤ rewards (od_values st.1))%Z)); [|done].
    intros st [id c] st' Hin Hst Hstep.
    apply insert_step_reward in Hstep as [->| ->]; [done|].
    specialize (Hnn id c Hin). lia.
  - apply remove_reward in H as [->|(removed & rec & Hin & ->)]; [done|].
    specialize (Hnn removed rec Hin). lia.
Qed.

Lemma local_moves_reward_witness :
  (solution_reward ex_partial ≤ solution_reward ex_single)%Z ∧
  (solution_reward ex_partial ≤ solution_reward ex_single)%Z.
Proof.
  assert (∀ id c, (id, c) ∈ Problem.customers (ex_problem 1) → (0 ≤ Customer.reward c)%Z)
    as Hnn.
  { intros id c Hin. simpl in Hin. unfold ex_customers in Hin.
    repeat (apply elem_of_cons in Hin as [[= -> ->]|Hin]; [simpl; lia|]).
    by apply elem_of_nil in Hin. }
  split.
  - destruct (local_moves_reward (ex_problem 1) ex_partial 0 0 Hnn) as [Hi _].
    by apply Hi.
  - destruct (local_moves_reward (ex_problem 1) ex_single 0 1 Hnn) as [_ Hr].
    by apply Hr.
Defined.

(** ** The savings list *)

Lemma generate_savings_fold (p : Problem.t) (alpha : Q) (l : list ((nat * nat) * Q))
    (acc res : list Saving.t) :
  foldM (λ savings item,
           o ← saving_of p alpha item;
           Ok (match o with Some s => savings ++ [s] | None => savings end)) acc l
  = Ok res →
  ∃ new, res = acc ++ new ∧
    map (λ s, (Saving.inode s, Saving.jnode s)) new
    = filter (λ ij, ¬ (ij.1 = source ∨ ij.1 = target p ∨ ij.2 = source ∨ ij.2 = target p))
        l.*1 ∧
    ∀ s, s ∈ new →
      ∃ d d_it d_sj ci cj,
        ((Saving.inode s, Saving.jnode s), d) ∈ l ∧
        dist p (Saving.inode s) (target p) = Ok d_it ∧
        dist p source (Saving.jnode s) = Ok d_sj ∧
        customer p (Saving.inode s) = Ok ci ∧ customer p (Saving.jnode s) = Ok cj ∧
        Saving.distance_saving s = (d_it + d_sj - d)%Q ∧
        Saving.reward_saving s = (Customer.reward ci + Customer.reward cj)%Z ∧
        Saving.value s = (alpha * Saving.distance_saving s
                          + (1 - alpha) * inject_Z (Saving.reward_saving s))%Q.
Proof.
  revert acc. induction l as [|[[i j] d] l IH]; intros acc H; simpl in H.
  - injection H as <-. exists []. rewrite app_nil_r. split_and!; [done..|].
    by intros s ?%elem_of_nil.
  - apply bind_ok in H as (acc1 & Hstep & H).
    apply bind_ok in Hstep as (o & Ho & [= <-]).
    apply IH in H as (new & -> & Hkeys & Hnew).
    unfold saving_of in Ho. rewrite fmap_cons, filter_cons. simpl.
    case_decide as Hdepot.
    + injection Ho as <-. exists new. rewrite decide_False by tauto.
      split_and!; [done..|]. intros s (d0 & d_it & d_sj & ci & cj & Hin & Hrest)%Hnew.
      exists d0, d_it, d_sj, ci, cj. split; [by right|done].
    + apply bind_ok in Ho as (d_it & Hit & Ho). apply bind_ok in Ho as (d_sj & Hsj & Ho).
      apply bind_ok in Ho as (ci & Hci & Ho). apply bind_ok in Ho as (cj & Hcj & Ho).
      injection Ho as <-. eexists (_ :: new). rewrite <- app_assoc. simpl.
      rewrite decide_True by tauto. split_and!; [done|by rewrite Hkeys|].
      intros s [->|Hs]%elem_of_cons.
      * exists d, d_it, d_sj, ci, cj. simpl. split_and!; try done. by left.
      * apply Hnew in Hs as (d0 & d_it' & d_sj' & ci' & cj' & Hin & Hrest).
        exists d0, d_it', d_sj', ci', cj'. split; [by right|done].
Qed.

(** [generate_savings] yields one saving for each entry of the table between
    two customers that are not depots, in the order of the table; its
    distance saving is [d(i, sink) + d(source, j) - d(i, j)], its reward
    saving the two rewards together, and its value their blend by [alpha]. *)
Theorem generate_savings_spec (p : Problem.t) (alpha : Q) (savings : list Saving.t) :
  generate_savings p alpha = Ok savings →
  map (λ s, (Saving.inode s, Saving.jnode s)) savings
  = filter (λ ij, ¬ (ij.1 = source ∨ ij.1 = target p ∨ ij.2 = source ∨ ij.2 = target p))
      (od_keys (Problem.dists p)) ∧
  ∀ s, s ∈ savings →
    ∃ d d_it d_sj ci cj,
      ((Saving.inode s, Saving.jnode s), d) ∈ Problem.dists p ∧
      dist p (Saving.inode s) (target p) = Ok d_it ∧
      dist p source (Saving.jnode s) = Ok d_sj ∧
      customer p (Saving.inode s) = Ok ci ∧ customer p (Saving.jnode s) = Ok cj ∧
      Saving.distance_saving s = (d_it + d_sj - d)%Q ∧
      Saving.reward_saving s = (Customer.reward ci + Customer.reward cj)%Z ∧
      Saving.value s = (alpha * Saving.distance_saving s
                        + (1 - alpha) * inject_Z (Saving.reward_saving s))%Q.
Proof.
  unfold generate_savings. intros (new & -> & Hkeys & Hnew)%generate_savings_fold.
  simpl. by split.
Qed.

Lemma generate_savings_spec_witness :
  ∃ savings,
    generate_savings (ex_problem 2) (3 # 10) = Ok savings ∧
    map (λ s, (Saving.inode s, Saving.jnode s)) savings = [(1, 2); (2, 1)].
Proof.
  destruct (generate_savings (ex_problem 2) (3 # 10)) as [savings|] eqn:E;
    [|by vm_compute in E].
  exists savings. split; [done|].
  destruct (generate_savings_spec (ex_problem 2) (3 # 10) savings E) as [-> _].
  by vm_compute.
Defined.



(** ** The initial solution *)

Lemma init_fold_char (p : Problem.t) (l done_ : list (nat * Customer.t))
    (st st' : list (nat * Route.t) * nat * gmap nat nat) :
  NoDup (done_ ++ l).*1 →
  (od_keys st.1.1 = seq 0 st.1.2 ∧
   (∀ c, is_Some (st.2 !! c) ↔ reachable p c ∧ c ∈ done_.*1) ∧
   (∀ k r, od_get k st.1.1 = Some r →
      ∃ c rec d1 d2, (c, rec) ∈ done_ ∧
        dist p source c = Ok d1 ∧ dist p c (target p) = Ok d2 ∧
        r = Route.mk k p [source; c; target p] (d1 + d2) (Customer.reward rec) ∧
        st.2 !! c = Some k)) →
  foldM (init_step p) st l = Ok st' →
  od_keys st'.1.1 = seq 0 st'.1.2 ∧
  (∀ c, is_Some (st'.2 !! c) ↔ reachable p c ∧ c ∈ (done_ ++ l).*1) ∧
  (∀ k r, od_get k st'.1.1 = Some r →
     ∃ c rec d1 d2, (c, rec) ∈ done_ ++ l ∧
       dist p source c = Ok d1 ∧ dist p c (target p) = Ok d2 ∧
       r = Route.mk k p [source; c; target p] (d1 + d2) (Customer.reward rec) ∧
       st'.2 !! c = Some k).
Proof.
  revert done_ st. induction l as [|[id c] l IH]; intros done_ st Hnd Hst H; simpl in H.
  - injection H as <-. by rewrite app_nil_r.
  - apply bind_ok in H as (st1 & Hstep & H).
    replace (done_ ++ (id, c) :: l) with ((done_ ++ [(id, c)]) ++ l) in *
      by by rewrite <- app_assoc.
    apply (IH (done_ ++ [(id, c)]) st1); [done| |done].
    clear IH H. destruct st as [[routes rid] c_to_r]. simpl in Hst.
    destruct Hst as (Hkeys & Hdom & Hroutes).
    assert (id ∉ done_.*1) as Hid.
    { rewrite !fmap_app in Hnd. apply NoDup_app in Hnd as [Hnd _].
      apply NoDup_app in Hnd as (_ & Hdis & _). intros Hin. apply (Hdis id Hin).
      by left. }
    assert (c_to_r !! id = None) as Hnone.
    { destruct (c_to_r !! id) eqn:E; [|done]. exfalso. apply Hid.
      apply Hdom. by rewrite E. }
    assert (∀ x, x ∈ (done_ ++ [(id, c)]).*1 ↔ x ∈ done_.*1 ∨ x = id) as Hel.
    { intros x. rewrite fmap_app, elem_of_app. simpl. by rewrite list_elem_of_singleton. }
    assert (∀ k r, od_get k routes = Some r →
      ∃ c0 rec d1 d2, (c0, rec) ∈ done_ ++ [(id, c)] ∧
        dist p source c0 = Ok d1 ∧ dist p c0 (target p) = Ok d2 ∧
        r = Route.mk k p [source; c0; target p] (d1 + d2) (Customer.reward rec) ∧
        c_to_r !! c0 = Some k) as Hroutes'.
    { intros k r (c0 & rec & d1 & d2 & Hin & ?)%Hroutes.
      exists c0, rec, d1, d2. split; [|done]. apply elem_of_app. by left. }
    unfold init_step in Hstep. case_decide as Hdepot.
    { injection Hstep as <-. simpl. split_and!; [done| |done].
      intros x. rewrite Hdom, Hel. split; [tauto|].
      intros [Hr [?| ->]]; [done|]. destruct Hr as (? & ? & _). tauto. }
    apply bind_ok in Hstep as (d1 & Hd1 & Hstep).
    apply bind_ok in Hstep as (d2 & Hd2 & Hstep).
    destruct (Qle_bool _ _) eqn:Hle.
    + apply Qle_bool_iff in Hle. injection Hstep as <-. simpl. split_and!.
      * rewrite od_keys_set, Hkeys. rewrite decide_False.
        -- exact (eq_sym (seq_S rid 0)).
        -- rewrite elem_of_seq. lia.
      * intros x. rewrite Hel. destruct (decide (x = id)) as [->|Hne].
        -- rewrite lookup_insert_eq. split; [|by eauto]. intros _. split; [|by right].
           split_and!; [tauto..|]. by exists d1, d2.
        -- rewrite lookup_insert_ne by done. rewrite Hdom. tauto.
      * intros k r. rewrite od_get_set. case_decide as Hk.
        -- intros [= <-]. subst k. exists id, c, d1, d2.
           rewrite lookup_insert_eq. split_and!; try done.
           apply elem_of_app. right. by left.
        -- intros (c0 & rec & e1 & e2 & Hin & ? & ? & ? & Hc0)%Hroutes'.
           exists c0, rec, e1, e2. split_and!; try done.
           rewrite lookup_insert_ne; [done|]. intros ->. congruence.
    + apply Qle_bool_false in Hle. injection Hstep as <-. simpl.
      split_and!; [done| |done].
      intros x. rewrite Hdom, Hel. split; [tauto|].
      intros [Hr [?| ->]]; [done|]. destruct Hr as (_ & _ & e1 & e2 & He1 & He2 & Hle').
      rewrite Hd1 in He1. rewrite Hd2 in He2. injection He1 as <-. injection He2 as <-.
      lra.
Qed.

(** [init_solution] opens one depot round-trip for each customer that is not
    a depot and whose round trip fits [tmax], and for no other; the routes are
    numbered from 0 in the order of the customers, and each records the
    length of its two legs and the reward of its customer. *)
Theorem init_solution_routes (p : Problem.t) (s : Solution.t) :
  od_wf (Problem.customers p) → init_solution p = Ok s →
  od_keys (Solution.routes s) = seq 0 (length (Solution.routes s)) ∧
  (∀ c, is_Some (Solution.c_to_r s !! c) ↔
        reachable p c ∧ c ∈ od_keys (Problem.customers p)) ∧
  (∀ k r, od_get k (Solution.routes s) = Some r →
     ∃ c rec d1 d2, (c, rec) ∈ Problem.customers p ∧
       dist p source c = Ok d1 ∧ dist p c (target p) = Ok d2 ∧
       r = Route.mk k p [source; c; target p] (d1 + d2) (Customer.reward rec) ∧
       Solution.c_to_r s !! c = Some k).
Proof.
  intros Hwf H. unfold init_solution in H.
  apply bind_ok in H as ([[routes rid] c_to_r] & Hfold & [= <-]). simpl.
  apply (init_fold_char p _ []) in Hfold as (Hkeys & Hdom & Hroutes); [| done |].
  - simpl in *. split_and!; [|done..].
    rewrite Hkeys. f_equal. apply (f_equal length) in Hkeys.
    unfold od_keys in Hkeys. by rewrite length_fmap, length_seq in Hkeys.
  - simpl. split_and!; [done| |done].
    intros c. rewrite lookup_empty. split; [by intros [? ?]|].
    by intros [_ ?%elem_of_nil].
Qed.

Lemma init_solution_routes_witness :
  od_keys (Solution.routes ex_init) = seq 0 (length (Solution.routes ex_init)) ∧
  (∀ c, is_Some (Solution.c_to_r ex_init !! c) ↔
        reachable (ex_problem 2) c ∧ c ∈ od_keys (Problem.customers (ex_problem 2))) ∧
  (∀ k r, od_get k (Solution.routes ex_init) = Some r →
     ∃ c rec d1 d2, (c, rec) ∈ Problem.customers (ex_problem 2) ∧
       dist (ex_problem 2) source c = Ok d1 ∧
       dist (ex_problem 2) c (target (ex_problem 2)) = Ok d2 ∧
       r = Route.mk k (ex_problem 2) [source; c; target (ex_problem 2)] (d1 + d2)
             (Customer.reward rec) ∧
       Solution.c_to_r ex_init !! c = Some k).
Proof.
  apply (init_solution_routes (ex_problem 2) ex_init).
  - apply ex_customers_wf.
  - by vm_compute.
Defined.

(** ** The routes of the constructive heuristic *)

Lemma build_truck_keys (p : Problem.t) (alpha beta : Q) (us : nat → Q)
    (st st' : list (nat * Route.t) * nat * gmap nat nat * gset nat * nat) :
  od_keys st.1.1.1.1 = seq 0 st.1.1.1.2 →
  build_truck p alpha beta us st = Ok st' →
  od_keys st'.1.1.1.1 = seq 0 st'.1.1.1.2 ∧ st'.1.1.1.2 = S st.1.1.1.2.
Proof.
  destruct st as [[[[routes rid] c_to_r] visited] draws]. simpl.
  intros Hkeys H. unfold build_truck in H.
  apply bind_ok in H as (b & _ & H). apply bind_ok in H as (d & _ & [= <-]). simpl.
  split; [|done]. rewrite od_keys_set, Hkeys. rewrite decide_False.
  - exact (eq_sym (seq_S rid 0)).
  - rewrite elem_of_seq. lia.
Qed.

(** [constructive_heuristic] returns one route for each truck, numbered from
    0, whether customers are left for it or not. *)
Theorem constructive_one_route_per_truck (p : Problem.t) (alpha beta : Q)
    (us : nat → Q) (s : Solution.t) :
  constructive_heuristic p alpha beta us = Ok s →
  od_keys (Solution.routes s) = seq 0 (Problem.n_trucks p) ∧
  length (Solution.routes s) = Problem.n_trucks p.
Proof.
  unfold constructive_heuristic. intros H.
  apply bind_ok in H as ([[[[routes rid] c_to_r] visited] draws] & H & [= <-]). simpl.
  assert (∀ l st st',
    od_keys st.1.1.1.1 = seq 0 st.1.1.1.2 →
    foldM (λ st (_ : nat), build_truck p alpha beta us st) st l = Ok st' →
    od_keys st'.1.1.1.1 = seq 0 (st.1.1.1.2 + length l)) as Hgen.
  { induction l as [|x l IH]; intros st st' Hst Hf; simpl in Hf.
    - injection Hf as <-. simpl. by rewrite Nat.add_0_r.
    - apply bind_ok in Hf as (st1 & Hst1 & Hf).
      destruct (build_truck_keys _ _ _ _ _ _ Hst Hst1) as [Hk1 Hr1].
      rewrite (IH st1 st' Hk1 Hf), Hr1. f_equal. simpl. lia. }
  apply Hgen in H; [|done]. simpl in H. rewrite length_seq in H.
  split; [done|]. apply (f_equal length) in H. unfold od_keys in H.
  by rewrite length_fmap, length_seq in H.
Qed.

Lemma constructive_one_route_per_truck_witness :
  od_keys [(0, Route.mk 0 (ex_problem 2) [0; 1; 2; 3] 4 12);
           (1, Route.mk 1 (ex_problem 2) [0; 3] 4 0)] = seq 0 2 ∧
  length [(0, Route.mk 0 (ex_problem 2) [0; 1; 2; 3] 4 12);
          (1, Route.mk 1 (ex_problem 2) [0; 3] 4 0)] = 2.
Proof.
  apply (constructive_one_route_per_truck (ex_problem 2) (3 # 10) (3 # 10) (λ _, 1 # 2)
           (Solution.mk (ex_problem 2)
              [(0, Route.mk 0 (ex_problem 2) [0; 1; 2; 3] 4 12);
               (1, Route.mk 1 (ex_problem 2) [0; 3] 4 0)]
              (<[2 := 0]> (<[1 := 0]> ∅)))).
  by vm_compute.
Defined.







(** ** The stochastic reward of a solution *)

Lemma route_stochastic_reward_bounds (p : Problem.t) (route : Route.t) (n_iter : nat)
    (sim : nat → nat → Q) (v : Q) :
  (0 ≤ Route.reward route)%Z → 1 ≤ n_iter →
  get_route_stochastic_reward p route n_iter sim = Ok v →
  (0 <= v)%Q ∧ (v <= inject_Z (Route.reward route))%Q.
Proof.
  intros Hr Hn H. unfold get_route_stochastic_reward in H.
  apply bind_ok in H as (means & _ & [= <-]).
  set (rows := map _ (seq 0 n_iter)).
  pose proof (feasible_route_count_le (Problem.tmax p) rows) as Hc.
  assert (length rows = n_iter) as Hlen by (unfold rows; by rewrite length_map, length_seq).
  rewrite Hlen in Hc. set (c := feasible_route_count _ _) in *.
  assert (0 <= inject_Z (Route.reward route))%Q as Hr'.
  { change 0%Q with (inject_Z 0). by rewrite <- Zle_Qle. }
  assert (0 < inject_Z (Z.of_nat n_iter))%Q as Hn'.
  { change 0%Q with (inject_Z 0). rewrite <- Zlt_Qlt. lia. }
  assert (0 <= inject_Z (Z.of_nat c) / inject_Z (Z.of_nat n_iter))%Q as Hlo.
  { apply Qle_shift_div_l; [done|]. rewrite Qmult_0_l.
    change 0%Q with (inject_Z 0). rewrite <- Zle_Qle. lia. }
  assert (inject_Z (Z.of_nat c) / inject_Z (Z.of_nat n_iter) <= 1)%Q as Hhi.
  { apply Qle_shift_div_r; [done|]. rewrite Qmult_1_l, <- Zle_Qle. lia. }
  split; nra.
Qed.

(** The stochastic reward of a solution lies between 0 and its deterministic
    reward, whatever the draws, when no route has a negative reward. *)
Theorem solution_stochastic_reward_bounds (s : Solution.t) (n_iter : nat)
    (sim : nat → nat → nat → Q) (v : Q) :
  (∀ r, r ∈ od_values (Solution.routes s) → (0 ≤ Route.reward r)%Z) →
  1 ≤ n_iter →
  stochastic_reward s n_iter sim = Ok v →
  (0 <= v)%Q ∧ (v <= inject_Z (solution_reward s))%Q.
Proof.
  intros Hnn Hn H. rewrite solution_reward_rewards. unfold stochastic_reward in H.
  assert (∀ (l : list Route.t) (k : nat) (acc v : Q),
    (∀ r, r ∈ l → (0 ≤ Route.reward r)%Z) →
    foldM (λ acc ir,
             v ← get_route_stochastic_reward (Solution.problem s) ir.2 n_iter (sim ir.1);
             Ok (acc + v)%Q) acc (imap (λ i r, (k + i, r)) l) = Ok v →
    (acc <= v)%Q ∧ (v <= acc + inject_Z (rewards l))%Q) as Hgen.
  { induction l as [|r l IH]; intros k acc v0 Hl Hf; simpl in Hf.
    - injection Hf as <-. simpl. split; [lra|]. change (inject_Z 0) with 0%Q. lra.
    - apply bind_ok in Hf as (acc1 & Hstep & Hf).
      apply bind_ok in Hstep as (v1 & Hv1 & [= <-]).
      apply route_stochastic_reward_bounds in Hv1 as [Hlo Hhi];
        [|apply Hl; by left|done].
      rewrite (imap_ext _ (λ i r, (S k + i, r))) in Hf
        by (intros; simpl; f_equal; lia).
      apply IH in Hf as [Hlo' Hhi']; [|intros; apply Hl; by right].
      rewrite rewards_cons, inject_Z_plus. split; lra. }
  destruct (Hgen (od_values (Solution.routes s)) 0 0%Q v Hnn H) as [? ?].
  split; lra.
Qed.

Lemma solution_stochastic_reward_bounds_witness :
  (0 <= 12 * (2 / 4))%Q ∧ (12 * (2 / 4) <= inject_Z (solution_reward ex_single))%Q.
Proof.
  destruct (solution_stochastic_reward_bounds ex_single 4 (λ _, ex_sim)
              (0 + 12 * (2 / 4))%Q) as [? ?].
  - intros r [->|?%elem_of_nil]%elem_of_cons; [simpl; lia|done].
  - lia.
  - by vm_compute.
  - split; lra.
Defined.

(** ** The greedy start of the metaheuristics *)

Lemma greedy_step_inv (heuristic : nat → Q → Q → result Solution.t) (A : list Q)
    (k : nat) (a : Q) (st st' : option Solution.t * Z * option Q) :
  A !! k = Some a → greedy_inv heuristic A k st →
  greedy_step heuristic st (k, a) = Ok st' →
  greedy_inv heuristic A (S k) st'.
Proof.
  destruct st as [[solution reward] best_alpha]. intros Ha Hinv H.
  unfold greedy_step in H. simpl in H.
  apply bind_ok in H as (new_sol & Hnew & H).
  unfold greedy_inv in *. simpl in *.
  destruct solution as [s|].
  - destruct Hinv as (-> & i & alpha & Hi & -> & Hai & Hs & Hall).
    rewrite bool_decide_eq_false_2 in H by done. simpl in H.
    destruct (solution_reward s <? solution_reward new_sol)%Z eqn:Hlt.
    + apply Z.ltb_lt in Hlt. injection H as <-. simpl. split; [done|].
      exists k, a. split_and!; [lia|done..|].
      intros j aj sj Hj Haj Hsj. destruct (decide (j = k)) as [->|Hne].
      * rewrite Ha in Haj. injection Haj as <-. rewrite Hnew in Hsj.
        injection Hsj as <-. split; lia.
      * destruct (Hall j aj sj) as [Hle _]; [lia|done..|]. split; lia.
    + apply Z.ltb_ge in Hlt. injection H as <-. simpl. split; [done|].
      exists i, alpha. split_and!; [lia|done..|].
      intros j aj sj Hj Haj Hsj. destruct (decide (j = k)) as [->|Hne].
      * rewrite Ha in Haj. injection Haj as <-. rewrite Hnew in Hsj.
        injection Hsj as <-. split; lia.
      * apply (Hall j aj sj); [lia|done..].
  - destruct Hinv as [-> [= -> ->]]. simpl in H. injection H as <-. simpl.
    split; [done|]. exists 0, a. split_and!; [lia|done..|].
    intros j aj sj Hj Haj Hsj. assert (j = 0) as -> by lia.
    rewrite Ha in Haj. injection Haj as <-. rewrite Hnew in Hsj.
    injection Hsj as <-. split; lia.
Qed.

Lemma greedy_fold_inv (heuristic : nat → Q → Q → result Solution.t) (A : list Q)
    (l : list Q) (k : nat) (st st' : option Solution.t * Z * option Q) :
  l = drop k A → greedy_inv heuristic A k st →
  foldM (greedy_step heuristic) st (imap (λ i a, (k + i, a)) l) = Ok st' →
  greedy_inv heuristic A (k + length l) st'.
Proof.
  revert k st. induction l as [|a l IH]; intros k st Hl Hinv H; simpl in H.
  - injection H as <-. simpl. by rewrite Nat.add_0_r.
  - apply bind_ok in H as (st1 & Hstep & H). rewrite Nat.add_0_r in Hstep.
    assert (A !! k = Some a) as Ha.
    { rewrite <- (Nat.add_0_r k), <- lookup_drop, <- Hl. done. }
    rewrite (imap_ext _ (λ i a, (S k + i, a))) in H by (intros; simpl; f_equal; lia).
    simpl. replace (k + S (length l)) with (S k + length l) by lia.
    apply (IH (S k) st1); [|by eapply greedy_step_inv|done].
    apply (f_equal (drop 1)) in Hl. simpl in Hl. rewrite drop_0 in Hl.
    rewrite Hl, drop_drop. f_equal. lia.
Qed.

(** [generate_greedy_solution] returns the solution of highest reward among
    the 21 it builds, one for each [alpha] from 0 to 1 in steps of 0.05 with
    [beta = 0.99999], or the first of them when several reach the maximum,
    and with it the [alpha] that gave it. *)
Theorem generate_greedy_solution_best (heuristic : nat → Q → Q → result Solution.t)
    (solution : option Solution.t) (best_alpha : option Q) :
  generate_greedy_solution heuristic = Ok (solution, best_alpha) →
  ∃ s i alpha,
    solution = Some s ∧ best_alpha = Some alpha ∧
    i < 21 ∧ (alpha == inject_Z (Z.of_nat i) * (5 # 100))%Q ∧
    heuristic i alpha (99999 # 100000)%Q = Ok s ∧
    ∀ j sj, j < 21 →
      heuristic j (inject_Z (Z.of_nat j) * (5 # 100))%Q (99999 # 100000)%Q = Ok sj →
      (solution_reward sj ≤ solution_reward s)%Z ∧
      (j < i → (solution_reward sj < solution_reward s)%Z).
Proof.
  unfold generate_greedy_solution. intros H.
  apply bind_ok in H as ([[sol reward] oa] & Hfold & [= <- <-]).
  apply (greedy_fold_inv heuristic alphas alphas 0) in Hfold; [|done|by split].
  assert (∀ j, j < 21 →
            alphas !! j = Some (inject_Z (Z.of_nat j) * (5 # 100))%Q) as Halpha.
  { intros j Hj. unfold alphas. rewrite list_lookup_fmap, lookup_seq_lt by done. done. }
  unfold greedy_inv in Hfold. simpl in Hfold. destruct sol as [s|].
  - destruct Hfold as (_ & i & alpha & Hi & -> & Hai & Hs & Hall).
    change (length alphas) with 21 in *. exists s, i, alpha.
    split_and!; [done|done|done| |done|].
    + rewrite (Halpha i Hi) in Hai. by injection Hai as <-.
    + intros j sj Hj Hsj. by apply (Hall j _ sj Hj (Halpha j Hj)).
  - by destruct Hfold as [? _].
Qed.

Lemma generate_greedy_solution_best_witness :
  ∃ s i alpha,
    i < 21 ∧ (alpha == inject_Z (Z.of_nat i) * (5 # 100))%Q ∧
    savings_call (ex_problem 2) (λ _ _, 1 # 2) i alpha (99999 # 100000)%Q = Ok s ∧
    ∀ j sj, j < 21 →
      savings_call (ex_problem 2) (λ _ _, 1 # 2) j
        (inject_Z (Z.of_nat j) * (5 # 100))%Q (99999 # 100000)%Q = Ok sj →
      (solution_reward sj ≤ solution_reward s)%Z.
Proof.
  destruct (generate_greedy_solution (savings_call (ex_problem 2) (λ _ _, 1 # 2)))
    as [[sol oa]|] eqn:E; [|by vm_compute in E].
  destruct (generate_greedy_solution_best _ sol oa E)
    as (s & i & alpha & _ & _ & Hi & Ha & Hs & Hall).
  exists s, i, alpha. split_and!; [done..|].
  intros j sj Hj Hsj. by destruct (Hall j sj Hj Hsj).
Defined.

(** ** The multi-start metaheuristic *)

Lemma deque_append_length {A} (maxlen : nat) (d : list A) (x : A) :
  length (deque_append maxlen d x) = maxlen `min` S (length d).
Proof.
  unfold deque_append. rewrite length_drop, length_app. simpl. lia.
Qed.

Lemma deque_append_elem {A} (maxlen : nat) (d : list A) (x y : A) :
  y ∈ deque_append maxlen d x → y ∈ d ∨ y = x.
Proof.
  unfold deque_append. intros Hy.
  apply (subseteq_drop _ _ _) in Hy.
  apply elem_of_app in Hy as [?|Hy]; [by left|right].
  by apply list_elem_of_singleton in Hy.
Qed.

Lemma head_insert_desc {A} (gt : A → A → bool) (x : A) (l : list A) :
  head (insert_desc gt x l) =
    match head l with
    | Some y => if gt y x then Some y else Some x
    | None => Some x
    end.
Proof. destruct l as [|y l]; simpl; [done|]. by destruct (gt y x). Qed.

(** The element chosen by [nlargest(1, ...)] is the first of those with the
    greatest key. *)
Lemma nlargest1_spec {A} (l : list (A * Q)) (x : A * Q) :
  nlargest1 l = Ok x →
  ∃ k, l !! k = Some x ∧
    ∀ j y, l !! j = Some y → (y.2 <= x.2)%Q ∧ (j < k → (y.2 < x.2)%Q).
Proof.
  unfold nlargest1. intros H.
  assert (head (sorted_desc (λ y x : A * Q, Qltb x.2 y.2) l) = Some x) as Hh.
  { destruct (head _); [by injection H as ->|done]. }
  clear H. revert x Hh. induction l as [|a l IH]; intros x Hh; [done|].
  simpl in Hh. rewrite head_insert_desc in Hh.
  destruct (head (sorted_desc _ l)) as [y|] eqn:Hy.
  - destruct (IH y eq_refl) as (k & Hk & Hall).
    destruct (Qltb a.2 y.2) eqn:Hlt; injection Hh as <-.
    + apply Qltb_lt in Hlt. exists (S k). split; [done|].
      intros [|j] z Hz; simpl in Hz.
      * injection Hz as <-. split; [lra|done].
      * destruct (Hall j z Hz) as [? Hs]. split; [done|]. intros ?. apply Hs. lia.
    + apply Qltb_ge in Hlt. exists 0. split; [done|].
      intros [|j] z Hz; simpl in Hz.
      * injection Hz as <-. split; [lra|lia].
      * destruct (Hall j z Hz) as [? _]. split; [lra|lia].
  - injection Hh as <-. exists 0. split; [done|].
    assert (l = []) as ->.
    { apply length_zero_iff_nil.
      rewrite <- (sorted_desc_length (λ y x : A * Q, Qltb x.2 y.2)).
      by destruct (sorted_desc _ l). }
    intros [|j] z Hz; simpl in Hz; [|done]. injection Hz as <-. split; [lra|lia].
Qed.

Lemma mapM_ok {A B} (f : A → result B) (l : list A) (l' : list B) :
  mapM f l = Ok l' → Forall2 (λ a b, f a = Ok b) l l'.
Proof.
  revert l'. induction l as [|a l IH]; intros l' H; simpl in H.
  - injection H as <-. constructor.
  - apply bind_ok in H as (b & Hb & H). apply bind_ok in H as (k & Hk & [= <-]).
    constructor; auto.
Qed.

(** The elite chosen is the first of those whose long simulation gives the
    greatest stochastic reward. *)
Lemma best_elite_spec (sims : nat → nat → nat → nat → Q) (n_iter first : nat)
    (elites : list Solution.t) (bs : Solution.t) :
  best_elite sims n_iter first elites = Ok bs →
  ∃ k v, elites !! k = Some bs ∧
    stochastic_reward bs n_iter (sims (first + k)) = Ok v ∧
    ∀ j sj vj, elites !! j = Some sj →
      stochastic_reward sj n_iter (sims (first + j)) = Ok vj →
      (vj <= v)%Q ∧ (j < k → (vj < v)%Q).
Proof.
  unfold best_elite. intros H.
  apply bind_ok in H as (l' & Hmap & H).
  apply bind_ok in H as ([bs' v] & Hn & [= <-]).
  apply mapM_ok in Hmap. apply nlargest1_spec in Hn as (k & Hk & Hall).
  destruct (Forall2_lookup_r _ _ _ _ _ Hmap Hk) as ([k' e] & Hke & Hf).
  rewrite list_lookup_imap in Hke.
  destruct (elites !! k) as [e'|] eqn:Hek; [|done].
  injection Hke as <- <-. simpl in Hf.
  apply bind_ok in Hf as (sr & Hsr & [= <- <-]).
  exists k, sr. split_and!; [done..|].
  intros j sj vj Hj Hvj.
  assert (imap pair elites !! j = Some (j, sj)) as Hij.
  { by rewrite list_lookup_imap, Hj. }
  destruct (Forall2_lookup_l _ _ _ _ _ Hmap Hij) as (b & Hb & Hfb).
  apply bind_ok in Hfb as (sr' & Hsr' & [= <-]).
  assert (@Ok Q sr' = Ok vj) as [= ->] by (rewrite <- Hsr', <- Hvj; reflexivity).
  apply (Hall j (sj, vj) Hb).
Qed.

Section multi_start_props.
Context (heuristic : nat → Q → Q → result Solution.t).
Context (sims : nat → nat → nat → nat → Q).
Context (ps : MultiStart.params).

Lemma multi_start_loop_S (alpha : Q) (st0 : MultiStart.t) (n : nat) :
multi_start_loop heuristic sims ps alpha st0 (S n) =
  st ← multi_start_loop heuristic sims ps alpha st0 n;
  multi_start_step heuristic sims ps alpha st n.
Proof.
unfold multi_start_loop. rewrite seq_S, foldM_app. simpl.
destruct (foldM _ st0 (seq 0 n)) as [st|]; simpl; [|done].
by destruct (multi_start_step _ _ _ _ st n).
Qed.

Lemma multi_start_init_spec (st0 : MultiStart.t) (alpha : Q) :
multi_start_init heuristic sims ps = Ok (st0, alpha) →
generate_greedy_solution heuristic
  = Ok (Some (MultiStart.best_solution st0), Some alpha) ∧
MultiStart.best_reward st0 = solution_reward (MultiStart.best_solution st0) ∧
MultiStart.beta st0 = MultiStart.beta_start ps ∧
MultiStart.elites st0
  = deque_append (MultiStart.n_elites ps) [] (MultiStart.best_solution st0).
Proof.
unfold multi_start_init. intros H.
apply bind_ok in H as ([solution oa] & Hg & H).
destruct solution as [s|]; [|done]. destruct oa as [a|]; [|done]. simpl in H.
apply bind_ok in H as (sr & _ & [= <- <-]). by simpl.
Qed.

Lemma multi_start_step_spec (alpha : Q) (st st' : MultiStart.t) (i : nat) :
multi_start_step heuristic sims ps alpha st i = Ok st' →
∃ solution,
  heuristic (21 + i) alpha (MultiStart.beta st) = Ok solution ∧
  (MultiStart.elites st' = MultiStart.elites st ∨
   MultiStart.elites st'
     = deque_append (MultiStart.n_elites ps) (MultiStart.elites st) solution) ∧
  ((MultiStart.best_reward st < solution_reward solution)%Z ∧
   MultiStart.best_solution st' = solution ∧
   MultiStart.best_reward st' = solution_reward solution ∧
   MultiStart.beta st' = MultiStart.beta_start ps
   ∨
   (solution_reward solution ≤ MultiStart.best_reward st)%Z ∧
   MultiStart.best_solution st' = MultiStart.best_solution st ∧
   MultiStart.best_reward st' = MultiStart.best_reward st ∧
   (MultiStart.beta st' = MultiStart.beta st ∨
    MultiStart.beta st'
      = py_max (MultiStart.beta st - MultiStart.beta_step ps)
          (MultiStart.min_beta ps))).
Proof.
unfold multi_start_step. intros H.
apply bind_ok in H as (solution & Hsol & H).
apply bind_ok in H as (sr & _ & H). exists solution. split; [done|].
destruct (Qltb (MultiStart.best_stochastic_reward st) sr);
  (destruct (MultiStart.best_reward st <? solution_reward solution)%Z eqn:Hlt;
   [apply Z.ltb_lt in Hlt|apply Z.ltb_ge in Hlt;
    destruct (MultiStart.enlarge_search_iter ps
                <? S (MultiStart.no_improvement_count st))]);
  injection H as <-; simpl; auto 10.
Qed.

Lemma generated_mono (st0 : MultiStart.t) (alpha : Q) (n m : nat) (s : Solution.t) :
n ≤ m → generated heuristic sims ps st0 alpha n s →
generated heuristic sims ps st0 alpha m s.
Proof.
intros Hnm [->|(i & st & Hi & Hl & Hs)]; [by left|right].
exists i, st. split_and!; [lia|done..].
Qed.

(** What holds of the variables of the loop after [n] iterations. *)
Lemma multi_start_loop_inv (st0 st : MultiStart.t) (alpha : Q) (n : nat) :
MultiStart.best_reward st0 = solution_reward (MultiStart.best_solution st0) →
MultiStart.elites st0
  = deque_append (MultiStart.n_elites ps) [] (MultiStart.best_solution st0) →
multi_start_loop heuristic sims ps alpha st0 n = Ok st →
MultiStart.best_reward st = solution_reward (MultiStart.best_solution st) ∧
generated heuristic sims ps st0 alpha n (MultiStart.best_solution st) ∧
(∀ s, generated heuristic sims ps st0 alpha n s →
      (solution_reward s ≤ MultiStart.best_reward st)%Z) ∧
(∀ e, e ∈ MultiStart.elites st → generated heuristic sims ps st0 alpha n e) ∧
length (MultiStart.elites st) ≤ MultiStart.n_elites ps ∧
(1 ≤ MultiStart.n_elites ps → 1 ≤ length (MultiStart.elites st)).
Proof.
intros Hr0 He0. revert st. induction n as [|n IH]; intros st H.
- injection H as <-. split_and!.
  + done.
  + by left.
  + intros s [->|(i & ? & ? & _)]; lia.
  + intros e He. rewrite He0 in He.
    apply deque_append_elem in He as [He| ->]; [by apply elem_of_nil in He|by left].
  + rewrite He0, deque_append_length. simpl. lia.
  + rewrite He0, deque_append_length. simpl. lia.
- rewrite multi_start_loop_S in H. apply bind_ok in H as (st1 & Hl & Hstep).
  destruct (IH st1 Hl) as (Hr & Hg & Hmax & Hel & Hlen & Hne).
  apply multi_start_step_spec in Hstep as (solution & Hsol & Helites & Hbest).
  assert (generated heuristic sims ps st0 alpha (S n) solution) as Hgs.
  { right. exists n, st1. split_and!; [lia|done..]. }
  assert (∀ s, generated heuristic sims ps st0 alpha (S n) s →
               generated heuristic sims ps st0 alpha n s ∨ s = solution) as Hcase.
  { intros s [->|(i & sti & Hi & Hli & Hsi)]; [left; by left|].
    destruct (decide (i = n)) as [->|Hne'].
    - right. rewrite Hl in Hli. injection Hli as <-. rewrite Hsol in Hsi.
      by injection Hsi.
    - left. right. exists i, sti. split_and!; [lia|done..]. }
  split_and!.
  + destruct Hbest as [(_ & -> & -> & _)|(_ & -> & -> & _)]; done.
  + destruct Hbest as [(_ & -> & _)|(_ & -> & _)]; [done|].
    by apply (generated_mono st0 alpha n (S n)); [lia|].
  + intros s Hs. destruct (Hcase s Hs) as [Hs'| ->].
    * apply Hmax in Hs'. destruct Hbest as [(? & _ & -> & _)|(_ & _ & -> & _)]; lia.
    * destruct Hbest as [(? & _ & -> & _)|(? & _ & -> & _)]; lia.
  + intros e He. destruct Helites as [Heq|Heq]; rewrite Heq in He.
    * apply (generated_mono st0 alpha n (S n)); [lia|by apply Hel].
    * apply deque_append_elem in He as [He| ->]; [|done].
      apply (generated_mono st0 alpha n (S n)); [lia|by apply Hel].
  + destruct Helites as [->| ->]; [done|]. rewrite deque_append_length. lia.
  + destruct Helites as [->| ->]; [done|]. rewrite deque_append_length. lia.
Qed.

Lemma py_max_bounds (a b c : Q) :
(b <= c)%Q → (a <= c)%Q → (b <= py_max a b)%Q ∧ (py_max a b <= c)%Q.
Proof.
intros Hb Ha. unfold py_max. destruct (Qltb a b) eqn:E.
- split; [lra|done].
- apply Qltb_ge in E. by split.
Qed.
End multi_start_props.

(** The first solution returned by [multi_start_metaheuristic] is one of the
    solutions it built, the greedy one or one of the [max_iter] of the loop,
    and none of them has a higher reward. *)
Theorem multi_start_best_solution (heuristic : nat → Q → Q → result Solution.t)
    (sims : nat → nat → nat → nat → Q) (ps : MultiStart.params)
    (best bs : Solution.t) :
  multi_start_metaheuristic heuristic sims ps = Ok (best, bs) →
  ∃ st0 alpha,
    multi_start_init heuristic sims ps = Ok (st0, alpha) ∧
    generate_greedy_solution heuristic
      = Ok (Some (MultiStart.best_solution st0), Some alpha) ∧
    generated heuristic sims ps st0 alpha (MultiStart.max_iter ps) best ∧
    ∀ s, generated heuristic sims ps st0 alpha (MultiStart.max_iter ps) s →
         (solution_reward s ≤ solution_reward best)%Z.
Proof.
  unfold multi_start_metaheuristic. intros H.
  apply bind_ok in H as ([st0 alpha] & Hinit & H).
  apply bind_ok in H as (st & Hloop & Hfin).
  destruct (multi_start_init_spec _ _ _ _ _ Hinit) as (Hg & Hr0 & _ & He0).
  destruct (multi_start_loop_inv _ _ _ _ _ _ _ Hr0 He0 Hloop)
    as (Hr & Hgen & Hmax & _).
  unfold multi_start_finish in Hfin.
  apply bind_ok in Hfin as (bs' & _ & [= <- <-]).
  exists st0, alpha. split_and!; [done..|].
  intros s Hs. rewrite <- Hr. by apply Hmax.
Qed.

Lemma multi_start_best_solution_witness :
  ∃ st0 alpha best,
    multi_start_init (savings_call (ex_problem 2) ex_draws) ex_sims (ex_params 2)
      = Ok (st0, alpha) ∧
    generated (savings_call (ex_problem 2) ex_draws) ex_sims (ex_params 2)
      st0 alpha 3 best ∧
    ∀ s, generated (savings_call (ex_problem 2) ex_draws) ex_sims (ex_params 2)
           st0 alpha 3 s →
         (solution_reward s ≤ solution_reward best)%Z.
Proof.
  destruct (multi_start_metaheuristic (savings_call (ex_problem 2) ex_draws)
              ex_sims (ex_params 2)) as [[best bs]|] eqn:E; [|by vm_compute in E].
  destruct (multi_start_best_solution _ _ _ best bs E)
    as (st0 & alpha & Hinit & _ & Hgen & Hmax).
  by exists st0, alpha, best.
Defined.

(** With [min_beta <= beta_start] and [beta_step >= 0], the [beta] passed to
    the heuristic stays between [min_beta] and [beta_start] in every
    iteration of the loop. *)
Theorem multi_start_beta_range (heuristic : nat → Q → Q → result Solution.t)
    (sims : nat → nat → nat → nat → Q) (ps : MultiStart.params)
    (st0 st : MultiStart.t) (alpha : Q) (n : nat) :
  (MultiStart.min_beta ps <= MultiStart.beta_start ps)%Q →
  (0 <= MultiStart.beta_step ps)%Q →
  multi_start_init heuristic sims ps = Ok (st0, alpha) →
  multi_start_loop heuristic sims ps alpha st0 n = Ok st →
  (MultiStart.min_beta ps <= MultiStart.beta st)%Q ∧
  (MultiStart.beta st <= MultiStart.beta_start ps)%Q.
Proof.
  intros Hmin Hstep Hinit Hloop.
  destruct (multi_start_init_spec _ _ _ _ _ Hinit) as (_ & _ & Hb0 & _).
  unfold multi_start_loop in Hloop.
  apply (foldM_inv _ (λ st, (MultiStart.min_beta ps <= MultiStart.beta st)%Q ∧
                            (MultiStart.beta st <= MultiStart.beta_start ps)%Q))
    in Hloop; [done| |rewrite Hb0; split; lra].
  intros s i s' _ [Hlo Hhi] Hs.
  apply multi_start_step_spec in Hs as (solution & _ & _ & Hbest).
  destruct Hbest as [(_ & _ & _ & ->)|(_ & _ & _ & [-> | ->])].
  - split; lra.
  - by split.
  - apply py_max_bounds; lra.
Qed.

Lemma multi_start_beta_range_witness :
  ∃ st0 alpha st,
    multi_start_loop (savings_call (ex_problem 2) ex_draws) ex_sims (ex_params 2)
      alpha st0 3 = Ok st ∧
    (1 # 10 <= MultiStart.beta st)%Q ∧ (MultiStart.beta st <= 9 # 10)%Q.
Proof.
  destruct (multi_start_init (savings_call (ex_problem 2) ex_draws) ex_sims
              (ex_params 2)) as [[st0 alpha]|] eqn:E0; [|by vm_compute in E0].
  pose proof E0 as E0'. vm_compute in E0'. injection E0' as <- <-.
  match goal with
  | E0 : _ = Ok (?s0, ?a) |- _ =>
      destruct (multi_start_loop (savings_call (ex_problem 2) ex_draws) ex_sims
                  (ex_params 2) a s0 3) as [st|] eqn:E1; [|by vm_compute in E1];
      exists s0, a, st; split; [done|];
      apply (multi_start_beta_range (savings_call (ex_problem 2) ex_draws) ex_sims
               (ex_params 2) s0 st a 3); [by vm_compute..|done|done]
  end.
Defined.

(** With [n_elites = 0] the deque of elite solutions stays empty, and a run
    whose heuristic calls and simulations all succeed ends in the
    [IndexError] of [heapq.nlargest(...)[0]]. *)
Theorem multi_start_no_elites (heuristic : nat → Q → Q → result Solution.t)
    (sims : nat → nat → nat → nat → Q) (ps : MultiStart.params)
    (st0 st : MultiStart.t) (alpha : Q) :
  MultiStart.n_elites ps = 0 →
  multi_start_init heuristic sims ps = Ok (st0, alpha) →
  multi_start_loop heuristic sims ps alpha st0 (MultiStart.max_iter ps) = Ok st →
  multi_start_metaheuristic heuristic sims ps = Err IndexError.
Proof.
  intros Hn Hinit Hloop. unfold multi_start_metaheuristic.
  rewrite Hinit. simpl. rewrite Hloop. simpl.
  destruct (multi_start_init_spec _ _ _ _ _ Hinit) as (_ & Hr0 & _ & He0).
  destruct (multi_start_loop_inv _ _ _ _ _ _ _ Hr0 He0 Hloop)
    as (_ & _ & _ & _ & Hlen & _).
  unfold multi_start_finish, best_elite.
  destruct (MultiStart.elites st) as [|e l]; [done|simpl in Hlen; lia].
Qed.

Lemma multi_start_no_elites_witness :
  multi_start_metaheuristic (savings_call (ex_problem 2) ex_draws) ex_sims
    (ex_params 0) = Err IndexError.
Proof.
  destruct (multi_start_init (savings_call (ex_problem 2) ex_draws) ex_sims
              (ex_params 0)) as [[st0 alpha]|] eqn:E0; [|by vm_compute in E0].
  pose proof E0 as E0'. vm_compute in E0'. injection E0' as <- <-.
  match goal with
  | E0 : _ = Ok (?s0, ?a) |- _ =>
      destruct (multi_start_loop (savings_call (ex_problem 2) ex_draws) ex_sims
                  (ex_params 0) a s0 3) as [st|] eqn:E1; [|by vm_compute in E1];
      exact (multi_start_no_elites (savings_call (ex_problem 2) ex_draws) ex_sims
               (ex_params 0) s0 st a eq_refl E0 E1)
  end.
Defined.

(** The second solution returned by [multi_start_metaheuristic] is one of the
    elite solutions, of which there are between 1 and [n_elites], each built
    by the greedy start or by the loop: the one whose long simulation gives
    the highest stochastic reward, the earliest in the deque on ties. *)
Theorem multi_start_stochastic_choice (heuristic : nat → Q → Q → result Solution.t)
    (sims : nat → nat → nat → nat → Q) (ps : MultiStart.params)
    (best bs : Solution.t) :
  multi_start_metaheuristic heuristic sims ps = Ok (best, bs) →
  ∃ st0 alpha st,
    multi_start_init heuristic sims ps = Ok (st0, alpha) ∧
    multi_start_loop heuristic sims ps alpha st0 (MultiStart.max_iter ps) = Ok st ∧
    1 ≤ length (MultiStart.elites st) ≤ MultiStart.n_elites ps ∧
    (∀ e, e ∈ MultiStart.elites st →
          generated heuristic sims ps st0 alpha (MultiStart.max_iter ps) e) ∧
    ∃ k v, MultiStart.elites st !! k = Some bs ∧
      stochastic_reward bs (MultiStart.long_simulation_n_iter ps)
        (sims (1 + MultiStart.max_iter ps + k)) = Ok v ∧
      ∀ j sj vj, MultiStart.elites st !! j = Some sj →
        stochastic_reward sj (MultiStart.long_simulation_n_iter ps)
          (sims (1 + MultiStart.max_iter ps + j)) = Ok vj →
        (vj <= v)%Q ∧ (j < k → (vj < v)%Q).
Proof.
  unfold multi_start_metaheuristic. intros H.
  apply bind_ok in H as ([st0 alpha] & Hinit & H).
  apply bind_ok in H as (st & Hloop & Hfin).
  destruct (multi_start_init_spec _ _ _ _ _ Hinit) as (_ & Hr0 & _ & He0).
  destruct (multi_start_loop_inv _ _ _ _ _ _ _ Hr0 He0 Hloop)
    as (_ & _ & _ & Hel & Hlen & _).
  unfold multi_start_finish in Hfin.
  apply bind_ok in Hfin as (bs' & Hfin & [= _ <-]).
  apply best_elite_spec in Hfin as (k & v & Hk & Hv & Hall).
  exists st0, alpha, st. split_and!; [done|done| |done|done|by exists k, v].
  apply lookup_lt_Some in Hk. lia.
Qed.

Lemma multi_start_stochastic_choice_witness :
  ∃ st bs k,
    1 ≤ length (MultiStart.elites st) ≤ 2 ∧ MultiStart.elites st !! k = Some bs.
Proof.
  destruct (multi_start_metaheuristic (savings_call (ex_problem 2) ex_draws)
              ex_sims (ex_params 2)) as [[best bs]|] eqn:E; [|by vm_compute in E].
  destruct (multi_start_stochastic_choice _ _ _ best bs E)
    as (st0 & alpha & st & _ & _ & Hlen & _ & k & v & Hk & _).
  by exists st, bs, k.
Defined.

(** ** The local search metaheuristic *)

Section local_search_props.
Context (p : Problem.t).
Context (exp : Q → Q).
Context (greedy_draws : nat → nat → Q).
Context (rnd : nat → LocalSearch.draws).
Context (sims : nat → nat → nat → nat → Q).
Context (ps : LocalSearch.params).

Lemma local_search_loop_S (alpha : Q) (st0 : LocalSearch.t) (n : nat) :
local_search_loop p exp rnd sims ps alpha st0 (S n) =
  st ← local_search_loop p exp rnd sims ps alpha st0 n;
  local_search_step p exp rnd sims ps alpha st n.
Proof.
unfold local_search_loop. rewrite seq_S, foldM_app. simpl.
destruct (foldM _ st0 (seq 0 n)) as [st|]; simpl; [|done].
by destruct (local_search_step _ _ _ _ _ _ st n).
Qed.

Lemma local_search_init_spec (st0 : LocalSearch.t) (alpha : Q) :
local_search_init p greedy_draws sims ps = Ok (st0, alpha) →
generate_greedy_solution (savings_call p greedy_draws)
  = Ok (Some (LocalSearch.best_solution st0), Some alpha) ∧
LocalSearch.best_reward st0 = solution_reward (LocalSearch.best_solution st0) ∧
LocalSearch.base_reward st0 = LocalSearch.best_reward st0.
Proof.
unfold local_search_init. intros H.
apply bind_ok in H as ([solution oa] & Hg & H).
destruct solution as [s|]; [|done]. destruct oa as [a|]; [|done]. simpl in H.
apply bind_ok in H as (sr & _ & [= <- <-]). by simpl.
Qed.

(** An iteration never loses the best solution: the base solution may get
  worse, the best one only better. *)
Lemma local_search_step_spec (alpha : Q) (st st' : LocalSearch.t) (i : nat) :
(LocalSearch.base_reward st ≤ LocalSearch.best_reward st)%Z →
local_search_step p exp rnd sims ps alpha st i = Ok st' →
∃ solution,
  local_search_move p alpha (LocalSearch.base_solution st) (rnd i) = Ok solution ∧
  (solution_reward solution ≤ LocalSearch.best_reward st')%Z ∧
  (LocalSearch.base_reward st' ≤ LocalSearch.best_reward st')%Z ∧
  (LocalSearch.best_reward st ≤ LocalSearch.best_reward st')%Z ∧
  (LocalSearch.best_solution st' = solution ∧
   LocalSearch.best_reward st' = solution_reward solution
   ∨
   LocalSearch.best_solution st' = LocalSearch.best_solution st ∧
   LocalSearch.best_reward st' = LocalSearch.best_reward st).
Proof.
unfold local_search_step. intros Hbase H.
apply bind_ok in H as (solution & Hsol & H). exists solution. split; [done|].
destruct (LocalSearch.base_reward st <=? solution_reward solution)%Z eqn:Hge.
- apply Z.leb_le in Hge. apply bind_ok in H as (sr & _ & H).
  destruct (LocalSearch.best_reward st <? solution_reward solution)%Z eqn:Hlt;
    [apply Z.ltb_lt in Hlt|apply Z.ltb_ge in Hlt];
    destruct (Qltb (LocalSearch.best_stochastic_reward st) sr);
    injection H as <-; simpl; split_and!; auto; lia.
- apply Z.leb_gt in Hge.
  destruct (Qltb (LocalSearch.random (rnd i)) _);
    injection H as <-; simpl; split_and!; auto; lia.
Qed.

Lemma tried_mono (st0 : LocalSearch.t) (alpha : Q) (n m : nat) (s : Solution.t) :
n ≤ m → tried p exp rnd sims ps st0 alpha n s →
tried p exp rnd sims ps st0 alpha m s.
Proof.
intros Hnm [->|(i & st & Hi & Hl & Hs)]; [by left|right].
exists i, st. split_and!; [lia|done..].
Qed.

(** What holds of the variables of the loop after [n] iterations. *)
Lemma local_search_loop_inv (st0 st : LocalSearch.t) (alpha : Q) (n : nat) :
LocalSearch.best_reward st0 = solution_reward (LocalSearch.best_solution st0) →
LocalSearch.base_reward st0 = LocalSearch.best_reward st0 →
local_search_loop p exp rnd sims ps alpha st0 n = Ok st →
LocalSearch.best_reward st = solution_reward (LocalSearch.best_solution st) ∧
(LocalSearch.base_reward st ≤ LocalSearch.best_reward st)%Z ∧
tried p exp rnd sims ps st0 alpha n (LocalSearch.best_solution st) ∧
(∀ s, tried p exp rnd sims ps st0 alpha n s →
      (solution_reward s ≤ LocalSearch.best_reward st)%Z).
Proof.
intros Hr0 Hb0. revert st. induction n as [|n IH]; intros st H.
- injection H as <-. split_and!; [done|lia|by left|].
  intros s [->|(i & ? & ? & _)]; lia.
- rewrite local_search_loop_S in H. apply bind_ok in H as (st1 & Hl & Hstep).
  destruct (IH st1 Hl) as (Hr & Hbase & Hg & Hmax).
  apply local_search_step_spec in Hstep
    as (solution & Hsol & Hle & Hbase' & Hgrow & Hbest); [|done].
  assert (∀ s, tried p exp rnd sims ps st0 alpha (S n) s →
               tried p exp rnd sims ps st0 alpha n s ∨ s = solution) as Hcase.
  { intros s [->|(i & sti & Hi & Hli & Hsi)]; [left; by left|].
    destruct (decide (i = n)) as [->|Hne'].
    - right. rewrite Hl in Hli. injection Hli as <-. rewrite Hsol in Hsi.
      by injection Hsi.
    - left. right. exists i, sti. split_and!; [lia|done..]. }
  split_and!.
  + destruct Hbest as [[-> ->]|[-> ->]]; done.
  + done.
  + destruct Hbest as [[-> _]|[-> _]].
    * right. exists n, st1. split_and!; [lia|done..].
    * by apply (tried_mono st0 alpha n (S n)); [lia|].
  + intros s Hs. destruct (Hcase s Hs) as [Hs'| ->]; [|done].
    apply Hmax in Hs'. lia.
Qed.
End local_search_props.

(** The first solution returned by [local_search_metaheuritic] is one of the
    solutions it met, the greedy one or one that an operator returned in the
    loop, whether or not it became the base solution, and none of them has a
    higher reward: accepting a worse base solution never loses the best. *)
Theorem local_search_best_solution (p : Problem.t) (exp : Q → Q)
    (greedy_draws : nat → nat → Q) (rnd : nat → LocalSearch.draws)
    (sims : nat → nat → nat → nat → Q) (ps : LocalSearch.params)
    (best bs : Solution.t) :
  local_search_metaheuritic p exp greedy_draws rnd sims ps = Ok (best, bs) →
  ∃ st0 alpha,
    local_search_init p greedy_draws sims ps = Ok (st0, alpha) ∧
    generate_greedy_solution (savings_call p greedy_draws)
      = Ok (Some (LocalSearch.best_solution st0), Some alpha) ∧
    tried p exp rnd sims ps st0 alpha (LocalSearch.max_iter ps) best ∧
    ∀ s, tried p exp rnd sims ps st0 alpha (LocalSearch.max_iter ps) s →
         (solution_reward s ≤ solution_reward best)%Z.
Proof.
  unfold local_search_metaheuritic. intros H.
  apply bind_ok in H as ([st0 alpha] & Hinit & H).
  apply bind_ok in H as (st & Hloop & Hfin).
  apply bind_ok in Hfin as (bs' & _ & [= <- <-]).
  destruct (local_search_init_spec _ _ _ _ _ _ Hinit) as (Hg & Hr0 & Hb0).
  destruct (local_search_loop_inv _ _ _ _ _ _ _ _ _ Hr0 Hb0 Hloop)
    as (Hr & _ & Hgen & Hmax).
  exists st0, alpha. split_and!; [done..|].
  intros s Hs. rewrite <- Hr. by apply Hmax.
Qed.

Lemma local_search_best_solution_witness :
  ∃ st0 alpha best,
    local_search_init (ex_problem 2) ex_draws ex_sims ex_ls_params
      = Ok (st0, alpha) ∧
    tried (ex_problem 2) ex_exp ex_rnd ex_sims ex_ls_params st0 alpha 3 best ∧
    ∀ s, tried (ex_problem 2) ex_exp ex_rnd ex_sims ex_ls_params st0 alpha 3 s →
         (solution_reward s ≤ solution_reward best)%Z.
Proof.
  destruct (local_search_metaheuritic (ex_problem 2) ex_exp ex_draws ex_rnd
              ex_sims ex_ls_params) as [[best bs]|] eqn:E; [|by vm_compute in E].
  destruct (local_search_best_solution _ _ _ _ _ _ best bs E)
    as (st0 & alpha & Hinit & _ & Hgen & Hmax).
  by exists st0, alpha, best.
Defined.
